(** * inline-resources.js: a shallow embedding and its verified properties

    The program rewrites compiled component files: it replaces
    [templateUrl: '...'] and [styleUrls: [...]] declarations by the
    contents of the files they name and deletes [moduleId: module.id]
    markers.  Everything is done with [String.prototype.replace] and
    regular expressions, so the embedding starts with a model of
    ECMAScript strings, of the backtracking regular-expression matcher
    and of global replacement, and then translates the functions of
    [src/inline-resources.js] one by one. *)

From Stdlib Require Import String Ascii NArith ZArith Lia.
From stdpp Require Import base option list gmap.

Set Warnings "-register-all".
Set Default Proof Using "Type".

(** ** ECMAScript strings

    A JavaScript string is a sequence of UTF-16 code units.  A code unit
    is modelled as a number of type [N]; a string is a list of them. *)

Definition char := N.
Definition str := list char.

(** [js "..."] is the string of the ASCII characters between the quotes,
    read literally: the backslash is an ordinary character there, and
    line breaks and double quotes are written with the names below. *)
Definition js (s : string) : str :=
  map N_of_ascii (list_ascii_of_string s).

Definition LF : char := 10%N.
Definition CR : char := 13%N.
Definition SP : char := 32%N.
Definition DQUOTE : char := 34%N.
Definition SQUOTE : char := 39%N.
Definition COMMA : char := 44%N.
Definition SLASH : char := 47%N.
Definition LBRACKET : char := 91%N.
Definition BACKSLASH : char := 92%N.
Definition RBRACKET : char := 93%N.

Definition char_eqb (a b : char) : bool := N.eqb a b.

(** The class [\s]: WhiteSpace and LineTerminator of ECMA-262. *)
Definition is_space (c : char) : bool :=
  (N.leb 9 c && N.leb c 13) || N.eqb c 32 || N.eqb c 160 ||
  N.eqb c 5760 || (N.leb 8192 c && N.leb c 8202) ||
  N.eqb c 8232 || N.eqb c 8233 || N.eqb c 8239 || N.eqb c 8287 ||
  N.eqb c 12288 || N.eqb c 65279.

(** The class [[\n\r]]. *)
Definition is_break (c : char) : bool := N.eqb c 10 || N.eqb c 13.

(** The class [[\s\S]]. *)
Definition any_char (c : char) : bool := is_space c || negb (is_space c).

(** The class [[^']]. *)
Definition not_squote (c : char) : bool := negb (N.eqb c 39).

(** ** Results of fallible code

    A JavaScript call returns a value or throws. *)

Inductive error :=
| ENOENT (path : str)          (* fs: no such file *)
| EACCES (path : str)          (* fs: the file cannot be written *)
| ModuleNotFound (path : str)  (* require: no file for the request *)
| SyntaxError                  (* text that does not parse *)
| TypeError
| RangeError                   (* call stack exhausted *)
| EvalBeyondModel (src : str)  (* eval of text that is not a plain array literal *)
| RequireBeyondModel (path : str). (* require of a directory or of program text *)

Inductive result (A : Type) :=
| Ok (a : A)
| Throw (e : error).
Arguments Ok {A} a.
Arguments Throw {A} e.

Definition bind {A B} (m : result A) (f : A -> result B) : result B :=
  match m with
  | Ok a => f a
  | Throw e => Throw e
  end.

Notation "'let*' x := m 'in' k" := (bind m (fun x => k))
  (at level 10, x pattern, m at level 100, k at level 200).

(** ** Regular expressions

    The syntax covers what the five regular expressions of the source
    use: literals, character classes, sequence, the quantifiers [*], [+]
    and [?] in their greedy and lazy forms, and capture groups. *)

Inductive regex :=
| Lit (l : str)
| Class (p : char -> bool)
| Seq (r1 r2 : regex)
| Star (greedy : bool) (r : regex)
| Plus (greedy : bool) (r : regex)
| Opt (greedy : bool) (r : regex)
| Group (i : nat) (r : regex).

(** Captures are looked up most-recent first. *)
Definition captures := list (nat * str).

Fixpoint capture (i : nat) (c : captures) : option str :=
  match c with
  | [] => None
  | (j, s) :: c' => if Nat.eqb i j then Some s else capture i c'
  end.

Fixpoint groups (r : regex) : list nat :=
  match r with
  | Lit _ | Class _ => []
  | Seq r1 r2 => groups r1 ++ groups r2
  | Star _ r1 | Plus _ r1 | Opt _ r1 => groups r1
  | Group i r1 => i :: groups r1
  end.

(** A quantifier resets the captures of the groups inside it at the
    start of each iteration. *)
Definition clear (gs : list nat) (c : captures) : captures :=
  List.filter (fun e => negb (existsb (Nat.eqb (fst e)) gs)) c.

Fixpoint strip_prefix (l s : str) : option str :=
  match l, s with
  | [], _ => Some s
  | a :: l', b :: s' => if char_eqb a b then strip_prefix l' s' else None
  | _ :: _, [] => None
  end.

(** A match state is the input still to be read and the captures so far;
    a continuation takes a state to the final state of the whole match,
    or fails. *)
Definition mstate := (str * captures)%type.
Definition cont := str -> captures -> option mstate.
Definition matcher := str -> captures -> cont -> option mstate.

Definition orelse (a b : option mstate) : option mstate :=
  match a with
  | Some x => Some x
  | None => b
  end.

(** RepeatMatcher of ECMA-262 with min = 0 and max = infinity: an
    iteration that consumes nothing is rejected.  Each accepted
    iteration shortens the input, so [S (length s)] units of [fuel] are
    never used up. *)
Fixpoint repeat_matcher (m : matcher) (gs : list nat) (greedy : bool)
    (fuel : nat) (s : str) (c : captures) (k : cont) : option mstate :=
  match fuel with
  | O => k s c
  | S n =>
      let again :=
        m s (clear gs c)
          (fun s1 c1 =>
             if Nat.ltb (length s1) (length s)
             then repeat_matcher m gs greedy n s1 c1 k
             else None) in
      if greedy then orelse again (k s c) else orelse (k s c) again
  end.

Fixpoint mt (r : regex) : matcher :=
  match r with
  | Lit l => fun s c k =>
      match strip_prefix l s with
      | Some s' => k s' c
      | None => None
      end
  | Class p => fun s c k =>
      match s with
      | x :: s' => if p x then k s' c else None
      | [] => None
      end
  | Seq r1 r2 => fun s c k =>
      mt r1 s c (fun s1 c1 => mt r2 s1 c1 k)
  | Star g r1 => fun s c k =>
      repeat_matcher (mt r1) (groups r1) g (S (length s)) s c k
  | Plus g r1 => fun s c k =>
      mt r1 s (clear (groups r1) c)
        (fun s1 c1 =>
           repeat_matcher (mt r1) (groups r1) g (S (length s1)) s1 c1 k)
  | Opt g r1 => fun s c k =>
      let once :=
        mt r1 s (clear (groups r1) c)
          (fun s1 c1 =>
             if Nat.ltb (length s1) (length s) then k s1 c1 else None) in
      if g then orelse once (k s c) else orelse (k s c) once
  | Group i r1 => fun s c k =>
      mt r1 s c
        (fun s1 c1 => k s1 ((i, take (length s - length s1) s) :: c1))
  end.

(** [match_here r s] tries [r] at the first position of [s]: the result
    is the input after the match and the captures. *)
Definition match_here (r : regex) (s : str) : option mstate :=
  mt r s [] (fun s1 c1 => Some (s1, c1)).

(** ** [String.prototype.replace] with a global regular expression

    [replace] first collects every match, scanning from left to right,
    and then builds the output.  At a position where the expression
    matches, the match is recorded and the scan resumes after it (one
    code unit further when the match is empty, the skipped unit being
    copied); elsewhere the code unit is copied.  [skip] counts the code
    units of the current match that are still to be passed over. *)

Inductive piece :=
| Copy (x : char)
| Hit (m : str) (c : captures).

Fixpoint scan (r : regex) (skip : nat) (s : str) : list piece :=
  match skip with
  | S n =>
      match s with
      | [] => []
      | _ :: s' => scan r n s'
      end
  | O =>
      match match_here r s with
      | Some (rest, c) =>
          let len := length s - length rest in
          Hit (take len s) c ::
          match s with
          | [] => []
          | x :: s' =>
              match len with
              | O => Copy x :: scan r O s'
              | S n => scan r n s'
              end
          end
      | None =>
          match s with
          | [] => []
          | x :: s' => Copy x :: scan r O s'
          end
      end
  end.

Fixpoint mapM {A B} (f : A -> result B) (l : list A) : result (list B) :=
  match l with
  | [] => Ok []
  | a :: l' =>
      let* b := f a in
      let* bs := mapM f l' in
      Ok (b :: bs)
  end.

(** [content.replace(r, function (m, g1) {...})]: the replacer is called
    for the matches in order and may throw. *)
Definition replace (r : regex) (f : str -> captures -> result str)
    (s : str) : result str :=
  let* outs :=
    mapM (fun p => match p with
                   | Copy x => Ok [x]
                   | Hit m c => f m c
                   end) (scan r O s) in
  Ok (concat outs).

(** [content.replace(r, by)] for a replacement string without [$]. *)
Definition replace_const (r : regex) (by_ : str) (s : str) : str :=
  concat (map (fun p => match p with
                        | Copy x => [x]
                        | Hit _ _ => by_
                        end) (scan r O s)).

Fixpoint drop_while (p : char -> bool) (s : str) : str :=
  match s with
  | [] => []
  | x :: s' => if p x then drop_while p s' else s
  end.

(** [Array.prototype.join]. *)
Fixpoint join (sep : str) (l : list str) : str :=
  match l with
  | [] => []
  | [a] => a
  | a :: l' => a ++ sep ++ join sep l'
  end.

(** ** The file system, as the passes see it

    The passes read files as text: [fs] gives, for each file, the string
    that decoding its bytes as UTF-8 yields.
    [fs.readFileSync(path, 'utf-8')] returns this string for an existing
    file and throws otherwise. *)

Definition readFileSync (fs : gmap str str) (path : str) : result str :=
  match fs !! path with
  | Some content => Ok content
  | None => Throw (ENOENT path)
  end.

(** ** [eval] of the text of an array literal

    [inlineStyle] hands the text captured between the brackets to
    [eval], whatever that text is.  The model evaluates array literals
    of plain string literals: elements in single or double quotes
    without backslash or line terminator, separated by commas, a comma
    being allowed after the last element, with white space anywhere
    between the tokens.  A string literal that is still open at a line
    feed, at a carriage return or at the end of the text does not
    parse: [eval] throws a [SyntaxError] before it runs anything.  Every
    other text (escapes, expressions, calls, which run with whatever
    effects they have) is beyond the model, which then answers
    [EvalBeyondModel]. *)

Inductive lit_state :=
| BeforeOpen
| AfterOpen
| InString (q : char) (acc : str)
| AfterString
| AfterComma
| Closed.

Definition is_quote (c : char) : bool := N.eqb c 39 || N.eqb c 34.

Definition is_line_terminator (c : char) : bool :=
  N.eqb c 10 || N.eqb c 13 || N.eqb c 8232 || N.eqb c 8233.

(** [None] is the answer on text beyond the model. *)
Fixpoint eval_scan (st : lit_state) (out : list str) (s : str)
    : option (result (list str)) :=
  match s with
  | [] =>
      match st with
      | Closed => Some (Ok (rev out))
      | InString _ _ => Some (Throw SyntaxError)
      | _ => None
      end
  | x :: s' =>
      match st with
      | BeforeOpen =>
          if is_space x then eval_scan BeforeOpen out s'
          else if N.eqb x 91 then eval_scan AfterOpen out s'
          else None
      | AfterOpen =>
          if is_space x then eval_scan AfterOpen out s'
          else if is_quote x then eval_scan (InString x []) out s'
          else if N.eqb x 93 then eval_scan Closed out s'
          else None
      | InString q acc =>
          if N.eqb x q then eval_scan AfterString (rev acc :: out) s'
          else if N.eqb x 10 || N.eqb x 13 then Some (Throw SyntaxError)
          else if N.eqb x 92 || is_line_terminator x then None
          else eval_scan (InString q (x :: acc)) out s'
      | AfterString =>
          if is_space x then eval_scan AfterString out s'
          else if N.eqb x 44 then eval_scan AfterComma out s'
          else if N.eqb x 93 then eval_scan Closed out s'
          else None
      | AfterComma =>
          if is_space x then eval_scan AfterComma out s'
          else if is_quote x then eval_scan (InString x []) out s'
          else if N.eqb x 93 then eval_scan Closed out s'
          else None
      | Closed =>
          if is_space x then eval_scan Closed out s' else None
      end
  end.

Definition eval (src : str) : result (list str) :=
  match eval_scan BeforeOpen [] src with
  | Some r => r
  | None => Throw (EvalBeyondModel src)
  end.

(** ** The passes of [inline-resources.js] *)

(** The expression of line 119, a line break followed by white space,
    one or more times, in a capture group: [/( [\n\r] \s* )+/gm]
    (written here with blanks between its parts). *)
Definition re_breaks : regex :=
  Plus true (Group 1 (Seq (Class is_break) (Star true (Class is_space)))).

(** The expression of line 120: one double quote, with flag g. *)
Definition re_dquote : regex := Lit [DQUOTE].

(** The expression that both [inlineTemplate] and [inlineStyle] apply to
    the content of a resource: first every match of [re_breaks] becomes
    one blank, then every double quote gets a backslash in front. *)
Definition shorten (content : str) : str :=
  replace_const re_dquote [BACKSLASH; DQUOTE]
    (replace_const re_breaks [SP] content).

(** [/templateUrl:\s*'([^']+?\.html)'/g] *)
Definition re_templateUrl : regex :=
  Seq (Lit (js "templateUrl:"))
 (Seq (Star true (Class is_space))
 (Seq (Lit (js "'"))
 (Seq (Group 1 (Seq (Plus false (Class not_squote)) (Lit (js ".html"))))
      (Lit (js "'"))))).

(** The first capture group, which takes part in every match of the
    expressions below. *)
Definition group1 (c : captures) : result str :=
  match capture 1 c with
  | Some g => Ok g
  | None => Throw TypeError
  end.

Definition inlineTemplate (fs : gmap str str) (content : str)
    (urlResolver : str -> result str) : result str :=
  replace re_templateUrl
    (fun m c =>
       let* templateUrl := group1 c in
       let* templateFile := urlResolver templateUrl in
       let* templateContent := readFileSync fs templateFile in
       let shortenedTemplate := shorten templateContent in
       Ok (js "template: " ++ [DQUOTE] ++ shortenedTemplate ++ [DQUOTE]))
    content.

(** [/styleUrls:\s*(\[[\s\S]*?\])/gm] *)
Definition re_styleUrls : regex :=
  Seq (Lit (js "styleUrls:"))
 (Seq (Star true (Class is_space))
      (Group 1 (Seq (Lit (js "["))
               (Seq (Star false (Class any_char))
                    (Lit (js "]")))))).

Definition inlineStyle (fs : gmap str str) (content : str)
    (urlResolver : str -> result str) : result str :=
  replace re_styleUrls
    (fun m c =>
       let* styleUrls := group1 c in
       let* urls := eval styleUrls in
       let* quoted :=
         mapM (fun styleUrl =>
                 let* styleFile := urlResolver styleUrl in
                 let* styleContent := readFileSync fs styleFile in
                 let shortenedStyle := shorten styleContent in
                 Ok ([DQUOTE] ++ shortenedStyle ++ [DQUOTE])) urls in
       Ok (js "styles: [" ++ join (js "," ++ [LF]) quoted ++ js "]"))
    content.

(** [/\s*moduleId:\s*module\.id\s*,?\s*/gm] *)
Definition re_moduleId : regex :=
  Seq (Star true (Class is_space))
 (Seq (Lit (js "moduleId:"))
 (Seq (Star true (Class is_space))
 (Seq (Lit (js "module.id"))
 (Seq (Star true (Class is_space))
 (Seq (Opt true (Lit (js ",")))
      (Star true (Class is_space))))))).

Definition removeModuleId (content : str) : str :=
  replace_const re_moduleId [] content.

(** The three passes in order, each applied to the output of the one
    before ([reduce] over the array of functions). *)
Definition inlineResourcesFromString (fs : gmap str str) (content : str)
    (urlResolver : str -> result str) : result str :=
  foldl (fun acc fn => let* content := acc in fn content urlResolver)
    (Ok content)
    [inlineTemplate fs; inlineStyle fs;
     fun content _ => Ok (removeModuleId content)].

(** ** Node's [path] module (POSIX)

    The module belongs to Node, not to the repository; the functions
    below follow its documented algorithms on [/]-separated paths.
    [cwd] is the result of [process.cwd()]. *)

Module path.

Definition is_absolute (p : str) : bool :=
  match p with
  | c :: _ => N.eqb c 47
  | [] => false
  end.

(** The segments between the separators. *)
Fixpoint split (p : str) : list str :=
  match p with
  | [] => [[]]
  | c :: p' =>
      if N.eqb c 47 then [] :: split p'
      else match split p' with
           | seg :: segs => (c :: seg) :: segs
           | [] => [[c]]
           end
  end.

Definition str_eqb (a b : str) : bool := bool_decide (a = b).

(** normalizeString: [stack] holds the segments kept so far, the last
    one first. *)
Definition push_segment (allowAboveRoot : bool) (stack : list str)
    (seg : str) : list str :=
  if str_eqb seg [] || str_eqb seg (js ".") then stack
  else if str_eqb seg (js "..") then
    match stack with
    | top :: below =>
        if str_eqb top (js "..") then seg :: stack else below
    | [] => if allowAboveRoot then [seg] else []
    end
  else seg :: stack.

Definition normalize_segments (allowAboveRoot : bool) (p : str)
    : list str :=
  rev (foldl (push_segment allowAboveRoot) [] (split p)).

(** The arguments are taken from the right until an absolute one is
    met; [process.cwd()] comes after the leftmost. *)
Fixpoint pick (from_right : list str) (acc : str) : str * bool :=
  match from_right with
  | [] => (acc, false)
  | p :: rest =>
      if str_eqb p [] then pick rest acc
      else if is_absolute p then (p ++ [SLASH] ++ acc, true)
      else pick rest (p ++ [SLASH] ++ acc)
  end.

Definition resolve (cwd : str) (args : list str) : str :=
  let (resolvedPath, resolvedAbsolute) := pick (rev args ++ [cwd]) [] in
  let body :=
    join [SLASH] (normalize_segments (negb resolvedAbsolute) resolvedPath) in
  if resolvedAbsolute then SLASH :: body
  else if str_eqb body [] then js "." else body.

Definition normalize (p : str) : str :=
  if str_eqb p [] then js "."
  else
    let isAbsolute := is_absolute p in
    let trailingSeparator :=
      match last p with
      | Some c => N.eqb c 47
      | None => false
      end in
    let body := join [SLASH] (normalize_segments (negb isAbsolute) p) in
    if str_eqb body [] then
      if isAbsolute then [SLASH]
      else if trailingSeparator then js "./" else js "."
    else
      let body' := if trailingSeparator then body ++ [SLASH] else body in
      if isAbsolute then SLASH :: body' else body'.

Definition join_paths (args : list str) : str :=
  let present := List.filter (fun a => negb (str_eqb a [])) args in
  match present with
  | [] => js "."
  | _ => normalize (join [SLASH] present)
  end.

(** The part before the last separator that is followed by a
    component; the separator at index 0 is not looked at. *)
Definition dirname (p : str) : str :=
  match p with
  | [] => js "."
  | c0 :: t =>
      let hasRoot := N.eqb c0 47 in
      let after_trailing := drop_while (fun c => N.eqb c 47) (rev t) in
      let after_base :=
        drop_while (fun c => negb (N.eqb c 47)) after_trailing in
      match after_base with
      | [] => if hasRoot then [SLASH] else js "."
      | _ :: before =>
          match before with
          | [] => if hasRoot then js "//" else [c0]
          | _ => c0 :: rev before
          end
      end
  end.

Fixpoint drop_common (a b : list str) : list str * list str :=
  match a, b with
  | x :: a', y :: b' =>
      if str_eqb x y then drop_common a' b' else (a, b)
  | _, _ => (a, b)
  end.

Definition relative (cwd : str) (from to : str) : str :=
  let from' := resolve cwd [from] in
  let to' := resolve cwd [to] in
  let (up, down) := drop_common (normalize_segments false from')
                                (normalize_segments false to') in
  join [SLASH] (map (fun _ => js "..") up ++ down).

End path.

(** ** Configuration documents

    A [tsconfig] file is a JSON document.  Option values are JSON
    values; numbers are the integers. *)

Inductive jsval :=
| VNull
| VBool (b : bool)
| VNum (z : Z)
| VStr (s : str)
| VArr (l : list jsval)
| VObj (m : gmap str jsval).

(** ToBoolean, as [if (x)] and [x || y] apply it. *)
Definition truthy (v : jsval) : bool :=
  match v with
  | VNull => false
  | VBool b => b
  | VNum z => negb (Z.eqb z 0)
  | VStr s => negb (path.str_eqb s [])
  | VArr _ | VObj _ => true
  end.

(** The two properties of a document that [readTsconfig] reads.  An
    absent property is [None]; [compilerOptions] is an object when
    present. *)
Record tsconfig := {
  extends : option jsval;
  compilerOptions : option (gmap str jsval);
}.

(** ** The world outside the program

    [files] are the files on disk as text: the string that reading a
    file as UTF-8 gives, which is also what writing that string leaves
    in it for reading (the bytes are not modelled).  [configs] are the
    files that [require] loads to a document, without any effect, with
    that document; [unparseable] are the files on which loading throws a
    [SyntaxError], as a JSON file that does not parse.  [locked] are the
    paths that cannot be written.  [require_cache] is Node's module
    cache: it holds, by file name, the very objects that [require]
    returns.  [path_cache] holds the file name to which each request has
    been resolved.  [console] collects what is logged. *)
Record world := {
  files : gmap str str;
  configs : gmap str tsconfig;
  unparseable : gset str;
  locked : gset str;
  require_cache : gmap str tsconfig;
  path_cache : gmap str str;
  console : list error;
}.

Definition set_files (f : gmap str str) (w : world) : world :=
  {| files := f; configs := configs w; unparseable := unparseable w;
     locked := locked w; require_cache := require_cache w;
     path_cache := path_cache w; console := console w |}.

Definition set_require_cache (c : gmap str tsconfig) (w : world) : world :=
  {| files := files w; configs := configs w; unparseable := unparseable w;
     locked := locked w; require_cache := c;
     path_cache := path_cache w; console := console w |}.

Definition set_path_cache (c : gmap str str) (w : world) : world :=
  {| files := files w; configs := configs w; unparseable := unparseable w;
     locked := locked w; require_cache := require_cache w;
     path_cache := c; console := console w |}.

Definition console_error (e : error) (w : world) : world :=
  {| files := files w; configs := configs w; unparseable := unparseable w;
     locked := locked w; require_cache := require_cache w;
     path_cache := path_cache w; console := console w ++ [e] |}.

(** *** [require] of an absolute path

    The model follows the algorithm of Node's documentation for a
    request that is an absolute path, on a disk without symbolic links:
    the path is tried as a file, as it is and with the extensions [.js],
    [.json] and [.node] (LOAD_AS_FILE).  A request that only a directory
    answers (LOAD_AS_DIRECTORY: the [main] entry of a [package.json],
    the index files) is beyond the model, and so is the loading of a
    file that the world describes as text only: the model then answers
    [RequireBeyondModel].  [process.cwd()] plays no part for an absolute
    path, so the root stands for it below. *)

Definition is_file (w : world) (filename : str) : bool :=
  bool_decide (is_Some (configs w !! filename)) ||
  bool_decide (filename ∈ unparseable w) ||
  bool_decide (is_Some (files w !! filename)).

Definition with_extensions (base : str) : list str :=
  [base ++ js ".js"; base ++ js ".json"; base ++ js ".node"].

(** A request that ends in a separator, in [.] or in [..] names a
    directory. *)
Definition names_directory (request : str) : bool :=
  match rev request with
  | [] => false
  | c :: before =>
      N.eqb c 47 ||
      (N.eqb c 46 &&
       match before with
       | [] => true
       | c1 :: before1 =>
           N.eqb c1 47 ||
           (N.eqb c1 46 &&
            match before1 with
            | [] => true
            | c2 :: _ => N.eqb c2 47
            end)
       end)
  end.

(** The file names that [require] tries for a request, in order. *)
Definition candidates (request : str) : list str :=
  if names_directory request then []
  else
    let base := path.resolve [SLASH] [request] in
    base :: with_extensions base.

(** The files that make a directory answer a request. *)
Definition as_directory (request : str) : list str :=
  let base := path.resolve [SLASH] [request] in
  path.resolve [SLASH] [base; js "package.json"] ::
  with_extensions (path.resolve [SLASH] [base; js "index"]).

(** The file name of a request: the one that it was resolved to
    before, or else the first candidate that is a file. *)
Definition find_path (w : world) (request : str) : option str :=
  match path_cache w !! request with
  | Some filename => Some filename
  | None => List.find (is_file w) (candidates request)
  end.

(** What [require] throws on a request for which it finds no file. *)
Definition not_found (w : world) (request : str) : error :=
  if existsb (is_file w) (as_directory request)
  then RequireBeyondModel request
  else ModuleNotFound request.

(** What [require] throws on a file that is not loaded yet and that
    [configs] has no document for: the file does not parse, or holds
    something else than a document, or has gone since the request was
    resolved. *)
Definition load_error (w : world) (filename : str) : error :=
  if bool_decide (filename ∈ unparseable w) then SyntaxError
  else if bool_decide (is_Some (files w !! filename))
       then RequireBeyondModel filename
       else ENOENT filename.

(** [require(request)]: the request is resolved to a file name; the
    module cached for that file is returned if there is one, else the
    file is loaded and the document cached.  A request that resolves to
    no file throws, and so does a file that does not load. *)
Definition require (w : world) (request : str) : result tsconfig * world :=
  match find_path w request with
  | None => (Throw (not_found w request), w)
  | Some filename =>
      let w1 := set_path_cache (<[request := filename]> (path_cache w)) w in
      match require_cache w !! filename with
      | Some module => (Ok module, w1)
      | None =>
          match configs w !! filename with
          | Some document =>
              (Ok document,
               set_require_cache (<[filename := document]> (require_cache w)) w1)
          | None => (Throw (load_error w filename), w1)
          end
      end
  end.

(** An assignment to a property of the object that [require(request)]
    returned changes the module cached for the file of the request. *)
Definition store (request : str) (module : tsconfig) (w : world) : world :=
  match path_cache w !! request with
  | Some filename =>
      set_require_cache (<[filename := module]> (require_cache w)) w
  | None => w
  end.

(** [readFile] and [writeFile] are the promise versions of [fs.readFile]
    and [fs.writeFile]: a result is a settled promise, [Ok] when
    fulfilled and [Throw] when rejected.  [readFile] is called with
    ['utf-8'] and yields the text of the file; [writeFile] stores the
    text as UTF-8. *)
Definition readFile (w : world) (filePath : str) : result str :=
  readFileSync (files w) filePath.

Definition writeFile (w : world) (filePath content : str) : result world :=
  if bool_decide (filePath ∈ locked w) then Throw (EACCES filePath)
  else Ok (set_files (<[filePath := content]> (files w)) w).

(** ** Promises made from Node-style functions

    [readFile] and [writeFile] above are what [promiseify] makes of
    [fs.readFile] and [fs.writeFile].  [promiseify] itself is modelled
    here.  A promise is pending or settled; the functions [resolve] and
    [reject] that the promise constructor hands to its executor settle a
    pending promise and are without effect on a settled one. *)

Inductive promise (A : Type) :=
| Pending
| Fulfilled (value : A)
| Rejected (reason : error).
Arguments Pending {A}.
Arguments Fulfilled {A} value.
Arguments Rejected {A} reason.

Definition resolve_with {A} (value : A) (p : promise A) : promise A :=
  match p with
  | Pending => Fulfilled value
  | _ => p
  end.

Definition reject_with {A} (reason : error) (p : promise A) : promise A :=
  match p with
  | Pending => Rejected reason
  | _ => p
  end.

(** What a Node-style function does, as the callback that it was given
    and the executor see it, in the order of time: it calls the callback
    with [(err, value)], where [err] is [None] for [null], or it throws
    inside the executor. *)
Inductive event (A : Type) :=
| Calls_back (err : option error) (value : A)
| Throws (e : error).
Arguments Calls_back {A} err value.
Arguments Throws {A} e.

(** The callback of [promiseify]: [if (err) reject(err); else
    resolve(value)].  An exception in the executor rejects the
    promise. *)
Definition on_event {A} (p : promise A) (ev : event A) : promise A :=
  match ev with
  | Calls_back (Some err) _ => reject_with err p
  | Calls_back None value => resolve_with value p
  | Throws e => reject_with e p
  end.

(** [promiseify(fn)(args)]: [fn] is called with the arguments and the
    callback, and the promise is returned. *)
Definition promiseify {Args A} (fn : Args -> list (event A)) (args : Args)
    : promise A :=
  foldl on_event Pending (fn args).

(** [fs.readFile(path, 'utf-8', callback)] calls back once; the value
    that comes with an error is not looked at. *)
Definition fs_readFile (w : world) (filePath : str) : list (event str) :=
  match files w !! filePath with
  | Some content => [Calls_back None content]
  | None => [Calls_back (Some (ENOENT filePath)) []]
  end.

(** A settled promise, from the result that settles it. *)
Definition settled_as {A} (r : result A) : promise A :=
  match r with
  | Ok value => Fulfilled value
  | Throw e => Rejected e
  end.

Section Node.

(** The directory of the script, the working directory of the
    process, and [glob.sync] of the [glob] package, which lists the
    paths on disk that a pattern matches. *)
Variable __dirname : str.
Variable cwd : str.
Variable glob_sync : str -> gmap str str -> list str.

(** [tsConfigJson.compilerOptions[prop] = path.resolve(...)] when the
    property is truthy; [path.resolve] throws on a value that is not a
    string. *)
Definition resolve_prop (tsConfigDir : str) (options : gmap str jsval)
    (prop : str) : result (gmap str jsval) :=
  match options !! prop with
  | Some v =>
      if truthy v then
        match v with
        | VStr p =>
            Ok (<[prop := VStr (path.resolve cwd [tsConfigDir; p])]> options)
        | _ => Throw TypeError
        end
      else Ok options
  | None => Ok options
  end.

Definition with_options (doc : tsconfig) (options : gmap str jsval)
    : tsconfig :=
  {| extends := extends doc; compilerOptions := Some options |}.

(** The last part of [readTsconfig]: the [forEach] over
    ['outDir'] and ['rootDir'], each step writing to the module. *)
Definition resolve_dirs (key tsConfigDir : str) (doc : tsconfig)
    (options : gmap str jsval) (w : world) : result tsconfig * world :=
  match resolve_prop tsConfigDir options (js "outDir") with
  | Throw e => (Throw e, w)
  | Ok options1 =>
      let w1 := store key (with_options doc options1) w in
      match resolve_prop tsConfigDir options1 (js "rootDir") with
      | Throw e => (Throw e, w1)
      | Ok options2 =>
          (Ok (with_options doc options2),
           store key (with_options doc options2) w1)
      end
  end.

(** [readTsconfig].  [tsconfigPath] is an absolute path, as the source
    documents it and as [inlineResources] and the recursive call pass
    it.  [tsConfigJson] is the module object itself, so each assignment
    to it is a [store].  The options of the document are read before the
    recursive call here and after it in the source: they are the same,
    because a call that comes back to the same module finds it under a
    path of the same directory, goes round the cycle again and never
    returns.  [fuel] bounds the depth of the recursion along [extends],
    and running out of it is the overflow of the call stack. *)
Fixpoint readTsconfig (fuel : nat) (w : world) (tsconfigPath : str)
    : result tsconfig * world :=
  match fuel with
  | O => (Throw RangeError, w)
  | S fuel' =>
      let tsConfigDir := path.dirname tsconfigPath in
      let key := path.resolve cwd [__dirname; tsconfigPath] in
      match require w key with
      | (Throw e, w1) => (Throw e, w1)
      | (Ok tsConfigJson, w1) =>
          let own := default ∅ (compilerOptions tsConfigJson) in
          let w2 := store key (with_options tsConfigJson own) w1 in
          match extends tsConfigJson with
          | Some ext =>
              if truthy ext then
                match ext with
                | VStr ext_path =>
                    let parentPath :=
                      path.resolve cwd [tsConfigDir; ext_path] in
                    match readTsconfig fuel' w2 parentPath with
                    | (Throw e, w3) => (Throw e, w3)
                    | (Ok parentTsconfigJson, w3) =>
                        let merged :=
                          own ∪ default ∅ (compilerOptions parentTsconfigJson) in
                        let w4 :=
                          store key (with_options tsConfigJson merged) w3 in
                        resolve_dirs key tsConfigDir tsConfigJson merged w4
                    end
                | _ => (Throw TypeError, w2)
                end
              else resolve_dirs key tsConfigDir tsConfigJson own w2
          | None => resolve_dirs key tsConfigDir tsConfigJson own w2
          end
      end
  end.

(** A string-valued option, as [path.join] and [path.relative] need
    it: they throw on [undefined] and on any other value that is not a
    string. *)
Definition string_option (options : gmap str jsval) (prop : str)
    : result str :=
  match options !! prop with
  | Some (VStr p) => Ok p
  | _ => Throw TypeError
  end.

(** The resolver that [inlineResources] builds for one file. *)
Definition file_resolver (rootDir : result str) (outDir filePath : str)
    (url : str) : result str :=
  let relativePath := path.relative cwd outDir (path.dirname filePath) in
  let* rootDir := rootDir in
  Ok (path.join_paths [rootDir; relativePath; url]).

(** The promise chain of one file, before its [catch]:
    [readFile(...).then(inline).then(write)]. *)
Definition file_chain (rootDir : result str) (outDir : str) (w : world)
    (filePath : str) : result world :=
  let* content := readFile w filePath in
  let* content :=
    inlineResourcesFromString (files w) content
      (file_resolver rootDir outDir filePath) in
  writeFile w filePath content.

(** The chain with its [catch]: a rejection is logged, and the promise
    of the unit is fulfilled either way. *)
Definition unit_of_work (rootDir : result str) (outDir : str) (w : world)
    (filePath : str) : result unit * world :=
  match file_chain rootDir outDir w filePath with
  | Ok w' => (Ok tt, w')
  | Throw err => (Ok tt, console_error err w)
  end.

(** [Promise.all] over the units of work: the promise is rejected with
    the first rejection, if any.  The units share nothing but the file
    system, where each writes its own file only; they are run here one
    after the other in the order of the list, which [glob] makes of
    distinct paths. *)
Fixpoint promise_all (f : world -> str -> result unit * world)
    (w : world) (l : list str) : result unit * world :=
  match l with
  | [] => (Ok tt, w)
  | filePath :: l' =>
      let (p, w1) := f w filePath in
      let (ps, w2) := promise_all f w1 l' in
      (let* _ := p in ps, w2)
  end.

(** [inlineResources]: [Throw] is an exception thrown before any
    promise exists; [Ok p] is the returned promise, settled as [p]. *)
Definition inlineResources (fuel : nat) (w : world) (tsconfigPath : str)
    : result (result unit) * world :=
  match readTsconfig fuel w (path.resolve cwd [__dirname; tsconfigPath]) with
  | (Throw e, w1) => (Throw e, w1)
  | (Ok tsconfigJson, w1) =>
      let options := default ∅ (compilerOptions tsconfigJson) in
      let rootDir := string_option options (js "rootDir") in
      match string_option options (js "outDir") with
      | Throw e => (Throw e, w1)
      | Ok outDir =>
          let filesGlob := path.join_paths [outDir; js "**"; js "*.js"] in
          let files_ := glob_sync filesGlob (files w1) in
          let (p, w2) := promise_all (unit_of_work rootDir outDir) w1 files_ in
          (Ok p, w2)
      end
  end.

End Node.

(** * Notions used in the statements *)

(** The suffixes of a string, the positions at which a scan may try the
    expression. *)
Fixpoint tails (s : str) : list str :=
  s :: match s with
       | [] => []
       | _ :: s' => tails s'
       end.

(** Does the expression match at some position of [s]? *)
Definition has_match (r : regex) (s : str) : bool :=
  existsb (fun t => bool_decide (is_Some (match_here r t))) (tails s).

(** Does [s] begin with [l]? *)
Definition is_prefix (l s : str) : bool :=
  match strip_prefix l s with
  | Some _ => true
  | None => false
  end.

(** Does [l] occur somewhere in [s]? *)
Definition occurs (l s : str) : bool := existsb (is_prefix l) (tails s).

(** No end of [l], other than [l] itself, is also a beginning of [l]:
    two occurrences of such a literal never overlap. *)
Definition border_free (l : str) : bool :=
  match l with
  | [] => true
  | _ :: l' =>
      forallb (fun t => match t with
                        | [] => true
                        | _ :: _ => negb (is_prefix t l)
                        end) (tails l')
  end.

(** Is the last code unit of [s] white space? *)
Definition ends_with_space (s : str) : bool :=
  match last s with
  | Some x => is_space x
  | None => false
  end.

(** What [shorten] does, without regular expressions: a line break and
    the white space after it become one blank ([skipping] is set while
    that white space is passed over), and a backslash is put in front of
    every double quote. *)
Fixpoint collapse_breaks (skipping : bool) (s : str) : str :=
  match s with
  | [] => []
  | x :: s' =>
      if skipping && is_space x then collapse_breaks true s'
      else if is_break x then SP :: collapse_breaks true s'
      else x :: collapse_breaks false s'
  end.

Definition escape_quotes (s : str) : str :=
  flat_map (fun x => if N.eqb x 34 then [BACKSLASH; DQUOTE] else [x]) s.

(** Is every double quote of [s] behind a backslash?  [after_backslash]
    tells whether the code unit before [s] is one. *)
Fixpoint quotes_escaped (after_backslash : bool) (s : str) : bool :=
  match s with
  | [] => true
  | x :: s' =>
      (if N.eqb x 34 then after_backslash else true) &&
      quotes_escaped (N.eqb x 92) s'
  end.

(** The normalization as the specification words it: every run of
    white space that contains a line break, wherever in the run, becomes
    one blank.  [run_has_break s] looks ahead in the white space at the
    start of [s]; [in_run] is [Some b] inside a run, [b] telling whether
    the run is being replaced. *)
Fixpoint run_has_break (s : str) : bool :=
  match s with
  | [] => false
  | x :: s' => is_space x && (is_break x || run_has_break s')
  end.

Fixpoint collapse_runs (in_run : option bool) (s : str) : str :=
  match s with
  | [] => []
  | x :: s' =>
      if is_space x then
        match in_run with
        | Some true => collapse_runs (Some true) s'
        | Some false => x :: collapse_runs (Some false) s'
        | None =>
            if run_has_break s then SP :: collapse_runs (Some true) s'
            else x :: collapse_runs (Some false) s'
        end
      else x :: collapse_runs None s'
  end.

(** One occurrence of the marker [moduleId: module.id] with what the
    expression of [removeModuleId] takes along: the white space before
    it, inside it and after it, and the comma with the white space that
    follows it, if there is one. *)
Record marker := {
  lead : str;
  gap : str;
  trail : str;
  comma : option str;
}.

Definition marker_text (m : marker) : str :=
  lead m ++ js "moduleId:" ++ gap m ++ js "module.id" ++ trail m ++
  match comma m with
  | Some w => [COMMA] ++ w
  | None => []
  end.

Definition marker_ok (m : marker) : bool :=
  forallb is_space (lead m) && forallb is_space (gap m) &&
  forallb is_space (trail m) &&
  match comma m with
  | Some w => forallb is_space w
  | None => true
  end.

(** Text that does not extend the match when it comes after the
    marker: it does not begin with white space, nor with a comma when
    the marker has none. *)
Definition may_follow (m : marker) (post : str) : bool :=
  match post with
  | [] => true
  | x :: _ =>
      negb (is_space x) &&
      match comma m with
      | Some _ => true
      | None => negb (N.eqb x 44)
      end
  end.

(** Content made of pieces of text, each followed by a marker, and a
    last piece. *)
Fixpoint assemble (segments : list (str * marker)) (last_ : str) : str :=
  match segments with
  | [] => last_
  | (pre, m) :: segments' => pre ++ marker_text m ++ assemble segments' last_
  end.

(** Pieces of text that are free of [moduleId:] and do not end in white
    space, with markers that take all that they can. *)
Fixpoint well_placed (segments : list (str * marker)) (last_ : str) : bool :=
  match segments with
  | [] => true
  | (pre, m) :: segments' =>
      negb (occurs (js "moduleId:") pre) && negb (ends_with_space pre) &&
      marker_ok m && may_follow m (assemble segments' last_) &&
      well_placed segments' last_
  end.

(** The document that loading a file gives: the cached module, or
    else the document in the file. *)
Definition doc_at (w : world) (filename : str) : option tsconfig :=
  match require_cache w !! filename with
  | Some module => Some module
  | None => configs w !! filename
  end.

(** The document that [require] returns for a request: that of the
    file that the request resolves to. *)
Definition lookup_doc (w : world) (request : str) : option tsconfig :=
  match find_path w request with
  | Some filename => doc_at w filename
  | None => None
  end.

(** The exception that [require] throws on a request, if it throws:
    none of the file names that it tries is a file (and the request has
    not been resolved in the process before); or the file of the
    request is not loaded yet and does not load. *)
Definition require_error (w : world) (request : str) : option error :=
  match find_path w request with
  | None => Some (not_found w request)
  | Some filename =>
      match doc_at w filename with
      | Some _ => None
      | None => Some (load_error w filename)
      end
  end.

(** The module that the caches hold for a request. *)
Definition cached_module (w : world) (request : str) : option tsconfig :=
  match path_cache w !! request with
  | Some filename => require_cache w !! filename
  | None => None
  end.

(** [follow __dirname cwd w n p]: the configuration path reached from
    [p] by following [extends] [n] times. *)
Fixpoint follow (__dirname cwd : str) (w : world) (n : nat) (p : str)
    : option str :=
  match n with
  | O => Some p
  | S n' =>
      match lookup_doc w (path.resolve cwd [__dirname; p]) with
      | Some doc =>
          match extends doc with
          | Some (VStr e) =>
              if truthy (VStr e)
              then follow __dirname cwd w n'
                     (path.resolve cwd [path.dirname p; e])
              else None
          | _ => None
          end
      | None => None
      end
  end.

(** The disk with other configuration files. *)
Definition set_configs (c : gmap str tsconfig) (w : world) : world :=
  {| files := files w; configs := c; unparseable := unparseable w;
     locked := locked w; require_cache := require_cache w;
     path_cache := path_cache w; console := console w |}.

(** The value of option [k] after the last step of [readTsconfig], given
    its value [v] before: the two directory options, when they hold a
    non-empty string, are resolved against the directory of the
    document. *)
Definition is_dir_option (k : str) : bool :=
  path.str_eqb k (js "outDir") || path.str_eqb k (js "rootDir").

Definition resolved_option (cwd tsConfigDir k : str) (v : option jsval)
    : option jsval :=
  match v with
  | Some (VStr p) =>
      if is_dir_option k && truthy (VStr p)
      then Some (VStr (path.resolve cwd [tsConfigDir; p]))
      else v
  | _ => v
  end.

(** The caches of [w'] hold what those of [w] hold: the same file name
    for a request, and for a file name a module with the same
    [extends]. *)
Definition cache_grows (w w' : world) : Prop :=
  (forall request filename,
     path_cache w !! request = Some filename ->
     path_cache w' !! request = Some filename) /\
  (forall filename module,
     require_cache w !! filename = Some module ->
     exists module',
       require_cache w' !! filename = Some module' /\
       extends module' = extends module).

(** [warm __dirname cwd w n p]: the chain of [extends] that starts at
    [p] is in the caches down to its end, which it reaches after [n]
    links at most. *)
Fixpoint warm (__dirname cwd : str) (w : world) (n : nat) (p : str) : bool :=
  match cached_module w (path.resolve cwd [__dirname; p]) with
  | None => false
  | Some doc =>
      match extends doc with
      | Some (VStr e) =>
          if truthy (VStr e) then
            match n with
            | O => false
            | S n' => warm __dirname cwd w n' (path.resolve cwd [path.dirname p; e])
            end
          else true
      | _ => true
      end
  end.

(** [disk'] differs from the disk of [w] at cached file names only. *)
Definition agree (w : world) (disk' : gmap str tsconfig) : Prop :=
  forall k, require_cache w !! k = None -> disk' !! k = configs w !! k.


(** The value of option [k] in the outcome of a resolution. *)
Definition resolved (r : result tsconfig * world) (k : str) : option jsval :=
  match fst r with
  | Ok cfg => default ∅ (compilerOptions cfg) !! k
  | Throw _ => None
  end.








(** No match of [r] starts inside [pre] when [rest] comes after it. *)
Definition quiet (r : regex) (pre rest : str) : bool :=
  forallb (fun t => match t with
                    | [] => true
                    | _ :: _ => negb (bool_decide (is_Some (match_here r (t ++ rest))))
                    end) (tails pre).

(** The way [removeModuleId] cuts content: no match starts inside a
    piece of text, each marker is taken with all the white space around
    it and with the comma that follows it, and no match is left in the
    last piece. *)
Fixpoint well_cut (segments : list (str * marker)) (last_ : str) : bool :=
  match segments with
  | [] => negb (has_match re_moduleId last_)
  | (pre, m) :: segments' =>
      quiet re_moduleId pre (marker_text m ++ assemble segments' last_) &&
      marker_ok m && may_follow m (assemble segments' last_) &&
      well_cut segments' last_
  end.

(** Is [p] a non-empty name followed by [.html]? *)
Definition ends_html (p : str) : bool :=
  is_prefix (rev (js ".html")) (rev p) && Nat.ltb 5 (length p).

(** Literal strings are turned into lists of code units on demand. *)
Ltac js_eval :=
  repeat match goal with
         | |- context [js ?l] =>
             let v := eval vm_compute in (js l) in change (js l) with v
         end.

Ltac js_eval_in H :=
  repeat match type of H with
         | context [js ?l] =>
             let v := eval vm_compute in (js l) in change (js l) with v in H
         end.

(** ** Paths in normal form *)

(** A path component: not empty, without separator, and neither [.]
    nor [..]. *)
Definition no_slash (seg : str) : bool :=
  forallb (fun c => negb (N.eqb c 47)) seg.

Definition is_name (seg : str) : bool :=
  negb (path.str_eqb seg []) && no_slash seg &&
  negb (path.str_eqb seg (js ".")) && negb (path.str_eqb seg (js "..")).

(** A component of a URL: a name or [.]. *)
Definition is_name_or_dot (seg : str) : bool :=
  is_name seg || path.str_eqb seg (js ".").

(** What normalization skips: the empty component and [.]. *)
Definition is_skipped (seg : str) : bool :=
  path.str_eqb seg [] || path.str_eqb seg (js ".").

(** The absolute path with these components. *)
Definition absolute (segs : list str) : str := SLASH :: join [SLASH] segs.

(** A path made of names, empty components and [.], and its names. *)
Definition plain (p : str) : bool :=
  forallb (fun seg => is_name seg || is_skipped seg) (path.split p).

Definition names (p : str) : list str := List.filter is_name (path.split p).

(** An absolute path in normal form: the root followed by names. *)
Definition normal_absolute (p : str) : bool :=
  match p with
  | c :: t => N.eqb c 47 && (path.str_eqb t [] || forallb is_name (path.split t))
  | [] => false
  end.

(** ** Options and documents *)

(** A directory option as [readTsconfig] leaves it: absent, falsy, or
    an absolute path in normal form. *)
Definition resolved_dir (v : option jsval) : bool :=
  match v with
  | Some (VStr q) => path.str_eqb q [] || normal_absolute q
  | Some v => negb (truthy v)
  | None => true
  end.

(** A directory option that [path.resolve] is not called on or
    accepts: absent, falsy, or a string. *)
Definition path_or_falsy (v : option jsval) : bool :=
  match v with
  | Some (VStr _) => true
  | Some v => negb (truthy v)
  | None => true
  end.

(** Is the option a string? *)
Definition is_string (v : option jsval) : bool :=
  match v with
  | Some (VStr _) => true
  | _ => false
  end.

(** A document that does not extend another: [extends] is absent or
    falsy. *)
Definition extends_nothing (doc : tsconfig) : bool :=
  match extends doc with
  | Some v => negb (truthy v)
  | None => true
  end.

(** [well_formed __dirname cwd w n p]: the chain of [extends] that
    starts at [p] has [n] links and ends in a document that extends
    nothing; every document of the chain can be loaded, and its
    directory options, where it declares them, are strings or falsy. *)
Fixpoint well_formed (__dirname cwd : str) (w : world) (n : nat) (p : str)
    : bool :=
  match lookup_doc w (path.resolve cwd [__dirname; p]) with
  | None => false
  | Some doc =>
      let own := default ∅ (compilerOptions doc) in
      path_or_falsy (own !! js "outDir") &&
      path_or_falsy (own !! js "rootDir") &&
      match n with
      | O => extends_nothing doc
      | S n' =>
          match extends doc with
          | Some (VStr e) =>
              truthy (VStr e) &&
              well_formed __dirname cwd w n' (path.resolve cwd [path.dirname p; e])
          | _ => false
          end
      end
  end.

(** Two worlds in which [require] finds documents with the same
    [extends] and the same options. *)
Definition same_docs (w w' : world) : Prop :=
  forall k,
    match lookup_doc w k, lookup_doc w' k with
    | Some d, Some d' =>
        extends d = extends d' /\
        default ∅ (compilerOptions d) = default ∅ (compilerOptions d')
    | None, None => True
    | _, _ => False
    end.

(** ** Compiled files and resource content *)

(** A compiled file that needs no change: it exists, it can be written,
    and none of the three expressions matches in it. *)
Definition settled (w : world) (filePath : str) : bool :=
  match files w !! filePath with
  | Some content =>
      negb (has_match re_templateUrl content) &&
      negb (has_match re_styleUrls content) &&
      negb (has_match re_moduleId content) &&
      negb (bool_decide (filePath ∈ locked w))
  | None => false
  end.

(** What the unit of work of a file leaves in that file. *)
Definition outcome (cwd : str) (rootDir : result str) (outDir : str)
    (w : world) (filePath : str) : option str :=
  files (snd (unit_of_work cwd rootDir outDir w filePath)) !! filePath.

(** Has a run stayed within the model?  The model answers
    [EvalBeyondModel] on text that its [eval] does not cover and
    [RequireBeyondModel] on a request that its [require] does not cover;
    what the program does then is not described.  A run has stayed
    within the model when it has neither thrown nor logged such an
    answer. *)
Definition beyond_model (e : error) : bool :=
  match e with
  | EvalBeyondModel _ | RequireBeyondModel _ => true
  | _ => false
  end.

Definition within_model {A} (run : result A * world) : bool :=
  match fst run with
  | Throw e => negb (beyond_model e)
  | Ok _ => true
  end &&
  forallb (fun e => negb (beyond_model e)) (console (snd run)).

(** Is the code unit neither a line break nor a double quote? *)
Definition is_inert (x : char) : bool := negb (is_break x) && negb (N.eqb x 34).

(** * Worlds used as examples *)

(** The example of the claim: a child that declares only [outDir] over a
    base that declares [rootDir] and [outDir]. *)
Definition example_child : tsconfig :=
  {| extends := Some (VStr (js "../base.json"));
     compilerOptions := Some {[ js "outDir" := VStr (js "dist") ]} |}.

Definition example_base : tsconfig :=
  {| extends := None;
     compilerOptions :=
       Some {[ js "rootDir" := VStr (js "src"); js "outDir" := VStr (js "out") ]} |}.

Definition example_world : world :=
  {| files := ∅;
     configs := {[ js "/proj/app/tsconfig.json" := example_child;
                   js "/proj/base.json" := example_base ]};
     unparseable := ∅; locked := ∅; require_cache := ∅;
     path_cache := ∅; console := [] |}.

(** A child that declares [target], an option other than [rootDir] and
    [outDir], over a base that declares it too: the child's value
    wins. *)
Definition target_child : tsconfig :=
  {| extends := Some (VStr (js "./base.json"));
     compilerOptions := Some {[ js "target" := VStr (js "es5") ]} |}.

Definition target_base : tsconfig :=
  {| extends := None;
     compilerOptions := Some {[ js "target" := VStr (js "es2015") ]} |}.

Definition target_world : world :=
  {| files := ∅;
     configs := {[ js "/proj/tsconfig.json" := target_child;
                   js "/proj/base.json" := target_base ]};
     unparseable := ∅; locked := ∅; require_cache := ∅;
     path_cache := ∅; console := [] |}.


(** Two compiled files; the template of the first does not exist. *)
Definition two_files_world : world :=
  {| files := {[ js "/proj/dist/bad.js" := js "templateUrl: 'gone.html'";
                 js "/proj/dist/good.js" := js "templateUrl: 'a.html'";
                 js "/proj/src/a.html" := js "<b>Hi</b>" ]};
     configs := {[ js "/proj/tsconfig.json" :=
                     {| extends := None;
                        compilerOptions :=
                          Some {[ js "rootDir" := VStr (js "src");
                                  js "outDir" := VStr (js "dist") ]} |} ]};
     unparseable := ∅; locked := ∅; require_cache := ∅;
     path_cache := ∅; console := [] |}.

(** A configuration whose [outDir] is [dist] when it is first resolved
    and [build] on disk afterwards. *)
Definition outDir_config (dir : string) : tsconfig :=
  {| extends := None;
     compilerOptions := Some {[ js "outDir" := VStr (js dir) ]} |}.

Definition first_disk : gmap str tsconfig :=
  {[ js "/proj/tsconfig.json" := outDir_config "dist" ]}.

Definition second_disk : gmap str tsconfig :=
  {[ js "/proj/tsconfig.json" := outDir_config "build" ]}.

Definition fresh_world (disk : gmap str tsconfig) : world :=
  {| files := ∅; configs := disk; unparseable := ∅; locked := ∅;
     require_cache := ∅; path_cache := ∅; console := [] |}.

Definition after_first_resolution : world :=
  snd (readTsconfig (js "/tool") (js "/") 2 (fresh_world first_disk)
         (js "/proj/tsconfig.json")).



(** Two configurations that extend each other. *)
Definition cyclic_world : world :=
  {| files := ∅;
     configs := {[ js "/proj/a.json" :=
                     {| extends := Some (VStr (js "./b.json"));
                        compilerOptions := None |};
                   js "/proj/b.json" :=
                     {| extends := Some (VStr (js "./a.json"));
                        compilerOptions := None |} ]};
     unparseable := ∅; locked := ∅; require_cache := ∅;
     path_cache := ∅; console := [] |}.

(** Two compiled files that have been inlined already. *)
Definition settled_world : world :=
  {| files := {[ js "/proj/dist/a.js" := js "template: 'x'";
                 js "/proj/dist/b.js" := js "styles: []" ]};
     configs := {[ js "/proj/tsconfig.json" :=
                     {| extends := None;
                        compilerOptions :=
                          Some {[ js "rootDir" := VStr (js "src");
                                  js "outDir" := VStr (js "dist") ]} |} ]};
     unparseable := ∅; locked := ∅; require_cache := ∅;
     path_cache := ∅; console := [] |}.

(** A configuration without [outDir], and a compiled file that holds
    a marker only. *)
Definition no_outDir_world : world :=
  {| files := {[ js "/proj/dist/a.js" := js "moduleId: module.id" ]};
     configs := {[ js "/proj/tsconfig.json" :=
                     {| extends := None;
                        compilerOptions :=
                          Some {[ js "rootDir" := VStr (js "src") ]} |} ]};
     unparseable := ∅; locked := ∅; require_cache := ∅;
     path_cache := ∅; console := [] |}.

(** A configuration whose [extends] is an array. *)
Definition array_extends_world : world :=
  {| files := ∅;
     configs := {[ js "/proj/tsconfig.json" :=
                     {| extends := Some (VArr [VStr (js "./a.json");
                                               VStr (js "./b.json")]);
                        compilerOptions := None |};
                   js "/proj/a.json" :=
                     {| extends := None; compilerOptions := None |};
                   js "/proj/b.json" :=
                     {| extends := None; compilerOptions := None |} ]};
     unparseable := ∅; locked := ∅; require_cache := ∅;
     path_cache := ∅; console := [] |}.

(** * The model on results that JavaScript and Node document *)

(** ['abc'.replace(/x*/g, '-')] is ['-a-b-c-']: an empty match at every
    position, the end included. *)
Example replace_empty_matches :
  replace_const (Star true (Lit (js "x"))) (js "-") (js "abc") = js "-a-b-c-".
Proof. vm_compute. reflexivity. Qed.

(** ['baaac'.replace(/a*/g, 'X')] is ['XbXXcX']. *)
Example replace_greedy_then_empty :
  replace_const (Star true (Lit (js "a"))) (js "X") (js "baaac") = js "XbXXcX".
Proof. vm_compute. reflexivity. Qed.

(** ['aaa'.replace(/a+/g, 'X')] is ['X'] and ['aaa'.replace(/a+?/g, 'X')]
    is ['XXX']. *)
Example replace_greedy_lazy :
  replace_const (Plus true (Lit (js "a"))) (js "X") (js "aaa") = js "X" /\
  replace_const (Plus false (Lit (js "a"))) (js "X") (js "aaa") = js "XXX".
Proof. vm_compute. split; reflexivity. Qed.

(** [/(a+)b?/] on ['aab']: the group captures ['aa']. *)
Example match_captures :
  match_here (Seq (Group 1 (Plus true (Lit (js "a")))) (Opt true (Lit (js "b"))))
    (js "aabc") = Some (js "c", [(1, js "aa")]).
Proof. vm_compute. reflexivity. Qed.

(** The examples of the documentation of [path]. *)
Example path_resolve_examples :
  path.resolve (js "/home") [js "/foo/bar"; js "./baz"] = js "/foo/bar/baz" /\
  path.resolve (js "/home") [js "/foo/bar"; js "/tmp/file/"] = js "/tmp/file" /\
  path.resolve (js "/home/myself/node")
    [js "wwwroot"; js "static_files/png/"; js "../gif/image.gif"] =
  js "/home/myself/node/wwwroot/static_files/gif/image.gif".
Proof. vm_compute. repeat split; reflexivity. Qed.

Example path_dirname_example :
  path.dirname (js "/foo/bar/baz/asdf/quux") = js "/foo/bar/baz/asdf".
Proof. vm_compute. reflexivity. Qed.

Example path_join_example :
  path.join_paths [js "/foo"; js "bar"; js "baz/asdf"; js "quux"; js ".."] =
  js "/foo/bar/baz/asdf".
Proof. vm_compute. reflexivity. Qed.

Example path_relative_example :
  path.relative (js "/home") (js "/data/orandea/test/aaa")
    (js "/data/orandea/impl/bbb") = js "../../impl/bbb".
Proof. vm_compute. reflexivity. Qed.

(** The whole pipeline on a component. *)
Example inlineResourcesFromString_example :
  inlineResourcesFromString
    {[ js "/src/app.html" := js "<h1>" ++ [LF] ++ js "  Hi" ++ [LF] ++ js "</h1>";
       js "/src/app.css" := js "h1 { color: red; }" ]}
    (js "Component({" ++ [LF] ++
     js "  moduleId: module.id," ++ [LF] ++
     js "  templateUrl: './app.html'," ++ [LF] ++
     js "  styleUrls: ['./app.css']" ++ [LF] ++
     js "})")
    (fun url => Ok (path.join_paths [js "/src"; js ""; url])) =
  Ok (js "Component({template: " ++ [DQUOTE] ++ js "<h1> Hi </h1>" ++ [DQUOTE] ++
      js "," ++ [LF] ++
      js "  styles: [" ++ [DQUOTE] ++ js "h1 { color: red; }" ++ [DQUOTE] ++
      js "]" ++ [LF] ++ js "})").
Proof. vm_compute. reflexivity. Qed.

(** * Properties of the matcher *)

Section Matcher.

Implicit Types (s t l w : str) (c : captures) (k : cont) (p : char -> bool).

Lemma clear_nil c : clear [] c = c.
Proof.
  induction c as [|e c IH]; [reflexivity|].
  unfold clear in *. cbn. f_equal. exact IH.
Qed.

Lemma strip_prefix_app l s : strip_prefix l (l ++ s) = Some s.
Proof.
  induction l as [|a l IH]; [reflexivity|].
  simpl. unfold char_eqb. now rewrite N.eqb_refl.
Qed.

Lemma strip_prefix_Some l s t : strip_prefix l s = Some t -> s = l ++ t.
Proof.
  revert s. induction l as [|a l IH]; intros s H.
  - simpl in H. now inversion H.
  - destruct s as [|b s]; [discriminate|]. simpl in H.
    unfold char_eqb in H. destruct (N.eqb_spec a b) as [->|]; [|discriminate].
    simpl. f_equal. now apply IH.
Qed.

Lemma mt_lit_app l s c k : mt (Lit l) (l ++ s) c k = k s c.
Proof. simpl. now rewrite strip_prefix_app. Qed.

Lemma mt_lit_inv l s c k r :
  mt (Lit l) s c k = Some r -> exists s', s = l ++ s' /\ k s' c = Some r.
Proof.
  simpl. destruct (strip_prefix l s) as [s'|] eqn:E; [|discriminate].
  intros H. exists s'. split; [now apply strip_prefix_Some|exact H].
Qed.

Lemma mt_seq r1 r2 s c k :
  mt (Seq r1 r2) s c k = mt r1 s c (fun s1 c1 => mt r2 s1 c1 k).
Proof. reflexivity. Qed.

Lemma mt_group i r s c k :
  mt (Group i r) s c k =
  mt r s c (fun s1 c1 => k s1 ((i, take (length s - length s1) s) :: c1)).
Proof. reflexivity. Qed.

Lemma mt_plus g r s c k :
  mt (Plus g r) s c k =
  mt r s (clear (groups r) c)
    (fun s1 c1 =>
       repeat_matcher (mt r) (groups r) g (S (length s1)) s1 c1 k).
Proof. reflexivity. Qed.

Lemma mt_opt g r s c k :
  mt (Opt g r) s c k =
  let once :=
    mt r s (clear (groups r) c)
      (fun s1 c1 =>
         if Nat.ltb (length s1) (length s) then k s1 c1 else None) in
  if g then orelse once (k s c) else orelse (k s c) once.
Proof. reflexivity. Qed.

Lemma mt_class_cons p x s c k :
  mt (Class p) (x :: s) c k = if p x then k s c else None.
Proof. reflexivity. Qed.

Lemma mt_class_stop p s c k :
  match s with [] => true | x :: _ => negb (p x) end = true ->
  mt (Class p) s c k = None.
Proof.
  destruct s as [|x s]; [reflexivity|].
  intros H. apply negb_true_iff in H. rewrite mt_class_cons. now rewrite H.
Qed.

Lemma mt_lit_stop l s c k :
  strip_prefix l s = None -> mt (Lit l) s c k = None.
Proof. intros H. cbn [mt]. now rewrite H. Qed.

Lemma mt_star_eq g r s c k :
  mt (Star g r) s c k =
  repeat_matcher (mt r) (groups r) g (S (length s)) s c k.
Proof. reflexivity. Qed.

Lemma repeat_matcher_S m gs g n s c k :
  repeat_matcher m gs g (S n) s c k =
  let again :=
    m s (clear gs c)
      (fun s1 c1 =>
         if Nat.ltb (length s1) (length s)
         then repeat_matcher m gs g n s1 c1 k
         else None) in
  if g then orelse again (k s c) else orelse (k s c) again.
Proof. reflexivity. Qed.

Lemma orelse_None_r a : orelse a None = a.
Proof. now destruct a. Qed.

Lemma orelse_None_l a : orelse None a = a.
Proof. reflexivity. Qed.

Lemma orelse_Some_l x a : orelse (Some x) a = Some x.
Proof. reflexivity. Qed.

(** One step of a quantified character class. *)
Lemma star_class_cons p g x s c k :
  p x = true ->
  mt (Star g (Class p)) (x :: s) c k =
  if g then orelse (mt (Star g (Class p)) s c k) (k (x :: s) c)
  else orelse (k (x :: s) c) (mt (Star g (Class p)) s c k).
Proof.
  intros Hp.
  rewrite (mt_star_eq g (Class p) (x :: s)), repeat_matcher_S.
  change (groups (Class p)) with (@nil nat). rewrite clear_nil.
  change (mt (Class p) (x :: s) c) with
    (fun k' : cont => if p x then k' s c else None).
  cbv beta zeta. rewrite Hp.
  replace (length s <? length (x :: s))%nat with true
    by (symmetry; apply Nat.ltb_lt; simpl; lia).
  reflexivity.
Qed.

Lemma star_class_stop p g s c k :
  match s with [] => true | x :: _ => negb (p x) end = true ->
  mt (Star g (Class p)) s c k = k s c.
Proof.
  intros H. rewrite mt_star_eq, repeat_matcher_S.
  assert (forall k', mt (Class p) s (clear (groups (Class p)) c) k' = None)
    as ->.
  { intros k'. destruct s as [|x s]; [reflexivity|].
    apply negb_true_iff in H. simpl. now rewrite H. }
  cbv zeta. destruct g; simpl; [reflexivity|]. apply orelse_None_r.
Qed.

Lemma drop_while_stops p s :
  match drop_while p s with [] => true | x :: _ => negb (p x) end = true.
Proof.
  induction s as [|x s IH]; [reflexivity|].
  simpl. destruct (p x) eqn:E; [exact IH|]. simpl. now rewrite E.
Qed.

Lemma drop_while_app p w s :
  forallb p w = true ->
  match s with [] => true | x :: _ => negb (p x) end = true ->
  drop_while p (w ++ s) = s.
Proof.
  intros Hw Hs. induction w as [|x w IH]; simpl in *.
  - destruct s as [|y s]; [reflexivity|].
    simpl. apply negb_true_iff in Hs. now rewrite Hs.
  - apply andb_true_iff in Hw as [Hx Hw]. rewrite Hx. now apply IH.
Qed.

Lemma drop_while_split p s :
  exists w, s = w ++ drop_while p s /\ forallb p w = true.
Proof.
  induction s as [|x s (w & E & Hw)]; [now exists []|].
  simpl. destruct (p x) eqn:Hx.
  - exists (x :: w). simpl. rewrite Hx, Hw. split; [now f_equal|reflexivity].
  - now exists [].
Qed.

(** A greedy class quantifier takes the longest run when the rest of
    the expression matches after it. *)
Lemma star_greedy_longest p s c k r :
  k (drop_while p s) c = Some r ->
  mt (Star true (Class p)) s c k = Some r.
Proof.
  induction s as [|x s IH]; intros H.
  - now rewrite star_class_stop.
  - cbn [drop_while] in H. destruct (p x) eqn:Hx.
    + rewrite star_class_cons by exact Hx. now rewrite IH.
    + rewrite star_class_stop; [exact H|]. now rewrite Hx.
Qed.

(** Whatever the quantifier, a match goes through some run of the
    class. *)
Lemma star_class_inv p g s c k r :
  mt (Star g (Class p)) s c k = Some r ->
  exists w s', s = w ++ s' /\ forallb p w = true /\ k s' c = Some r.
Proof.
  induction s as [|x s IH]; intros H.
  - rewrite star_class_stop in H by reflexivity. now exists [], [].
  - destruct (p x) eqn:Hx.
    + rewrite star_class_cons in H by exact Hx.
      assert (mt (Star g (Class p)) s c k = Some r \/ k (x :: s) c = Some r)
        as [H1|H1].
      { destruct g; unfold orelse in H.
        - destruct (mt (Star true (Class p)) s c k); [left|right]; assumption.
        - destruct (k (x :: s) c); [right|left]; assumption. }
      * destruct (IH H1) as (w & s' & -> & Hw & Hk).
        exists (x :: w), s'. simpl. now rewrite Hx, Hw.
      * now exists [], (x :: s).
    + rewrite star_class_stop in H by (now rewrite Hx).
      now exists [], (x :: s).
Qed.

(** A lazy class quantifier stops at the first place where the rest of
    the expression matches. *)
Lemma star_lazy_first p a b c k r :
  forallb p a = true ->
  (forall a1 a2, a = a1 ++ a2 -> a2 <> [] -> k (a2 ++ b) c = None) ->
  k b c = Some r ->
  mt (Star false (Class p)) (a ++ b) c k = Some r.
Proof.
  induction a as [|x a IH]; intros Ha Hfail Hk.
  - rewrite app_nil_l. destruct b as [|y b].
    + now rewrite star_class_stop.
    + destruct (p y) eqn:Hy.
      * rewrite star_class_cons by exact Hy. now rewrite Hk.
      * rewrite star_class_stop; [exact Hk|]. now rewrite Hy.
  - cbn [forallb] in Ha. apply andb_true_iff in Ha as [Hx Ha].
    change ((x :: a) ++ b) with (x :: a ++ b).
    rewrite star_class_cons by exact Hx.
    change (x :: a ++ b) with ((x :: a) ++ b).
    rewrite (Hfail [] (x :: a)) by (reflexivity || discriminate).
    rewrite orelse_None_l. apply IH; [exact Ha| |exact Hk].
    intros a1 a2 -> Hne. apply (Hfail (x :: a1) a2); [reflexivity|exact Hne].
Qed.

Lemma star_lazy_none p s c k :
  (forall a b, s = a ++ b -> forallb p a = true -> k b c = None) ->
  mt (Star false (Class p)) s c k = None.
Proof.
  induction s as [|x s IH]; intros H.
  - rewrite star_class_stop by reflexivity. now apply (H [] []).
  - destruct (p x) eqn:Hx.
    + rewrite star_class_cons by exact Hx.
      rewrite (H [] (x :: s)) by reflexivity. rewrite orelse_None_l.
      apply IH. intros a b -> Ha. apply (H (x :: a) b); [reflexivity|].
      cbn [forallb]. now rewrite Hx.
    + rewrite star_class_stop by (now rewrite Hx).
      now apply (H [] (x :: s)).
Qed.

(** Continuations that agree give the same match. *)
Lemma repeat_matcher_ext (m : matcher) gs g n :
  (forall s c k k', (forall s' c', k s' c' = k' s' c') -> m s c k = m s c k') ->
  forall s c k k',
    (forall s' c', k s' c' = k' s' c') ->
    repeat_matcher m gs g n s c k = repeat_matcher m gs g n s c k'.
Proof.
  intros Hm. induction n as [|n IH]; intros s c k k' Hk; [apply Hk|].
  rewrite !repeat_matcher_S. cbv zeta. rewrite (Hk s c).
  match goal with
  | |- context [m s (clear gs c) ?f] =>
      match goal with
      | |- _ = (if g then orelse (m s (clear gs c) ?f') _ else _) =>
          assert (m s (clear gs c) f = m s (clear gs c) f') as ->;
            [|reflexivity]
      end
  end.
  apply Hm. intros s' c'.
  destruct (length s' <? length s)%nat; [now apply IH|reflexivity].
Qed.

Lemma mt_ext r :
  forall s c k k',
    (forall s' c', k s' c' = k' s' c') -> mt r s c k = mt r s c k'.
Proof.
  induction r as [l|p|r1 IH1 r2 IH2|g r IH|g r IH|g r IH|i r IH];
    intros s c k k' Hk.
  - cbn [mt]. destruct (strip_prefix l s); [apply Hk|reflexivity].
  - destruct s as [|x s]; [reflexivity|]. rewrite !mt_class_cons.
    destruct (p x); [apply Hk|reflexivity].
  - rewrite !mt_seq. apply IH1. intros s' c'. now apply IH2.
  - rewrite !mt_star_eq. now apply repeat_matcher_ext.
  - rewrite !mt_plus. apply IH. intros s' c'. now apply repeat_matcher_ext.
  - rewrite !mt_opt. cbv zeta. rewrite (Hk s c).
    match goal with
    | |- context [mt r s (clear (groups r) c) ?f] =>
        match goal with
        | |- _ = (if g then orelse (mt r s (clear (groups r) c) ?f') _ else _) =>
            assert (mt r s (clear (groups r) c) f =
                    mt r s (clear (groups r) c) f') as ->; [|reflexivity]
        end
    end.
    apply IH. intros s' c'.
    destruct (length s' <? length s)%nat; [apply Hk|reflexivity].
  - rewrite !mt_group. apply IH. intros s' c'. apply Hk.
Qed.

(** The fuel of a quantifier never runs out: with more than [length s]
    units the amount does not matter. *)
Lemma repeat_matcher_fuel r gs g n n' s c k :
  length s < n -> length s < n' ->
  repeat_matcher (mt r) gs g n s c k = repeat_matcher (mt r) gs g n' s c k.
Proof.
  revert n' s c. induction n as [|n IH]; intros n' s c Hn Hn'; [lia|].
  destruct n' as [|n']; [lia|].
  rewrite !repeat_matcher_S. cbv zeta.
  match goal with
  | |- context [mt r s (clear gs c) ?f] =>
      match goal with
      | |- _ = (if g then orelse (mt r s (clear gs c) ?f') _ else _) =>
          assert (mt r s (clear gs c) f = mt r s (clear gs c) f') as ->;
            [|reflexivity]
      end
  end.
  apply mt_ext. intros s' c'.
  destruct (length s' <? length s)%nat eqn:E; [|reflexivity].
  apply Nat.ltb_lt in E. apply IH; lia.
Qed.
End Matcher.

(** * Properties of global replacement *)

Section Replace.

Implicit Types (r : regex) (s t m rest pre : str) (c : captures).

Lemma scan_skip r n s :
  n <= length s -> scan r n s = scan r 0 (drop n s).
Proof.
  revert s. induction n as [|n IH]; intros s Hn; [reflexivity|].
  destruct s as [|x s]; [cbn [length] in Hn; lia|].
  apply (IH s). cbn [length] in Hn. lia.
Qed.

Lemma scan_copy r x s :
  match_here r (x :: s) = None -> scan r 0 (x :: s) = Copy x :: scan r 0 s.
Proof. intros H. simpl. now rewrite H. Qed.

Lemma scan_hit r m rest c :
  m <> [] ->
  match_here r (m ++ rest) = Some (rest, c) ->
  scan r 0 (m ++ rest) = Hit m c :: scan r 0 rest.
Proof.
  intros Hm H. destruct m as [|x m]; [congruence|].
  change ((x :: m) ++ rest) with (x :: (m ++ rest)) in *.
  cbn [scan]. rewrite H.
  replace (length (x :: m ++ rest) - length rest) with (S (length m))
    by (cbn [length]; rewrite length_app; lia).
  cbn [take]. rewrite take_app_length.
  rewrite scan_skip by (rewrite length_app; lia).
  rewrite drop_app_length. reflexivity.
Qed.

Lemma replace_const_nil r by_ :
  match_here r [] = None -> replace_const r by_ [] = [].
Proof. intros H. unfold replace_const. simpl. now rewrite H. Qed.

Lemma replace_const_copy r by_ x s :
  match_here r (x :: s) = None ->
  replace_const r by_ (x :: s) = x :: replace_const r by_ s.
Proof. intros H. unfold replace_const. now rewrite scan_copy. Qed.

Lemma replace_const_hit r by_ m rest c :
  m <> [] ->
  match_here r (m ++ rest) = Some (rest, c) ->
  replace_const r by_ (m ++ rest) = by_ ++ replace_const r by_ rest.
Proof.
  intros Hm H. unfold replace_const. now rewrite (scan_hit _ _ _ c).
Qed.

Lemma replace_nil r f : match_here r [] = None -> replace r f [] = Ok [].
Proof. intros H. unfold replace. simpl. now rewrite H. Qed.

Lemma replace_copy r f x s :
  match_here r (x :: s) = None ->
  replace r f (x :: s) = let* t := replace r f s in Ok (x :: t).
Proof.
  intros H. unfold replace. rewrite scan_copy by exact H.
  cbn [mapM bind]. now destruct (mapM _ (scan r 0 s)).
Qed.

Lemma replace_hit r f m rest c :
  m <> [] ->
  match_here r (m ++ rest) = Some (rest, c) ->
  replace r f (m ++ rest) =
  let* out := f m c in let* t := replace r f rest in Ok (out ++ t).
Proof.
  intros Hm H. unfold replace. rewrite (scan_hit _ _ _ c) by assumption.
  cbn [mapM bind]. destruct (f m c); [|reflexivity].
  now destruct (mapM _ (scan r 0 rest)).
Qed.

(** Text in front of which no match starts is copied. *)
Lemma replace_const_skip r by_ pre rest :
  (forall a t, pre = a ++ t -> t <> [] -> match_here r (t ++ rest) = None) ->
  replace_const r by_ (pre ++ rest) = pre ++ replace_const r by_ rest.
Proof.
  induction pre as [|x pre IH]; intros H; [reflexivity|].
  change ((x :: pre) ++ rest) with (x :: (pre ++ rest)).
  rewrite replace_const_copy by (apply (H [] (x :: pre)); easy).
  cbn [app]. f_equal. apply IH.
  intros a t -> Ht. now apply (H (x :: a) t).
Qed.

Lemma replace_skip r f pre rest :
  (forall a t, pre = a ++ t -> t <> [] -> match_here r (t ++ rest) = None) ->
  replace r f (pre ++ rest) = let* t := replace r f rest in Ok (pre ++ t).
Proof.
  induction pre as [|x pre IH]; intros H.
  - cbn [app]. now destruct (replace r f rest).
  - change ((x :: pre) ++ rest) with (x :: (pre ++ rest)).
    rewrite replace_copy by (apply (H [] (x :: pre)); easy).
    rewrite IH by (intros a t -> Ht; now apply (H (x :: a) t)).
    now destruct (replace r f rest).
Qed.

Lemma has_match_false r s :
  has_match r s = false ->
  forall a t, s = a ++ t -> match_here r t = None.
Proof.
  unfold has_match. intros H a. revert s H.
  induction a as [|x a IH]; intros s H t ->.
  - destruct t; cbn [app tails existsb] in H;
      apply orb_false_iff in H as [H _];
      apply bool_decide_eq_false in H;
      now apply eq_None_not_Some.
  - cbn [app tails existsb] in H. apply orb_false_iff in H as [_ H].
    now apply (IH (a ++ t)).
Qed.

(** Without a match the content comes back as it was. *)
Lemma replace_no_match r f s :
  (forall a t, s = a ++ t -> match_here r t = None) ->
  replace r f s = Ok s.
Proof.
  intros H. rewrite <- (app_nil_r s) at 1.
  rewrite replace_skip.
  - rewrite replace_nil by (apply (H s []); now rewrite app_nil_r).
    cbn [bind]. now rewrite app_nil_r.
  - intros a t -> _. rewrite app_nil_r. now apply (H a t).
Qed.

Lemma replace_const_no_match r by_ s :
  (forall a t, s = a ++ t -> match_here r t = None) ->
  replace_const r by_ s = s.
Proof.
  intros H. rewrite <- (app_nil_r s) at 1.
  rewrite replace_const_skip.
  - rewrite replace_const_nil by (apply (H s []); now rewrite app_nil_r).
    now rewrite app_nil_r.
  - intros a t -> _. rewrite app_nil_r. now apply (H a t).
Qed.

End Replace.

(** * The normalization of resource content *)

Section Shorten.

Implicit Types (s : str) (x : char).

Lemma is_break_space x : is_break x = true -> is_space x = true.
Proof.
  unfold is_break. intros H. apply orb_true_iff in H as [H|H];
    apply N.eqb_eq in H; subst; reflexivity.
Qed.

Lemma not_space_not_break s :
  match s with [] => true | x :: _ => negb (is_space x) end = true ->
  match s with [] => true | x :: _ => negb (is_break x) end = true.
Proof.
  destruct s as [|x s]; [reflexivity|]. intros H.
  apply negb_true_iff in H. apply negb_true_iff.
  destruct (is_break x) eqn:E; [|reflexivity].
  apply is_break_space in E. congruence.
Qed.

Lemma breaks_nil : match_here re_breaks [] = None.
Proof. reflexivity. Qed.

Lemma breaks_miss x s :
  is_break x = false -> match_here re_breaks (x :: s) = None.
Proof.
  intros Hx. unfold match_here, re_breaks.
  rewrite mt_plus, mt_group, mt_seq, mt_class_cons. now rewrite Hx.
Qed.

Lemma breaks_hit x s :
  is_break x = true ->
  exists c, match_here re_breaks (x :: s) = Some (drop_while is_space s, c).
Proof.
  intros Hx. unfold match_here, re_breaks.
  rewrite mt_plus, mt_group, mt_seq, mt_class_cons, Hx.
  eexists. apply star_greedy_longest. cbv beta.
  rewrite repeat_matcher_S. cbv zeta.
  rewrite mt_group, mt_seq, mt_class_stop
    by apply not_space_not_break, drop_while_stops.
  reflexivity.
Qed.

Lemma collapse_skipping s :
  collapse_breaks true s = collapse_breaks false (drop_while is_space s).
Proof.
  induction s as [|x s IH]; [reflexivity|].
  cbn [collapse_breaks drop_while]. cbn [andb].
  destruct (is_space x) eqn:Hx; [exact IH|].
  cbn [collapse_breaks]. cbn [andb].
  destruct (is_break x) eqn:Hb; [|reflexivity].
  apply is_break_space in Hb. congruence.
Qed.

Lemma length_drop_while p s : length (drop_while p s) <= length s.
Proof.
  induction s as [|x s IH]; [reflexivity|].
  cbn [drop_while]. destruct (p x); cbn [length]; lia.
Qed.

Lemma replace_breaks s :
  replace_const re_breaks [SP] s = collapse_breaks false s.
Proof.
  remember (length s) as n eqn:Hn.
  revert s Hn. induction n as [n IH] using lt_wf_ind. intros s ->.
  destruct s as [|x s].
  - now rewrite replace_const_nil by exact breaks_nil.
  - cbn [collapse_breaks andb]. destruct (is_break x) eqn:Hx.
    + destruct (breaks_hit x s Hx) as [c Hc].
      destruct (drop_while_split is_space s) as (w & Hw & _).
      rewrite Hw in Hc at 1. rewrite Hw at 1.
      change (x :: w ++ drop_while is_space s)
        with ((x :: w) ++ drop_while is_space s) in *.
      rewrite (replace_const_hit _ _ _ _ c) by (exact Hc || discriminate).
      cbn [app]. f_equal. rewrite collapse_skipping.
      apply (IH (length (drop_while is_space s))); [|reflexivity].
      pose proof (length_drop_while is_space s). cbn [length]. lia.
    + rewrite replace_const_copy by now apply breaks_miss.
      f_equal. apply (IH (length s)); [cbn [length]; lia|reflexivity].
Qed.

Lemma replace_dquote s :
  replace_const re_dquote [BACKSLASH; DQUOTE] s = escape_quotes s.
Proof.
  induction s as [|x s IH].
  - now rewrite replace_const_nil.
  - cbn [escape_quotes flat_map]. fold (escape_quotes s).
    destruct (N.eqb_spec x 34) as [->|Hx].
    + change (34%N :: s) with ([DQUOTE] ++ s).
      rewrite (replace_const_hit _ _ _ _ []) by easy.
      now rewrite IH.
    + rewrite replace_const_copy.
      * now rewrite IH.
      * unfold match_here, re_dquote. apply mt_lit_stop.
        cbn [strip_prefix]. unfold char_eqb, DQUOTE.
        destruct (N.eqb_spec 34 x); [congruence|reflexivity].
Qed.

(** No line break is left, and no double quote without its backslash. *)
Lemma collapse_breaks_no_break b s :
  forallb (fun x => negb (is_break x)) (collapse_breaks b s) = true.
Proof.
  revert b. induction s as [|x s IH]; intros b; [reflexivity|].
  cbn [collapse_breaks]. destruct (b && is_space x); [apply IH|].
  destruct (is_break x) eqn:Hx; cbn [forallb]; [now rewrite IH|].
  now rewrite Hx, IH.
Qed.

Lemma escape_quotes_no_break s :
  forallb (fun x => negb (is_break x)) s = true ->
  forallb (fun x => negb (is_break x)) (escape_quotes s) = true.
Proof.
  induction s as [|x s IH]; intros H; [reflexivity|].
  cbn [forallb] in H. apply andb_true_iff in H as [Hx H].
  cbn [escape_quotes flat_map]. fold (escape_quotes s).
  destruct (N.eqb x 34); cbn [app forallb]; [now rewrite IH|].
  now rewrite Hx, IH.
Qed.

Lemma escape_quotes_escaped b s : quotes_escaped b (escape_quotes s) = true.
Proof.
  revert b. induction s as [|x s IH]; intros b; [reflexivity|].
  cbn [escape_quotes flat_map]. fold (escape_quotes s).
  destruct (N.eqb x 34) eqn:Hx; cbn [app quotes_escaped].
  - now rewrite IH.
  - now rewrite Hx, IH.
Qed.

(** [shorten] is the composition of the two. *)
Lemma shorten_spec s :
  shorten s = escape_quotes (collapse_breaks false s).
Proof. unfold shorten. now rewrite replace_breaks, replace_dquote. Qed.

End Shorten.

(** * Occurrences of a literal *)

Section Occurrences.

Implicit Types (l s t u pre post rest w : str).

Lemma is_prefix_true l s : is_prefix l s = true <-> exists u, s = l ++ u.
Proof.
  unfold is_prefix. split.
  - destruct (strip_prefix l s) as [u|] eqn:E; [|discriminate].
    intros _. exists u. now apply strip_prefix_Some.
  - intros [u ->]. now rewrite strip_prefix_app.
Qed.

Lemma is_prefix_false l s :
  is_prefix l s = false -> strip_prefix l s = None.
Proof. unfold is_prefix. now destruct (strip_prefix l s). Qed.

Lemma existsb_tails_false (f : str -> bool) s :
  existsb f (tails s) = false -> forall a t, s = a ++ t -> f t = false.
Proof.
  intros H a. revert s H. induction a as [|x a IH]; intros s H t ->.
  - destruct t; cbn [app tails existsb] in H;
      now apply orb_false_iff in H as [H _].
  - cbn [app tails existsb] in H. apply orb_false_iff in H as [_ H].
    now apply (IH (a ++ t)).
Qed.

Lemma occurs_false l s :
  occurs l s = false -> forall a t, s = a ++ t -> is_prefix l t = false.
Proof. apply existsb_tails_false. Qed.

Lemma border_free_spec l :
  border_free l = true ->
  forall a k, l = a ++ k -> a <> [] -> k <> [] -> is_prefix k l = false.
Proof.
  intros H a k -> Ha Hk. destruct a as [|x a]; [congruence|].
  cbn [app border_free] in H.
  rewrite forallb_forall in H. specialize (H k).
  destruct k as [|y k]; [congruence|].
  apply negb_true_iff. apply H.
  clear. induction a as [|z a IH]; cbn [app tails].
  - now left.
  - right. exact IH.
Qed.

Lemma is_prefix_app l k : is_prefix l (l ++ k) = true.
Proof. apply is_prefix_true. now exists k. Qed.

Lemma is_prefix_refl l : is_prefix l l = true.
Proof. apply is_prefix_true. exists []. now rewrite app_nil_r. Qed.

(** In [t ++ w ++ l ++ rest], where [t] is an end of text free of [l]
    and [w] is white space, [l] does not begin inside [t]. *)
Lemma no_start_before l pre w rest :
  border_free l = true ->
  forallb (fun x => negb (is_space x)) l = true ->
  occurs l pre = false ->
  forallb is_space w = true ->
  forall a t, pre = a ++ t -> t <> [] ->
  is_prefix l (t ++ w ++ l ++ rest) = false.
Proof.
  intros Hb Hl Hpre Hw a t -> Ht.
  destruct (is_prefix l (t ++ w ++ l ++ rest)) eqn:E; [exfalso|reflexivity].
  apply is_prefix_true in E as [u E].
  apply app_eq_inv in E as [(k & Et & _)|(k & El & E)].
  - (* [l] lies within [t] *)
    pose proof (occurs_false _ _ Hpre a t eq_refl) as Hp.
    rewrite Et, is_prefix_app in Hp. discriminate.
  - (* [l] goes beyond [t] *)
    destruct k as [|y k].
    { rewrite app_nil_r in El. subst t.
      pose proof (occurs_false _ _ Hpre a l eq_refl) as Hp.
      rewrite is_prefix_refl in Hp. discriminate. }
    destruct w as [|z w].
    + cbn [app] in E.
      apply (app_eq_inv l rest (y :: k) u) in E
        as [(k' & E1 & _)|(k' & E1 & _)].
      * assert (is_prefix (y :: k) l = false) as Hp
          by (apply (border_free_spec l Hb t); easy).
        rewrite E1 in Hp. rewrite is_prefix_app in Hp.
        now discriminate Hp.
      * apply (f_equal length) in E1. rewrite El in E1.
        rewrite !length_app in E1. cbn [length] in E1.
        destruct t; [congruence|]. cbn [length] in E1. lia.
    + cbn [app] in E. inversion E; subst z.
      rewrite El, forallb_app in Hl. apply andb_true_iff in Hl as [_ Hl].
      cbn [forallb] in *. apply andb_true_iff in Hw as [Hz _].
      rewrite Hz in Hl. discriminate.
Qed.

(** A border-free literal that occurs neither before nor after one of
    its occurrences occurs only there. *)
Lemma occurs_unique l pre post :
  border_free l = true ->
  occurs l pre = false ->
  occurs l post = false ->
  forall a t, pre ++ l ++ post = a ++ t -> is_prefix l t = true ->
  t = l ++ post.
Proof.
  intros Hb Hpre Hpost a t E Ht.
  apply app_eq_inv in E as [(k & Epre & E)|(k & Ea & E)].
  - (* [t] begins in [pre] *)
    destruct k as [|y k]; [exact E|exfalso].
    subst t.
    destruct (is_prefix_true l ((y :: k) ++ l ++ post)) as [[u E] _]; [exact Ht|].
    apply app_eq_inv in E as [(k' & Et & _)|(k' & El & E)].
    + pose proof (occurs_false _ _ Hpre a (y :: k) Epre) as Hp.
      rewrite Et, is_prefix_app in Hp. discriminate.
    + destruct k' as [|z k'].
      { rewrite app_nil_r in El.
        pose proof (occurs_false _ _ Hpre a (y :: k) Epre) as Hp.
        rewrite <- El, is_prefix_refl in Hp. discriminate. }
      apply app_eq_inv in E as [(k2 & E1 & _)|(k2 & E1 & _)].
      * assert (is_prefix (z :: k') l = false) as Hp
          by (apply (border_free_spec l Hb (y :: k)); easy).
        rewrite E1 in Hp. rewrite is_prefix_app in Hp. discriminate.
      * apply (f_equal length) in E1. rewrite El in E1.
        rewrite !length_app in E1. cbn [length] in E1. lia.
  - (* [t] begins in [l] or in [post] *)
    destruct k as [|y k]; [now rewrite app_nil_l in E|exfalso].
    apply app_eq_inv in E as [(k' & El & Et)|(k' & Ek & Epost)].
    + (* inside [l] *)
      apply is_prefix_true in Ht as [u Hu]. rewrite Et in Hu.
      destruct k' as [|z k'].
      { cbn [app] in Hu.
        pose proof (occurs_false _ _ Hpost [] post eq_refl) as Hp.
        rewrite Hu, is_prefix_app in Hp. discriminate. }
      apply app_eq_inv in Hu as [(k2 & E1 & _)|(k2 & E1 & _)].
      * rewrite El in E1. apply (f_equal length) in E1.
        rewrite !length_app in E1. cbn [length] in E1. lia.
      * assert (is_prefix (z :: k') l = false) as Hp
          by (apply (border_free_spec l Hb (y :: k)); easy).
        rewrite E1 in Hp. rewrite is_prefix_app in Hp. discriminate.
    + pose proof (occurs_false _ _ Hpost _ _ Epost). congruence.
Qed.
(** Two runs of a class that end at a unit outside the class are the
    same run. *)
Lemma span_unique (p : char -> bool) a x s b y t :
  a ++ x :: s = b ++ y :: t ->
  forallb p a = true -> forallb p b = true ->
  p x = false -> p y = false ->
  a = b /\ x = y /\ s = t.
Proof.
  revert b. induction a as [|a0 a IH]; intros [|b0 b] E Ha Hb Hx Hy;
    cbn [app forallb] in *.
  - now inversion E.
  - inversion E; subst. apply andb_true_iff in Hb as [Hb _]. congruence.
  - inversion E; subst. apply andb_true_iff in Ha as [Ha _]. congruence.
  - inversion E; subst.
    apply andb_true_iff in Ha as [_ Ha]. apply andb_true_iff in Hb as [_ Hb].
    destruct (IH b H1 Ha Hb Hx Hy) as (-> & -> & ->). easy.
Qed.

End Occurrences.

(** * The expression of [inlineTemplate] *)

Section TemplateUrl.
Implicit Types (s t w name rest post : str) (c : captures) (k : cont).

Lemma mt_class_inv p s c k r :
  mt (Class p) s c k = Some r ->
  exists x s', s = x :: s' /\ p x = true /\ k s' c = Some r.
Proof.
  destruct s as [|x s]; [discriminate|]. rewrite mt_class_cons.
  destruct (p x) eqn:E; [|discriminate]. intros H. now exists x, s.
Qed.

Lemma seq_lit_inv l r s x :
  match_here (Seq (Lit l) r) s = Some x -> is_prefix l s = true.
Proof.
  unfold match_here. rewrite mt_seq. intros H.
  apply mt_lit_inv in H as (s' & -> & _). apply is_prefix_app.
Qed.

Lemma templateUrl_inv s rest c :
  match_here re_templateUrl s = Some (rest, c) ->
  exists w name,
    forallb is_space w = true /\ name <> [] /\
    forallb not_squote name = true /\
    s = js "templateUrl:" ++ w ++ [SQUOTE] ++ name ++ js ".html" ++
        [SQUOTE] ++ rest.
Proof.
  unfold match_here, re_templateUrl. intros H.
  rewrite mt_seq in H. apply mt_lit_inv in H as (s1 & -> & H).
  rewrite mt_seq in H. apply star_class_inv in H as (w & s2 & -> & Hw & H).
  rewrite mt_seq in H. apply mt_lit_inv in H as (s3 & -> & H).
  rewrite mt_seq, mt_group, mt_seq, mt_plus in H.
  apply mt_class_inv in H as (x & s4 & -> & Hx & H).
  rewrite <- (mt_star_eq false (Class not_squote)) in H.
  apply star_class_inv in H as (a & s5 & -> & Ha & H).
  apply mt_lit_inv in H as (s6 & -> & H).
  apply mt_lit_inv in H as (s7 & -> & H).
  injection H as -> _. exists w, (x :: a). cbn [forallb]. rewrite Hx, Ha.
  split; [exact Hw|]. split; [discriminate|]. split; reflexivity.
Qed.

(** After [.html], a quote does not follow when the text read so far
    is [a2 ++ ".html'"] with [a2] a non-empty text without quote. *)
Lemma html_blocked a2 rest c k :
  a2 <> [] -> forallb not_squote a2 = true ->
  (forall y s' c', N.eqb y 39 = false -> k (y :: s') c' = None) ->
  mt (Lit (js ".html")) (a2 ++ js ".html" ++ [SQUOTE] ++ rest) c k = None.
Proof.
  intros Hne Ha Hk. cbn [mt].
  destruct (strip_prefix _ _) as [s'|] eqn:E; [|reflexivity].
  apply strip_prefix_Some in E. js_eval_in E. unfold SQUOTE in E.
  destruct a2 as [|y1 [|y2 [|y3 [|y4 [|y5 [|y6 a2]]]]]]; [congruence|..];
    cbn [app] in E; inversion E; subst; apply Hk; try reflexivity.
  cbn [forallb] in Ha. repeat (apply andb_true_iff in Ha as [? Ha]).
  unfold not_squote in *. now apply negb_true_iff.
Qed.

Lemma templateUrl_hit w name post :
  forallb is_space w = true -> name <> [] ->
  forallb not_squote name = true ->
  match_here re_templateUrl
    (js "templateUrl:" ++ w ++ [SQUOTE] ++ name ++ js ".html" ++
     [SQUOTE] ++ post) =
  Some (post, [(1, name ++ js ".html")]).
Proof.
  intros Hw Hne Hname. unfold match_here, re_templateUrl.
  rewrite mt_seq, mt_lit_app, mt_seq.
  apply star_greedy_longest. rewrite drop_while_app by easy.
  rewrite mt_seq. change (js "'") with [SQUOTE]. rewrite mt_lit_app.
  rewrite mt_seq, mt_group, mt_seq, mt_plus.
  destruct name as [|x name]; [congruence|].
  cbn [forallb] in Hname. apply andb_true_iff in Hname as [Hx Hname].
  change ((x :: name) ++ js ".html" ++ [SQUOTE] ++ post)
    with (x :: (name ++ js ".html" ++ [SQUOTE] ++ post)).
  rewrite mt_class_cons, Hx.
  rewrite <- (mt_star_eq false (Class not_squote)).
  apply star_lazy_first; [exact Hname| |].
  - intros a1 a2 -> Hn2. cbv beta.
    rewrite forallb_app in Hname. apply andb_true_iff in Hname as [_ Hname].
    apply html_blocked; [exact Hn2|exact Hname|].
    intros y s' c' Hy. js_eval. cbn [mt strip_prefix].
    unfold char_eqb, SQUOTE. rewrite N.eqb_sym. now rewrite Hy.
  - rewrite mt_lit_app, mt_lit_app. do 3 f_equal.
    replace (length (x :: name ++ js ".html" ++ [SQUOTE] ++ post) -
             length ([SQUOTE] ++ post))
      with (length ((x :: name) ++ js ".html"))
      by (cbn [length app]; rewrite !length_app; cbn [length]; lia).
    change (x :: name ++ js ".html" ++ [SQUOTE] ++ post)
      with ((x :: name) ++ js ".html" ++ [SQUOTE] ++ post).
    rewrite (app_assoc (x :: name)). now rewrite take_app_length.
Qed.

(** Every match of the expression is a declaration of this form, and
    its first group is the path. *)
Lemma templateUrl_match_shape s rest c :
  match_here re_templateUrl s = Some (rest, c) ->
  exists w name,
    forallb is_space w = true /\ name <> [] /\
    forallb not_squote name = true /\
    s = js "templateUrl:" ++ w ++ [SQUOTE] ++ name ++ js ".html" ++
        [SQUOTE] ++ rest /\
    c = [(1, name ++ js ".html")].
Proof.
  intros H. destruct (templateUrl_inv _ _ _ H) as (w & name & Hw & Hne & Hn & E).
  exists w, name. repeat (split; [assumption|]).
  rewrite E in H. rewrite templateUrl_hit in H by assumption.
  now injection H as <-.
Qed.

(** The first group takes part in every match of the expression:
    [group1] does not throw. *)
Lemma group1_templateUrl s rest c :
  match_here re_templateUrl s = Some (rest, c) -> exists g, group1 c = Ok g.
Proof.
  intros H. apply templateUrl_match_shape in H as (w & name & _ & _ & _ & _ & ->).
  now eexists.
Qed.
End TemplateUrl.

Section InlineTemplate.
Implicit Types (s t w name rest pre post : str) (c : captures) (k : cont).

Lemma seq_lit_miss l r s :
  is_prefix l s = false -> match_here (Seq (Lit l) r) s = None.
Proof.
  intros H. destruct (match_here (Seq (Lit l) r) s) eqn:E; [|reflexivity].
  apply seq_lit_inv in E. congruence.
Qed.

(** No match of an expression that opens with the literal [l] starts
    in text free of [l] that comes before an occurrence of [l]. *)
Lemma no_match_before l r pre rest :
  border_free l = true ->
  forallb (fun x => negb (is_space x)) l = true ->
  occurs l pre = false ->
  forall a t, pre = a ++ t -> t <> [] ->
  match_here (Seq (Lit l) r) (t ++ l ++ rest) = None.
Proof.
  intros Hb Hl Hpre a t E Ht. apply seq_lit_miss.
  now apply (no_start_before l pre [] rest Hb Hl Hpre eq_refl a t).
Qed.

Lemma replace_hit_eq r f s m rest c :
  s = m ++ rest -> m <> [] ->
  match_here r s = Some (rest, c) ->
  replace r f s =
  let* out := f m c in let* t := replace r f rest in Ok (out ++ t).
Proof. intros -> Hm H. now apply replace_hit. Qed.

Lemma replace_const_hit_eq r by_ s m rest c :
  s = m ++ rest -> m <> [] ->
  match_here r s = Some (rest, c) ->
  replace_const r by_ s = by_ ++ replace_const r by_ rest.
Proof. intros -> Hm H. now apply (replace_const_hit _ _ _ _ c). Qed.

Lemma inlineTemplate_at fs resolver pre w name post templateFile
    templateContent :
  occurs (js "templateUrl:") pre = false ->
  forallb is_space w = true ->
  name <> [] ->
  forallb not_squote name = true ->
  resolver (name ++ js ".html") = Ok templateFile ->
  fs !! templateFile = Some templateContent ->
  inlineTemplate fs
    (pre ++ js "templateUrl:" ++ w ++ [SQUOTE] ++ name ++ js ".html" ++
     [SQUOTE] ++ post) resolver =
  let* rest := inlineTemplate fs post resolver in
  Ok (pre ++ js "template: " ++ [DQUOTE] ++ shorten templateContent ++
      [DQUOTE] ++ rest).
Proof.
  intros Hpre Hw Hne Hname Hres Hfs. unfold inlineTemplate.
  rewrite replace_skip
    by (apply no_match_before; (reflexivity || exact Hpre)).
  rewrite (replace_hit_eq _ _ _
             (js "templateUrl:" ++ w ++ [SQUOTE] ++ name ++ js ".html" ++
              [SQUOTE]) post [(1, name ++ js ".html")]).
  - cbn [group1 capture Nat.eqb bind]. rewrite Hres. cbn [bind].
    unfold readFileSync. rewrite Hfs. cbn [bind].
    destruct (replace _ _ post); cbn [bind]; [|reflexivity].
    now rewrite <- !app_assoc.
  - now rewrite <- !app_assoc.
  - js_eval. discriminate.
  - now apply templateUrl_hit.
Qed.

Lemma templateUrl_literal :
  border_free (js "templateUrl:") = true /\
  forallb (fun x => negb (is_space x)) (js "templateUrl:") = true.
Proof. split; reflexivity. Qed.

Lemma ends_html_app name :
  name <> [] -> ends_html (name ++ js ".html") = true.
Proof.
  intros Hne. unfold ends_html. rewrite rev_app_distr, is_prefix_app.
  rewrite length_app. destruct name; [congruence|].
  cbn [andb]. apply Nat.ltb_lt. cbn [length]. js_eval. cbn [length]. lia.
Qed.

(** The declarations that the expression does not match: after the
    white space comes a unit [d] that is not a single quote, or the
    text up to the next single quote is not a name followed by
    [.html]. *)
Lemma templateUrl_miss w d rest :
  forallb is_space w = true ->
  is_space d = false ->
  (N.eqb d 39 = false \/
   exists p1 rest',
     rest = p1 ++ SQUOTE :: rest' /\ forallb not_squote p1 = true /\
     ends_html p1 = false) ->
  match_here re_templateUrl (js "templateUrl:" ++ w ++ d :: rest) = None.
Proof.
  intros Hw Hd Hcase.
  destruct (match_here _ _) as [[rest0 c]|] eqn:E; [exfalso|reflexivity].
  apply templateUrl_inv in E as (w' & name & Hw' & Hne & Hname & E).
  apply app_inv_head in E.
  apply (span_unique is_space) in E as (_ & -> & ->);
    [|assumption..|reflexivity].
  destruct Hcase as [Hq|(p1 & rest' & E & Hp1 & Hends)]; [discriminate|].
  rewrite app_assoc in E.
  apply (span_unique not_squote) in E as (E & _); [| |assumption|reflexivity..].
  - rewrite <- E, ends_html_app in Hends by assumption. discriminate.
  - rewrite forallb_app, Hname. reflexivity.
Qed.
End InlineTemplate.

(** * The expression of [inlineStyle] *)

Section InlineStyle.
Implicit Types (s t w body rest pre post u acc : str) (c : captures) (k : cont)
  (urls out : list str).

Lemma any_char_true x : any_char x = true.
Proof. unfold any_char. now destruct (is_space x). Qed.

Lemma forallb_any_char s : forallb any_char s = true.
Proof. induction s; [reflexivity|]. cbn [forallb]. now rewrite any_char_true. Qed.

Lemma styleUrls_hit w body post :
  forallb is_space w = true ->
  forallb (fun x => negb (N.eqb x 93)) body = true ->
  match_here re_styleUrls
    (js "styleUrls:" ++ w ++ [LBRACKET] ++ body ++ [RBRACKET] ++ post) =
  Some (post, [(1, [LBRACKET] ++ body ++ [RBRACKET])]).
Proof.
  intros Hw Hbody. unfold match_here, re_styleUrls.
  rewrite mt_seq, mt_lit_app, mt_seq.
  apply star_greedy_longest. rewrite drop_while_app by easy.
  rewrite mt_group, mt_seq. change (js "[") with [LBRACKET].
  rewrite mt_lit_app, mt_seq.
  apply star_lazy_first; [apply forallb_any_char| |].
  - intros a1 a2 -> Hne. destruct a2 as [|y a2]; [congruence|].
    rewrite forallb_app in Hbody. apply andb_true_iff in Hbody as [_ Hbody].
    cbn [forallb] in Hbody. apply andb_true_iff in Hbody as [Hy _].
    apply negb_true_iff in Hy.
    apply mt_lit_stop. js_eval. cbn [app strip_prefix]. unfold char_eqb.
    rewrite N.eqb_sym. now rewrite Hy.
  - change (js "]") with [RBRACKET]. rewrite mt_lit_app. do 3 f_equal.
    replace ([LBRACKET] ++ body ++ [RBRACKET] ++ post)
      with (([LBRACKET] ++ body ++ [RBRACKET]) ++ post)
      by (now rewrite <- !app_assoc).
    replace (length (([LBRACKET] ++ body ++ [RBRACKET]) ++ post) - length post)
      with (length ([LBRACKET] ++ body ++ [RBRACKET]))
      by (rewrite !length_app; cbn [length]; lia).
    now rewrite take_app_length.
Qed.



(** *** The model of [eval] on arrays of string literals *)








(** Every match of the expression is an array of this form, closed
    by the first closing bracket. *)
Lemma styleUrls_match_shape s rest c :
  match_here re_styleUrls s = Some (rest, c) ->
  exists w body,
    forallb is_space w = true /\
    forallb (fun x => negb (N.eqb x 93)) body = true /\
    s = js "styleUrls:" ++ w ++ [LBRACKET] ++ body ++ [RBRACKET] ++ rest /\
    c = [(1, [LBRACKET] ++ body ++ [RBRACKET])].
Proof.
  intros H. pose proof H as H0. unfold match_here, re_styleUrls in H0.
  rewrite mt_seq in H0. apply mt_lit_inv in H0 as (s1 & -> & H0).
  rewrite mt_seq in H0. apply star_class_inv in H0 as (w & s2 & -> & Hw & H0).
  rewrite mt_group, mt_seq in H0. apply mt_lit_inv in H0 as (s3 & -> & H0).
  rewrite mt_seq in H0. apply star_class_inv in H0 as (a & s4 & -> & _ & H0).
  apply mt_lit_inv in H0 as (s5 & -> & _).
  (* the text up to the first closing bracket *)
  destruct (drop_while_split (fun x => negb (N.eqb x 93)) (a ++ js "]" ++ s5))
    as (body & E & Hbody).
  pose proof (drop_while_stops (fun x => negb (N.eqb x 93)) (a ++ js "]" ++ s5))
    as Hstop.
  destruct (drop_while _ (a ++ js "]" ++ s5)) as [|x tl] eqn:Ed.
  - (* there is a closing bracket *)
    exfalso. rewrite app_nil_r in E. rewrite <- E in Hbody.
    rewrite forallb_app in Hbody. apply andb_true_iff in Hbody as [_ Hbody].
    discriminate Hbody.
  - rewrite negb_involutive in Hstop. apply N.eqb_eq in Hstop. subst x.
    change (js "[") with [LBRACKET] in H.
    rewrite E in H. change (93%N :: tl) with ([RBRACKET] ++ tl) in H.
    rewrite styleUrls_hit in H by assumption.
    injection H as <- <-. exists w, body.
    split; [exact Hw|]. split; [exact Hbody|]. split; [|reflexivity].
    change (js "[") with [LBRACKET]. now rewrite E.
Qed.

(** The first group takes part in every match of the expression:
    [group1] does not throw. *)
Lemma group1_styleUrls s rest c :
  match_here re_styleUrls s = Some (rest, c) -> exists g, group1 c = Ok g.
Proof.
  intros H. apply styleUrls_match_shape in H as (w & body & _ & _ & _ & ->).
  now eexists.
Qed.
End InlineStyle.

(** * The expression of [removeModuleId] *)

Section RemoveModuleId.
Implicit Types (s t w rest pre post : str) (c : captures) (k : cont)
  (m : marker).

Lemma moduleId_literal :
  border_free (js "moduleId:") = true /\
  forallb (fun x => negb (is_space x)) (js "moduleId:") = true.
Proof. split; reflexivity. Qed.

Lemma moduleId_inv s x :
  match_here re_moduleId s = Some x ->
  exists w t, forallb is_space w = true /\ s = w ++ js "moduleId:" ++ t.
Proof.
  unfold match_here, re_moduleId. intros H.
  rewrite mt_seq in H. apply star_class_inv in H as (w & s1 & -> & Hw & H).
  rewrite mt_seq in H. apply mt_lit_inv in H as (s2 & -> & _).
  now exists w, s2.
Qed.

Lemma may_follow_no_space m post :
  may_follow m post = true ->
  match post with [] => true | x :: _ => negb (is_space x) end = true.
Proof.
  destruct post as [|x post]; [reflexivity|]. cbn [may_follow].
  intros H. now apply andb_true_iff in H as [H _].
Qed.

Lemma moduleId_hit m post :
  marker_ok m = true -> may_follow m post = true ->
  match_here re_moduleId (marker_text m ++ post) = Some (post, []).
Proof.
  unfold marker_ok, marker_text. intros Hok Hpost.
  apply andb_true_iff in Hok as [Hok H4].
  apply andb_true_iff in Hok as [Hok H3].
  apply andb_true_iff in Hok as [H1 H2].
  pose proof (may_follow_no_space _ _ Hpost) as Hsp.
  unfold may_follow in Hpost.
  unfold match_here, re_moduleId. rewrite <- !app_assoc.
  rewrite mt_seq. apply star_greedy_longest.
  rewrite drop_while_app by easy.
  rewrite mt_seq, mt_lit_app, mt_seq. apply star_greedy_longest.
  rewrite drop_while_app by easy.
  rewrite mt_seq, mt_lit_app, mt_seq. apply star_greedy_longest.
  destruct (comma m) as [w4|].
  - rewrite drop_while_app by easy.
    rewrite mt_seq, mt_opt. cbv zeta. rewrite clear_nil.
    change (js ",") with [COMMA]. rewrite <- !app_assoc, mt_lit_app.
    replace (length (w4 ++ post) <? length ([COMMA] ++ w4 ++ post))%nat
      with true by (symmetry; apply Nat.ltb_lt; cbn [app length]; lia).
    rewrite (star_greedy_longest _ _ _ _ (post, [])); [reflexivity|].
    now rewrite drop_while_app.
  - rewrite app_nil_l. rewrite drop_while_app by easy.
    rewrite mt_seq, mt_opt. cbv zeta. rewrite clear_nil.
    rewrite mt_lit_stop.
    + rewrite orelse_None_l. now rewrite star_class_stop.
    + destruct post as [|x post]; [reflexivity|].
      apply andb_true_iff in Hpost as [_ Hx].
      apply negb_true_iff in Hx. js_eval. cbn [strip_prefix].
      unfold char_eqb. rewrite N.eqb_sym. now rewrite Hx.
Qed.

Lemma all_space_ends_with_space t :
  forallb is_space t = true -> t <> [] -> ends_with_space t = true.
Proof.
  intros Ht Hne. unfold ends_with_space.
  destruct (last t) as [x|] eqn:E.
  - apply last_Some in E as [t' ->].
    rewrite forallb_app in Ht. apply andb_true_iff in Ht as [_ Ht].
    cbn [forallb] in Ht. now apply andb_true_iff in Ht as [Ht _].
  - apply last_None in E. congruence.
Qed.

Lemma ends_with_space_app a t :
  t <> [] -> ends_with_space (a ++ t) = ends_with_space t.
Proof.
  intros Hne. unfold ends_with_space.
  destruct t as [|x t] using rev_ind; [congruence|].
  now rewrite app_assoc, !last_snoc.
Qed.

(** No match starts in text that is free of [moduleId:], does not end
    with white space and comes before a marker. *)
Lemma moduleId_not_before pre w rest :
  occurs (js "moduleId:") pre = false ->
  ends_with_space pre = false ->
  forallb is_space w = true ->
  forall a t, pre = a ++ t -> t <> [] ->
  match_here re_moduleId (t ++ w ++ js "moduleId:" ++ rest) = None.
Proof.
  intros Hpre Hend Hw a t -> Ht.
  rewrite ends_with_space_app in Hend by exact Ht.
  destruct (match_here _ _) as [x|] eqn:E; [exfalso|reflexivity].
  apply moduleId_inv in E as (w' & t' & Hw' & E).
  apply app_eq_inv in E as [(k & -> & E)|(k & -> & _)].
  - destruct k as [|y k].
    + rewrite app_nil_r in Hend, Ht.
      rewrite all_space_ends_with_space in Hend by assumption. discriminate.
    + pose proof (no_start_before (js "moduleId:") ((a ++ w') ++ y :: k) w rest
                    (proj1 moduleId_literal) (proj2 moduleId_literal)) as Hn.
      rewrite <- app_assoc in Hn.
      specialize (Hn Hpre Hw (a ++ w') (y :: k) (app_assoc _ _ _)).
      rewrite <- E, is_prefix_app in Hn. discriminate Hn. discriminate.
  - rewrite forallb_app in Hw'. apply andb_true_iff in Hw' as [Hw' _].
    rewrite all_space_ends_with_space in Hend by assumption. discriminate.
Qed.

Lemma removeModuleId_at pre m post :
  occurs (js "moduleId:") pre = false ->
  ends_with_space pre = false ->
  marker_ok m = true ->
  may_follow m post = true ->
  removeModuleId (pre ++ marker_text m ++ post) = pre ++ removeModuleId post.
Proof.
  intros Hpre Hend Hok Hpost. unfold removeModuleId.
  rewrite replace_const_skip.
  - rewrite (replace_const_hit _ _ _ _ []); [reflexivity| |].
    + unfold marker_text. js_eval. destruct (lead m); discriminate.
    + now apply moduleId_hit.
  - intros a t E Ht. unfold marker_text. rewrite <- !app_assoc.
    apply (moduleId_not_before pre _ _ Hpre Hend) with (a := a); try easy.
    unfold marker_ok in Hok. now repeat (apply andb_true_iff in Hok as [Hok _]).
Qed.

Lemma removeModuleId_none s :
  occurs (js "moduleId:") s = false -> removeModuleId s = s.
Proof.
  intros Hs. apply replace_const_no_match. intros a t E.
  destruct (match_here _ _) as [x|] eqn:Hm; [exfalso|reflexivity].
  apply moduleId_inv in Hm as (w & t' & _ & ->).
  rewrite app_assoc in E.
  pose proof (occurs_false _ _ Hs _ _ E) as Hp.
  rewrite is_prefix_app in Hp. discriminate.
Qed.

Lemma removeModuleId_segments segments last_ :
  well_placed segments last_ = true ->
  removeModuleId (assemble segments last_) =
  concat (map fst segments) ++ removeModuleId last_.
Proof.
  induction segments as [|[pre m] segments IH]; intros H; [reflexivity|].
  cbn [well_placed] in H.
  apply andb_true_iff in H as [H H5]. apply andb_true_iff in H as [H H4].
  apply andb_true_iff in H as [H H3]. apply andb_true_iff in H as [H1 H2].
  apply negb_true_iff in H1, H2.
  cbn [assemble map fst concat]. rewrite removeModuleId_at by assumption.
  rewrite IH by assumption. now rewrite app_assoc.
Qed.

Lemma quiet_spec r pre rest :
  quiet r pre rest = true ->
  forall a t, pre = a ++ t -> t <> [] -> match_here r (t ++ rest) = None.
Proof.
  unfold quiet. intros H a. revert pre H.
  induction a as [|x a IH]; intros pre H t -> Ht.
  - destruct t as [|y t]; [congruence|].
    cbn [app tails forallb] in H. apply andb_true_iff in H as [H _].
    apply negb_true_iff, bool_decide_eq_false in H.
    now apply eq_None_not_Some.
  - cbn [app tails forallb] in H. apply andb_true_iff in H as [_ H].
    now apply (IH (a ++ t)).
Qed.

Lemma quiet_cons r x pre rest :
  match_here r (x :: pre ++ rest) = None ->
  quiet r pre rest = true ->
  quiet r (x :: pre) rest = true.
Proof.
  intros Hx H. unfold quiet in *. cbn [tails forallb]. rewrite H.
  cbn [app]. rewrite Hx. reflexivity.
Qed.

Lemma has_match_cons r x s :
  match_here r (x :: s) = None ->
  has_match r (x :: s) = has_match r s.
Proof.
  intros H. unfold has_match. cbn [tails existsb]. now rewrite H.
Qed.

(** A match of the expression is a marker with all the white space and
    the comma that it can take. *)
Lemma moduleId_match_shape s rest c :
  match_here re_moduleId s = Some (rest, c) ->
  exists m, marker_ok m = true /\ may_follow m rest = true /\
            s = marker_text m ++ rest.
Proof.
  intros H. pose proof H as H0.
  unfold match_here, re_moduleId in H0.
  rewrite mt_seq in H0. apply star_class_inv in H0 as (w1 & s1 & -> & Hw1 & H0).
  rewrite mt_seq in H0. apply mt_lit_inv in H0 as (s2 & -> & H0).
  rewrite mt_seq in H0. apply star_class_inv in H0 as (w2 & s3 & -> & Hw2 & H0).
  rewrite mt_seq in H0. apply mt_lit_inv in H0 as (t & -> & _).
  destruct (drop_while_split is_space t) as (w3 & Et & Hw3).
  pose proof (drop_while_stops is_space t) as Hstop.
  destruct (drop_while is_space t) as [|x t1] eqn:Edrop.
  - (* nothing but white space after the marker *)
    set (m := {| lead := w1; gap := w2; trail := w3; comma := None |}).
    assert (w1 ++ js "moduleId:" ++ w2 ++ js "module.id" ++ t =
            marker_text m ++ []) as E
      by (unfold marker_text, m; cbn [lead gap trail comma];
          rewrite Et, !app_nil_r; now rewrite <- ?app_assoc).
    rewrite E in H. rewrite moduleId_hit in H.
    + injection H as <- _. exists m. repeat split; [|exact E].
      unfold marker_ok, m. cbn. now rewrite Hw1, Hw2, Hw3.
    + unfold marker_ok, m. cbn. now rewrite Hw1, Hw2, Hw3.
    + reflexivity.
  - destruct (N.eqb x 44) eqn:Hx.
    + (* a comma, and white space after it *)
      apply N.eqb_eq in Hx. subst x.
      destruct (drop_while_split is_space t1) as (w4 & Et1 & Hw4).
      pose proof (drop_while_stops is_space t1) as Hstop1.
      set (m := {| lead := w1; gap := w2; trail := w3; comma := Some w4 |}).
      assert (Hok : marker_ok m = true)
        by (unfold marker_ok, m; cbn; now rewrite Hw1, Hw2, Hw3, Hw4).
      assert (Hfollow : may_follow m (drop_while is_space t1) = true).
      { unfold may_follow. destruct (drop_while is_space t1); [reflexivity|].
        cbn [comma m]. now rewrite andb_true_r. }
      assert (w1 ++ js "moduleId:" ++ w2 ++ js "module.id" ++ t =
              marker_text m ++ drop_while is_space t1) as E.
      { unfold marker_text, m. cbn [lead gap trail comma].
        rewrite Et. rewrite Et1 at 1. unfold COMMA.
        now rewrite <- !app_assoc. }
      rewrite E in H. rewrite moduleId_hit in H by assumption.
      injection H as <- _. exists m. now repeat split.
    + (* something else *)
      set (m := {| lead := w1; gap := w2; trail := w3; comma := None |}).
      assert (Hok : marker_ok m = true)
        by (unfold marker_ok, m; cbn; now rewrite Hw1, Hw2, Hw3).
      assert (Hfollow : may_follow m (x :: t1) = true).
      { unfold may_follow. cbn [comma m]. rewrite Hstop, Hx. reflexivity. }
      assert (w1 ++ js "moduleId:" ++ w2 ++ js "module.id" ++ t =
              marker_text m ++ x :: t1) as E.
      { unfold marker_text, m. cbn [lead gap trail comma].
        rewrite Et. now rewrite <- !app_assoc. }
      rewrite E in H. rewrite moduleId_hit in H by assumption.
      injection H as <- _. exists m. now repeat split.
Qed.

Lemma marker_text_not_nil m : marker_text m <> [].
Proof. unfold marker_text. js_eval. destruct (lead m); discriminate. Qed.

(** The output for content cut in this way is the pieces of text. *)
Lemma removeModuleId_well_cut segments last_ :
  well_cut segments last_ = true ->
  removeModuleId (assemble segments last_) = concat (map fst segments) ++ last_.
Proof.
  induction segments as [|[pre m] segments IH]; intros H.
  - cbn [well_cut] in H. apply negb_true_iff in H. cbn.
    apply replace_const_no_match. now apply has_match_false.
  - cbn [well_cut] in H.
    apply andb_true_iff in H as [H H4]. apply andb_true_iff in H as [H H3].
    apply andb_true_iff in H as [H1 H2].
    cbn [assemble map fst concat]. unfold removeModuleId.
    rewrite replace_const_skip by now apply quiet_spec.
    rewrite (replace_const_hit _ _ _ _ []);
      [|apply marker_text_not_nil|now apply moduleId_hit].
    fold (removeModuleId (assemble segments last_)).
    rewrite IH by assumption. cbn [app]. now rewrite app_assoc.
Qed.

(** Every content is cut in this way. *)
Lemma every_content_well_cut content :
  exists segments last_,
    content = assemble segments last_ /\ well_cut segments last_ = true.
Proof.
  remember (length content) as n eqn:Hn. revert content Hn.
  induction n as [n IH] using lt_wf_ind. intros content ->.
  destruct (match_here re_moduleId content) as [[rest c]|] eqn:Hm.
  - destruct (moduleId_match_shape _ _ _ Hm) as (m & Hok & Hfollow & ->).
    destruct (IH (length rest)) with (content := rest)
      as (segments & last_ & -> & Hcut); [|reflexivity|].
    { rewrite length_app. pose proof (marker_text_not_nil m).
      destruct (marker_text m); [congruence|]. cbn [length]. lia. }
    exists (([], m) :: segments), last_. split; [reflexivity|].
    cbn [well_cut]. now rewrite Hok, Hfollow, Hcut.
  - destruct content as [|x content].
    + exists [], []. split; [reflexivity|].
      cbn [well_cut]. unfold has_match. cbn [tails existsb]. now rewrite Hm.
    + destruct (IH (length content)) with (content := content)
        as (segments & last_ & -> & Hcut); [cbn [length]; lia|reflexivity|].
      destruct segments as [|[pre m] segments].
      * exists [], (x :: last_). split; [reflexivity|].
        cbn [well_cut assemble] in *. now rewrite has_match_cons.
      * exists ((x :: pre, m) :: segments), last_. split; [reflexivity|].
        cbn [well_cut assemble] in *.
        apply andb_true_iff in Hcut as [H H4]. apply andb_true_iff in H as [H H3].
        apply andb_true_iff in H as [H1 H2].
        rewrite H2, H3, H4. rewrite quiet_cons; [reflexivity| |exact H1].
        exact Hm.
Qed.

End RemoveModuleId.

(** * Configuration resolution *)

Section ReadTsconfig.

Variable __dirname : str.
Variable cwd : str.

Implicit Types (w : world) (doc cfg : tsconfig) (options : gmap str jsval)
  (k prop key p : str).

Lemma str_eqb_eq a b : path.str_eqb a b = true <-> a = b.
Proof. unfold path.str_eqb. apply bool_decide_eq_true. Qed.

Lemma str_eqb_neq a b : path.str_eqb a b = false <-> a <> b.
Proof. unfold path.str_eqb. apply bool_decide_eq_false. Qed.

Lemma resolve_prop_lookup tsConfigDir options prop options' :
  resolve_prop cwd tsConfigDir options prop = Ok options' ->
  forall k,
    options' !! k =
    if path.str_eqb k prop then
      match options !! k with
      | Some (VStr p) =>
          if truthy (VStr p)
          then Some (VStr (path.resolve cwd [tsConfigDir; p]))
          else options !! k
      | v => v
      end
    else options !! k.
Proof.
  unfold resolve_prop. intros H k.
  destruct (path.str_eqb k prop) eqn:Ek.
  - apply str_eqb_eq in Ek as ->.
    destruct (options !! prop) as [v|] eqn:Ev.
    + destruct (truthy v) eqn:Et.
      * destruct v; try discriminate. injection H as <-.
        now rewrite lookup_insert_eq, Et.
      * injection H as <-. rewrite Ev. destruct v; try reflexivity.
        now rewrite Et.
    + injection H as <-. now rewrite Ev.
  - apply str_eqb_neq in Ek.
    destruct (options !! prop) as [v|] eqn:Ev.
    + destruct (truthy v) eqn:Et.
      * destruct v; try discriminate. injection H as <-.
        now rewrite lookup_insert_ne.
      * now injection H as <-.
    + now injection H as <-.
Qed.

Lemma resolve_dirs_lookup key tsConfigDir doc options w cfg w' :
  resolve_dirs cwd key tsConfigDir doc options w = (Ok cfg, w') ->
  exists options',
    compilerOptions cfg = Some options' /\ extends cfg = extends doc /\
    forall k, options' !! k = resolved_option cwd tsConfigDir k (options !! k).
Proof.
  unfold resolve_dirs. intros H.
  destruct (resolve_prop cwd tsConfigDir options (js "outDir")) as [o1|] eqn:E1;
    [|discriminate].
  destruct (resolve_prop cwd tsConfigDir o1 (js "rootDir")) as [o2|] eqn:E2;
    [|discriminate].
  injection H as <- _. exists o2. split; [reflexivity|]. split; [reflexivity|].
  intros k. rewrite (resolve_prop_lookup _ _ _ _ E2 k).
  rewrite (resolve_prop_lookup _ _ _ _ E1 k).
  unfold resolved_option, is_dir_option.
  destruct (path.str_eqb k (js "rootDir")) eqn:Er;
    destruct (path.str_eqb k (js "outDir")) eqn:Eo.
  - apply str_eqb_eq in Er, Eo. subst k. discriminate.
  - cbn [orb andb]. now destruct (options !! k) as [[]|].
  - cbn [orb andb]. now destruct (options !! k) as [[]|].
  - cbn [orb andb]. now destruct (options !! k) as [[]|].
Qed.

(** The result of [readTsconfig] for a document that extends another. *)
Lemma readTsconfig_extends fuel w p doc w1 e parent w3 cfg w' :
  let key := path.resolve cwd [__dirname; p] in
  let own := default ∅ (compilerOptions doc) in
  require w key = (Ok doc, w1) ->
  extends doc = Some (VStr e) -> e <> [] ->
  readTsconfig __dirname cwd fuel (store key (with_options doc own) w1)
    (path.resolve cwd [path.dirname p; e]) = (Ok parent, w3) ->
  readTsconfig __dirname cwd (S fuel) w p = (Ok cfg, w') ->
  forall k,
    default ∅ (compilerOptions cfg) !! k =
    resolved_option cwd (path.dirname p) k
      (match own !! k with
       | Some v => Some v
       | None => default ∅ (compilerOptions parent) !! k
       end).
Proof.
  intros key own Hreq Hext He Hparent Hread k.
  cbn [readTsconfig] in Hread. fold key in Hread.
  rewrite Hreq, Hext in Hread. fold own in Hread.
  assert (truthy (VStr e) = true) as Ht
    by (cbn [truthy]; apply negb_true_iff; now apply str_eqb_neq).
  rewrite Ht, Hparent in Hread.
  apply resolve_dirs_lookup in Hread as (options' & -> & _ & Hk).
  cbn [default]. rewrite Hk. f_equal.
  rewrite lookup_union. now destruct (own !! k), (_ !! k).
Qed.


(** *** What [readTsconfig] leaves alone *)

Lemma store_frame key d w :
  files (store key d w) = files w /\ console (store key d w) = console w /\
  configs (store key d w) = configs w /\ locked (store key d w) = locked w.
Proof. unfold store. now destruct (path_cache w !! key). Qed.

Lemma store_disk key d w :
  unparseable (store key d w) = unparseable w /\
  path_cache (store key d w) = path_cache w.
Proof. unfold store. now destruct (path_cache w !! key). Qed.

Lemma require_frame w key r w1 :
  require w key = (r, w1) ->
  files w1 = files w /\ console w1 = console w /\
  configs w1 = configs w /\ locked w1 = locked w.
Proof.
  unfold require. intros H.
  destruct (find_path w key) as [f|]; [|now injection H as <- <-].
  destruct (require_cache w !! f); [now injection H as <- <-|].
  destruct (configs w !! f); now injection H as <- <-.
Qed.

Lemma resolve_dirs_frame key tsConfigDir doc options w r w1 :
  resolve_dirs cwd key tsConfigDir doc options w = (r, w1) ->
  files w1 = files w /\ console w1 = console w /\
  configs w1 = configs w /\ locked w1 = locked w.
Proof.
  unfold resolve_dirs. intros H.
  destruct (resolve_prop cwd tsConfigDir options (js "outDir")) as [o1|];
    [|now injection H as <- <-].
  pose proof (store_frame key (with_options doc o1) w) as (A1 & A2 & A3 & A4).
  destruct (resolve_prop cwd tsConfigDir _ (js "rootDir")) as [o2|];
    injection H as <- <-; [|easy].
  pose proof (store_frame key (with_options doc o2)
                (store key (with_options doc o1) w)) as (B1 & B2 & B3 & B4).
  repeat split; congruence.
Qed.

Lemma readTsconfig_frame fuel w p r w1 :
  readTsconfig __dirname cwd fuel w p = (r, w1) ->
  files w1 = files w /\ console w1 = console w /\
  configs w1 = configs w /\ locked w1 = locked w.
Proof.
  revert w p r w1. induction fuel as [|fuel IH]; intros w p r w1 H.
  - now injection H as <- <-.
  - cbn [readTsconfig] in H.
    destruct (require w _) as [[doc|e] w2] eqn:Hreq;
      apply require_frame in Hreq as (F1 & F2 & F3 & F4);
      [|injection H as <- <-; easy].
    set (key := path.resolve cwd [__dirname; p]) in *.
    set (own := default ∅ (compilerOptions doc)) in *.
    pose proof (store_frame key (with_options doc own) w2) as (S1 & S2 & S3 & S4).
    set (w3 := store key (with_options doc own) w2) in *.
    assert (forall r w1 o,
              resolve_dirs cwd key (path.dirname p) doc o w3 = (r, w1) ->
              files w1 = files w /\ console w1 = console w /\
              configs w1 = configs w /\ locked w1 = locked w) as Hdirs.
    { intros r' w' o H'. apply resolve_dirs_frame in H' as (G1 & G2 & G3 & G4).
      repeat split; congruence. }
    destruct (extends doc) as [ext|]; [|now apply Hdirs in H].
    destruct (truthy ext); [|now apply Hdirs in H].
    destruct ext; try (injection H as <- <-; repeat split; congruence).
    destruct (readTsconfig __dirname cwd fuel _ _) as [[parent|e] w4] eqn:Hrec;
      apply IH in Hrec as (G1 & G2 & G3 & G4).
    + apply resolve_dirs_frame in H as (K1 & K2 & K3 & K4).
      match type of K1 with
      | context [store ?k ?d ?w0] =>
          pose proof (store_frame k d w0) as (T1 & T2 & T3 & T4)
      end.
      repeat split; congruence.
    + injection H as <- <-. repeat split; congruence.
Qed.




(** *** What [require] finds *)


Lemma find_path_same w w1 key f :
  find_path w key = Some f ->
  path_cache w1 = <[key := f]> (path_cache w) ->
  configs w1 = configs w -> unparseable w1 = unparseable w ->
  files w1 = files w ->
  forall k, find_path w1 k = find_path w k.
Proof.
  intros Hf Hp Hc Hu Hm k. unfold find_path, is_file in *.
  rewrite Hp, Hc, Hu, Hm. destruct (decide (k = key)) as [->|Hne].
  - rewrite lookup_insert_eq. now rewrite Hf.
  - now rewrite lookup_insert_ne.
Qed.

(** A call of [require] that returns: the world after it holds the
    request and the document in its caches and is otherwise the same;
    every request resolves as before, and every file loads to the same
    document as before. *)
Lemma require_Ok w key doc w1 :
  require w key = (Ok doc, w1) ->
  exists f,
    find_path w key = Some f /\ doc_at w f = Some doc /\
    path_cache w1 !! key = Some f /\
    path_cache w1 = <[key := f]> (path_cache w) /\
    require_cache w1 = <[f := doc]> (require_cache w) /\
    (unparseable w1 = unparseable w /\ files w1 = files w /\
     configs w1 = configs w) /\
    (forall k, find_path w1 k = find_path w k) /\
    (forall g, doc_at w1 g = doc_at w g).
Proof.
  unfold require. intros H.
  destruct (find_path w key) as [f|] eqn:Hf; [|discriminate].
  exists f. split; [reflexivity|].
  assert (doc_at w f = Some doc /\
          path_cache w1 = <[key := f]> (path_cache w) /\
          require_cache w1 = <[f := doc]> (require_cache w) /\
          configs w1 = configs w /\ unparseable w1 = unparseable w /\
          files w1 = files w) as (Hd & Hp & Hr & Hc & Hu & Hm).
  { unfold doc_at. destruct (require_cache w !! f) as [m|] eqn:Em.
    - injection H as <- <-. cbn.
      now rewrite (insert_id (require_cache w) f m Em).
    - destruct (configs w !! f) as [d|] eqn:Ed; [|discriminate].
      now injection H as <- <-. }
  split; [exact Hd|]. split; [now rewrite Hp, lookup_insert_eq|].
  split; [exact Hp|]. split; [exact Hr|]. split; [easy|].
  split; [now apply (find_path_same w w1 key f)|].
  intros g. unfold doc_at in *. rewrite Hr, Hc.
  destruct (decide (g = f)) as [->|Hne].
  - now rewrite lookup_insert_eq.
  - now rewrite lookup_insert_ne.
Qed.

Lemma require_found w key doc :
  lookup_doc w key = Some doc ->
  exists w1, require w key = (Ok doc, w1) /\
             forall k, lookup_doc w1 k = lookup_doc w k.
Proof.
  intros H.
  assert (exists w1, require w key = (Ok doc, w1)) as (w1 & Hreq).
  { unfold lookup_doc, doc_at, require in *.
    destruct (find_path w key) as [f|]; [|discriminate].
    destruct (require_cache w !! f); [injection H as ->; now eexists|].
    rewrite H. now eexists. }
  exists w1. split; [exact Hreq|].
  apply require_Ok in Hreq as (f & _ & _ & _ & _ & _ & _ & Hfind & Hdoc).
  intros k. unfold lookup_doc. rewrite Hfind.
  destruct (find_path w k); [apply Hdoc|reflexivity].
Qed.

Lemma require_lookup w key doc w1 :
  require w key = (Ok doc, w1) -> lookup_doc w key = Some doc.
Proof.
  intros H. apply require_Ok in H as (f & Hf & Hd & _).
  unfold lookup_doc. now rewrite Hf.
Qed.

Lemma find_path_store key d w k : find_path (store key d w) k = find_path w k.
Proof. unfold store. now destruct (path_cache w !! key). Qed.

Lemma doc_at_store key f d w g :
  path_cache w !! key = Some f ->
  doc_at (store key d w) g = if decide (g = f) then Some d else doc_at w g.
Proof.
  intros H. unfold store, doc_at. rewrite H. cbn.
  destruct (decide (g = f)) as [->|Hne].
  - now rewrite lookup_insert_eq.
  - now rewrite lookup_insert_ne.
Qed.

(** The module of a request after an assignment to the module of
    [key]: the requests that resolve to the file of [key] see the new
    module, the others see what they saw. *)
Lemma lookup_doc_store key f d w k :
  path_cache w !! key = Some f ->
  lookup_doc (store key d w) k =
  if decide (find_path w k = Some f) then Some d else lookup_doc w k.
Proof.
  intros H. unfold lookup_doc. rewrite find_path_store.
  destruct (find_path w k) as [g|]; [|now destruct (decide _)].
  rewrite (doc_at_store key f) by exact H.
  destruct (decide (g = f)) as [->|Hne].
  - now destruct (decide _).
  - destruct (decide _) as [E|]; [|reflexivity]. congruence.
Qed.

(** The first assignment of [readTsconfig], which keeps [extends] and
    the options: every request finds a document with the [extends]
    that it had, and [require] throws on the same requests as
    before. *)
Lemma require_then_store w key doc w1 d :
  require w key = (Ok doc, w1) ->
  extends d = extends doc ->
  (forall k, extends <$> lookup_doc (store key d w1) k =
             extends <$> lookup_doc w k) /\
  (forall k, require_error (store key d w1) k = require_error w k) /\
  (default ∅ (compilerOptions d) = default ∅ (compilerOptions doc) ->
   same_docs w (store key d w1)).
Proof.
  intros Hreq He.
  apply require_Ok in Hreq
    as (f & Hf & Hd & Hk & _ & _ & (Hu & Hfs & Hcs) & Hfind & Hdoc).
  assert (forall k,
            lookup_doc (store key d w1) k =
            if decide (find_path w k = Some f) then Some d else lookup_doc w k)
    as Hl.
  { intros k. rewrite (lookup_doc_store key f) by exact Hk. rewrite Hfind.
    destruct (decide _); [reflexivity|]. unfold lookup_doc. rewrite Hfind.
    destruct (find_path w k); [apply Hdoc|reflexivity]. }
  assert (forall k, find_path w k = Some f -> lookup_doc w k = Some doc) as Hsame.
  { intros k E. unfold lookup_doc. now rewrite E. }
  split; [|split].
  - intros k. rewrite Hl. destruct (decide _) as [E|]; [|reflexivity].
    rewrite (Hsame k E). cbn. now rewrite He.
  - intros k. unfold require_error. rewrite find_path_store, Hfind.
    destruct (store_disk key d w1) as (Su & _).
    destruct (store_frame key d w1) as (Sf & _ & Sc & _).
    destruct (find_path w k) as [g|].
    + rewrite (doc_at_store key f) by exact Hk.
      unfold load_error. rewrite Su, Sf, Hu, Hfs, Hdoc.
      destruct (decide (g = f)) as [->|]; [now rewrite Hd|reflexivity].
    + unfold not_found, is_file. now rewrite Su, Sf, Sc, Hu, Hfs, Hcs.
  - intros Ho k. rewrite Hl. destruct (decide _) as [E|].
    + rewrite (Hsame k E). easy.
    + now destruct (lookup_doc w k).
Qed.

Lemma follow_ext w w' n p :
  (forall k, extends <$> lookup_doc w' k = extends <$> lookup_doc w k) ->
  follow __dirname cwd w' n p = follow __dirname cwd w n p.
Proof.
  intros H. revert p. induction n as [|n IH]; intros p; [reflexivity|].
  cbn [follow]. specialize (H (path.resolve cwd [__dirname; p])).
  destruct (lookup_doc w' _) as [d'|], (lookup_doc w _) as [d|];
    try discriminate; [|reflexivity].
  injection H as ->. destruct (extends d) as [[]|]; try reflexivity.
  destruct (truthy _); [apply IH|reflexivity].
Qed.

(** *** A document of the chain that cannot be loaded *)


(** *** The caches and the disk *)

Lemma cache_grows_refl w : cache_grows w w.
Proof. split; [easy|]. intros f m H. now exists m. Qed.

Lemma cache_grows_trans w1 w2 w3 :
  cache_grows w1 w2 -> cache_grows w2 w3 -> cache_grows w1 w3.
Proof.
  intros [P1 M1] [P2 M2]. split.
  - intros k f H. now apply P2, P1.
  - intros f m H. destruct (M1 f m H) as (m' & H' & E').
    destruct (M2 f m' H') as (m'' & H'' & E''). exists m''. split; congruence.
Qed.

Lemma require_grows w key r w1 :
  require w key = (r, w1) -> cache_grows w w1.
Proof.
  unfold require. intros H.
  destruct (find_path w key) as [f|] eqn:Hf;
    [|injection H as <- <-; apply cache_grows_refl].
  assert (forall k g, path_cache w !! k = Some g ->
                      <[key := f]> (path_cache w) !! k = Some g) as Hp.
  { intros k g Hk. destruct (decide (k = key)) as [->|Hne].
    - rewrite lookup_insert_eq. unfold find_path in Hf. rewrite Hk in Hf.
      congruence.
    - now rewrite lookup_insert_ne. }
  destruct (require_cache w !! f) as [m|] eqn:Em.
  - injection H as <- <-. split; [exact Hp|]. intros g m' Hg. now exists m'.
  - destruct (configs w !! f); injection H as <- <-.
    + split; [exact Hp|]. intros g m' Hg. exists m'. split; [|reflexivity].
      cbn. rewrite lookup_insert_ne; [exact Hg|congruence].
    + split; [exact Hp|]. intros g m' Hg. now exists m'.
Qed.

(** An assignment that keeps [extends]. *)
Lemma store_grows key d w m :
  cached_module w key = Some m -> extends d = extends m ->
  cache_grows w (store key d w).
Proof.
  unfold cached_module, store. intros H He.
  destruct (path_cache w !! key) as [f|]; [|discriminate].
  split; [easy|]. intros g m' Hg. cbn.
  destruct (decide (g = f)) as [->|Hne].
  - rewrite lookup_insert_eq. exists d. split; [reflexivity|]. congruence.
  - rewrite lookup_insert_ne by congruence. now exists m'.
Qed.

Lemma cached_module_store key d w m :
  cached_module w key = Some m -> cached_module (store key d w) key = Some d.
Proof.
  unfold cached_module, store. intros H.
  destruct (path_cache w !! key) as [f|] eqn:Hf; [|discriminate].
  cbn. now rewrite Hf, lookup_insert_eq.
Qed.

Lemma cached_module_grows w w' key m :
  cache_grows w w' -> cached_module w key = Some m ->
  exists m', cached_module w' key = Some m' /\ extends m' = extends m.
Proof.
  intros [P M]. unfold cached_module. intros H.
  destruct (path_cache w !! key) as [f|] eqn:Hf; [|discriminate].
  rewrite (P _ _ Hf). now apply M.
Qed.

Lemma require_cached w key doc w1 :
  require w key = (Ok doc, w1) -> cached_module w1 key = Some doc.
Proof.
  intros H. apply require_Ok in H as (f & _ & _ & Hk & _ & Hr & _).
  unfold cached_module. now rewrite Hk, Hr, lookup_insert_eq.
Qed.

Lemma resolve_dirs_grows key tsConfigDir doc options w r w1 m :
  cached_module w key = Some m -> extends m = extends doc ->
  resolve_dirs cwd key tsConfigDir doc options w = (r, w1) ->
  cache_grows w w1 /\
  match r with
  | Ok cfg => cached_module w1 key = Some cfg
  | Throw _ => True
  end.
Proof.
  intros Hm He. unfold resolve_dirs. intros H.
  destruct (resolve_prop cwd tsConfigDir options (js "outDir")) as [o1|];
    [|injection H as <- <-; split; [apply cache_grows_refl|exact I]].
  pose proof (store_grows key (with_options doc o1) w m Hm (eq_sym He)) as G1.
  pose proof (cached_module_store key (with_options doc o1) w m Hm) as C1.
  destruct (resolve_prop cwd tsConfigDir _ (js "rootDir")) as [o2|];
    injection H as <- <-; [|split; [exact G1|exact I]].
  split.
  - apply (cache_grows_trans _ _ _ G1).
    now apply (store_grows key _ _ (with_options doc o1)).
  - now apply (cached_module_store key _ _ (with_options doc o1)).
Qed.

(** [readTsconfig] only adds to the caches, and a configuration that
    it returns is in them, as returned. *)
Lemma readTsconfig_grows fuel w p r w1 :
  readTsconfig __dirname cwd fuel w p = (r, w1) ->
  cache_grows w w1 /\
  match r with
  | Ok cfg => cached_module w1 (path.resolve cwd [__dirname; p]) = Some cfg
  | Throw _ => True
  end.
Proof.
  revert w p r w1. induction fuel as [|fuel IH]; intros w p r w1 H.
  - injection H as <- <-. split; [apply cache_grows_refl|exact I].
  - cbn [readTsconfig] in H.
    set (key := path.resolve cwd [__dirname; p]) in *.
    destruct (require w key) as [[doc|e] w2] eqn:Hreq;
      [|injection H as <- <-; split; [now apply require_grows in Hreq|exact I]].
    pose proof (require_grows _ _ _ _ Hreq) as G1.
    pose proof (require_cached _ _ _ _ Hreq) as C1.
    set (own := default ∅ (compilerOptions doc)) in *.
    pose proof (store_grows key (with_options doc own) w2 doc C1 eq_refl) as G2.
    pose proof (cached_module_store key (with_options doc own) w2 doc C1) as C2.
    set (w3 := store key (with_options doc own) w2) in *.
    assert (cache_grows w w3) as G3 by now apply (cache_grows_trans _ w2).
    assert (forall o,
              resolve_dirs cwd key (path.dirname p) doc o w3 = (r, w1) ->
              cache_grows w w1 /\
              match r with
              | Ok cfg => cached_module w1 key = Some cfg
              | Throw _ => True
              end) as Hdirs.
    { intros o H'.
      apply (resolve_dirs_grows key _ doc o w3 r w1 _ C2 eq_refl) in H'
        as [G4 C4].
      split; [now apply (cache_grows_trans _ w3)|exact C4]. }
    destruct (extends doc) as [ext|]; [|now apply Hdirs in H].
    destruct (truthy ext); [|now apply Hdirs in H].
    destruct ext; try (injection H as <- <-; split; [exact G3|exact I]).
    destruct (readTsconfig __dirname cwd fuel w3 _) as [[parent|e] w4] eqn:Hrec;
      apply IH in Hrec as [G4 _].
    + destruct (cached_module_grows w3 w4 key _ G4 C2) as (m4 & C4 & E4).
  cbn [extends with_options] in E4.
      pose proof (store_grows key
                    (with_options doc (own ∪ default ∅ (compilerOptions parent)))
                    w4 m4 C4 (eq_sym E4)) as G5.
      pose proof (cached_module_store key
                    (with_options doc (own ∪ default ∅ (compilerOptions parent)))
                    w4 m4 C4) as C5.
      apply (resolve_dirs_grows key _ doc _ _ r w1 _ C5 eq_refl) in H as [G6 C6].
      split; [|exact C6].
      apply (cache_grows_trans _ w3 _ G3), (cache_grows_trans _ w4 _ G4).
      now apply (cache_grows_trans _ _ _ G5).
    + injection H as <- <-. split; [|exact I].
      now apply (cache_grows_trans _ w3).
Qed.

(** After a resolution the document is in the cache, as returned. *)
Lemma readTsconfig_caches fuel w p cfg w1 :
  readTsconfig __dirname cwd fuel w p = (Ok cfg, w1) ->
  cached_module w1 (path.resolve cwd [__dirname; p]) = Some cfg.
Proof. intros H. now apply readTsconfig_grows in H as [_ H]. Qed.

Lemma warm_grows w w' n p :
  cache_grows w w' ->
  warm __dirname cwd w n p = true -> warm __dirname cwd w' n p = true.
Proof.
  intros G. revert p. induction n as [|n IH]; intros p H; cbn [warm] in *;
    destruct (cached_module w _) as [m|] eqn:Hm; try discriminate;
    destruct (cached_module_grows _ _ _ _ G Hm) as (m' & -> & ->);
    destruct (extends m) as [[| | |e| |]|]; try reflexivity;
    destruct (truthy (VStr e)); try reflexivity; try discriminate.
  now apply IH.
Qed.

(** After a resolution that returns, the whole chain is in the
    caches. *)
Lemma readTsconfig_warms fuel w p cfg w1 :
  readTsconfig __dirname cwd fuel w p = (Ok cfg, w1) ->
  warm __dirname cwd w1 fuel p = true.
Proof.
  revert w p cfg w1. induction fuel as [|fuel IH]; intros w p cfg w1 H;
    [discriminate|].
  pose proof (readTsconfig_caches _ _ _ _ _ H) as Hc.
  cbn [readTsconfig] in H.
  set (key := path.resolve cwd [__dirname; p]) in *.
  destruct (require w key) as [[doc|e] w2] eqn:Hreq; [|discriminate].
  pose proof (require_cached _ _ _ _ Hreq) as C1.
  set (own := default ∅ (compilerOptions doc)) in *.
  pose proof (cached_module_store key (with_options doc own) w2 doc C1) as C2.
  set (w3 := store key (with_options doc own) w2) in *.
  assert (forall o w0,
            resolve_dirs cwd key (path.dirname p) doc o w0 = (Ok cfg, w1) ->
            extends cfg = extends doc) as Hx.
  { intros o w0 H'. now apply resolve_dirs_lookup in H' as (o' & _ & E & _). }
  cbn [warm]. fold key. rewrite Hc.
  destruct (extends doc) as [ext|] eqn:Hext;
    [|now rewrite (Hx _ _ H)].
  destruct (truthy ext) eqn:Ht.
  2:{ rewrite (Hx _ _ H). destruct ext; try reflexivity. now rewrite Ht. }
  destruct ext as [| | |e| |]; try discriminate.
  destruct (readTsconfig __dirname cwd fuel w3 _) as [[parent|err] w4] eqn:Hrec;
    [|discriminate].
  rewrite (Hx _ _ H), Ht.
  pose proof (IH _ _ _ _ Hrec) as Hw.
  apply readTsconfig_grows in Hrec as [G4 _].
  destruct (cached_module_grows w3 w4 key _ G4 C2) as (m4 & C4 & E4).
  cbn [extends with_options] in E4.
  pose proof (store_grows key
                (with_options doc (own ∪ default ∅ (compilerOptions parent)))
                w4 m4 C4 (eq_sym E4)) as G5.
  pose proof (cached_module_store key
                (with_options doc (own ∪ default ∅ (compilerOptions parent)))
                w4 m4 C4) as C5.
  apply (resolve_dirs_grows key _ doc _ _ _ w1 _ C5 eq_refl) in H as [G6 _].
  apply (warm_grows w4); [|exact Hw].
  now apply (cache_grows_trans _ _ _ G5).
Qed.

Lemma require_warm w key doc :
  cached_module w key = Some doc -> require w key = (Ok doc, w).
Proof.
  unfold cached_module, require, find_path. intros H.
  destruct (path_cache w !! key) as [f|] eqn:Hf; [|discriminate].
  rewrite H, insert_id by exact Hf. now destruct w.
Qed.

Lemma cached_module_set_configs disk' w key :
  cached_module (set_configs disk' w) key = cached_module w key.
Proof. reflexivity. Qed.

Lemma store_set_configs disk' key d w :
  store key d (set_configs disk' w) = set_configs disk' (store key d w).
Proof.
  unfold store. cbn [path_cache set_configs].
  now destruct (path_cache w !! key).
Qed.

Lemma resolve_dirs_fst key tsConfigDir doc options w w' :
  fst (resolve_dirs cwd key tsConfigDir doc options w) =
  fst (resolve_dirs cwd key tsConfigDir doc options w').
Proof.
  unfold resolve_dirs.
  destruct (resolve_prop cwd tsConfigDir options (js "outDir")); [|reflexivity].
  now destruct (resolve_prop cwd tsConfigDir _ (js "rootDir")).
Qed.

(** A chain that is in the caches is resolved without the disk. *)
Lemma readTsconfig_cached_disk n fuel w p disk' :
  warm __dirname cwd w n p = true ->
  fst (readTsconfig __dirname cwd fuel (set_configs disk' w) p) =
  fst (readTsconfig __dirname cwd fuel w p).
Proof.
  revert n w p. induction fuel as [|fuel IH]; intros n w p H; [reflexivity|].
  cbn [readTsconfig].
  set (key := path.resolve cwd [__dirname; p]) in *.
  assert (exists doc, cached_module w key = Some doc) as (doc & Hc).
  { destruct n; cbn [warm] in H; fold key in H;
      destruct (cached_module w key) as [doc|]; try discriminate; now exists doc. }
  rewrite (require_warm w key doc Hc).
  rewrite (require_warm (set_configs disk' w) key doc)
    by now rewrite cached_module_set_configs.
  rewrite store_set_configs.
  set (own := default ∅ (compilerOptions doc)).
  set (w2 := store key (with_options doc own) w).
  destruct (extends doc) as [ext|] eqn:Hext; [|apply resolve_dirs_fst].
  destruct (truthy ext) eqn:Ht; [|apply resolve_dirs_fst].
  destruct ext as [| | |e| |]; try reflexivity.
  assert (warm __dirname cwd w2 (pred n) (path.resolve cwd [path.dirname p; e])
          = true) as Hw.
  { apply (warm_grows w); [now apply (store_grows key _ w doc)|].
    destruct n; cbn [warm] in H; fold key in H; rewrite Hc, Hext, Ht in H;
      [discriminate|exact H]. }
  pose proof (IH _ _ _ Hw) as Hrec.
  destruct (readTsconfig __dirname cwd fuel (set_configs disk' w2) _)
    as [[parent'|e'] w3'],
    (readTsconfig __dirname cwd fuel w2 _) as [[parent|e0] w3];
    cbn [fst] in Hrec; try discriminate; [|exact Hrec].
  injection Hrec as ->. apply resolve_dirs_fst.
Qed.

End ReadTsconfig.

(** * The units of work of [inlineResources] *)

Section Units.

Variable cwd : str.
Variable rootDir : result str.
Variable outDir : str.

Implicit Types (w : world) (f filePath : str) (l : list str).




Lemma unit_of_work_fulfilled w f :
  fst (unit_of_work cwd rootDir outDir w f) = Ok tt.
Proof. unfold unit_of_work. now destruct (file_chain _ _ _ _ _). Qed.

(** The promise of [Promise.all] is fulfilled, whatever the units
    met. *)
Lemma promise_all_fulfilled w l :
  fst (promise_all (unit_of_work cwd rootDir outDir) w l) = Ok tt.
Proof.
  revert w. induction l as [|f l IH]; intros w; [reflexivity|].
  cbn [promise_all].
  pose proof (unit_of_work_fulfilled w f) as H1.
  destruct (unit_of_work cwd rootDir outDir w f) as [p1 w1].
  specialize (IH w1). destruct (promise_all _ w1 l) as [ps w2].
  cbn [fst] in *. now rewrite H1, IH.
Qed.

Lemma promise_all_app (u : world -> str -> result unit * world) w l1 l2 :
  snd (promise_all u w (l1 ++ l2)) =
  snd (promise_all u (snd (promise_all u w l1)) l2).
Proof.
  revert w. induction l1 as [|f l1 IH]; intros w; [reflexivity|].
  cbn [app promise_all]. destruct (u w f) as [p1 w1].
  specialize (IH w1).
  destruct (promise_all u w1 (l1 ++ l2)), (promise_all u w1 l1).
  exact IH.
Qed.




End Units.

(** * The claims of the specification *)

(** Claim C1, as amended.  [inlineTemplate] replaces a matched declaration
    [templateUrl: '<name>.html'] by [template: ] and, between double
    quotes, the content of the resolved file in which every line break
    together with the white space after it has become one blank (white
    space in front of the line break stays) and every double quote has a
    backslash in front: no line break and no bare double quote is left
    in the inlined text.  The text after the declaration is treated in
    the same way. *)
Theorem inlineTemplate_inlines_normalized
    (fs : gmap str str) (resolver : str -> result str)
    (pre w name post templateFile templateContent : str) :
  occurs (js "templateUrl:") pre = false ->
  forallb is_space w = true ->
  name <> [] ->
  forallb not_squote name = true ->
  resolver (name ++ js ".html") = Ok templateFile ->
  fs !! templateFile = Some templateContent ->
  let inlined := escape_quotes (collapse_breaks false templateContent) in
  inlineTemplate fs
    (pre ++ js "templateUrl:" ++ w ++ [SQUOTE] ++ name ++ js ".html" ++
     [SQUOTE] ++ post) resolver =
  (let* rest := inlineTemplate fs post resolver in
   Ok (pre ++ js "template: " ++ [DQUOTE] ++ inlined ++ [DQUOTE] ++ rest)) /\
  forallb (fun x => negb (is_break x)) inlined = true /\
  quotes_escaped false inlined = true.
Proof.
  intros Hpre Hw Hne Hname Hres Hfs inlined. unfold inlined. split.
  - rewrite <- shorten_spec.
    now apply (inlineTemplate_at _ _ _ _ _ _ templateFile).
  - split; [|apply escape_quotes_escaped].
    apply escape_quotes_no_break, collapse_breaks_no_break.
Qed.

(** The example of the claim. *)
Lemma inlineTemplate_inlines_normalized_witness :
  inlineTemplate
    {[ js "a.html" := js "<div>" ++ [LF] ++ js "  Hi" ++ [LF] ++ js "</div>" ]}
    (js "templateUrl: 'a.html'") Ok =
  Ok (js "template: " ++ [DQUOTE] ++ js "<div> Hi </div>" ++ [DQUOTE]).
Proof.
  change (js "templateUrl: 'a.html'")
    with ([] ++ js "templateUrl:" ++ [SP] ++ [SQUOTE] ++ js "a" ++
          js ".html" ++ [SQUOTE] ++ []).
  rewrite (proj1 (inlineTemplate_inlines_normalized
                    {[ js "a.html" :=
                         js "<div>" ++ [LF] ++ js "  Hi" ++ [LF] ++ js "</div>" ]}
                    Ok [] [SP] (js "a") [] (js "a.html")
                    (js "<div>" ++ [LF] ++ js "  Hi" ++ [LF] ++ js "</div>")
                    eq_refl eq_refl ltac:(discriminate) eq_refl eq_refl
                    ltac:(vm_compute; reflexivity))).
  vm_compute. reflexivity.
Defined.

(** Blanks in front of a line break stay: the run of white space made
    of a blank and a line feed becomes two blanks, where the reading of
    the specification gives one. *)
Lemma inlineTemplate_keeps_blank_before_break :
  let content := js "a " ++ [LF] ++ js "b" in
  inlineTemplate {[ js "a.html" := content ]} (js "templateUrl: 'a.html'") Ok =
    Ok (js "template: " ++ [DQUOTE] ++ js "a  b" ++ [DQUOTE]) /\
  escape_quotes (collapse_runs None content) = js "a b" /\
  js "a  b" <> js "a b".
Proof. vm_compute. repeat split; discriminate. Qed.

(** Claim C8, as amended.  A [templateUrl] declaration is not matched
    when, after the white space, it opens with something other than a
    single quote, or when the text between the opening single quote and
    the next single quote is not a name followed by [.html]; content in
    which this is the only [templateUrl:] passes through unchanged.  (A
    double quote inside a single-quoted path does not prevent the match,
    and a single quote that directly follows [<name>.html] ends it.) *)
Theorem inlineTemplate_skips_other_quoting
    (fs : gmap str str) (resolver : str -> result str)
    (pre w : str) (d : char) (rest : str) :
  occurs (js "templateUrl:") pre = false ->
  occurs (js "templateUrl:") (w ++ d :: rest) = false ->
  forallb is_space w = true ->
  is_space d = false ->
  (N.eqb d 39 = false \/
   exists p1 rest',
     rest = p1 ++ SQUOTE :: rest' /\ forallb not_squote p1 = true /\
     ends_html p1 = false) ->
  match_here re_templateUrl (js "templateUrl:" ++ w ++ d :: rest) = None /\
  inlineTemplate fs (pre ++ js "templateUrl:" ++ w ++ d :: rest) resolver =
  Ok (pre ++ js "templateUrl:" ++ w ++ d :: rest).
Proof.
  intros Hpre Hpost Hw Hd Hcase.
  assert (match_here re_templateUrl (js "templateUrl:" ++ w ++ d :: rest) = None)
    as Hmiss by now apply templateUrl_miss.
  split; [exact Hmiss|].
  apply replace_no_match. intros a t E.
  destruct (is_prefix (js "templateUrl:") t) eqn:Ht.
  - rewrite (occurs_unique _ pre (w ++ d :: rest) (proj1 templateUrl_literal)
               Hpre Hpost a t E Ht).
    exact Hmiss.
  - now apply seq_lit_miss.
Qed.

(** A path between double quotes, and a path with a single quote in
    it. *)
Lemma inlineTemplate_skips_other_quoting_witness :
  (* a double-quoted path *)
  inlineTemplate ∅ (js "a, templateUrl: " ++ [DQUOTE] ++ js "a.html" ++ [DQUOTE])
    Ok =
  Ok (js "a, templateUrl: " ++ [DQUOTE] ++ js "a.html" ++ [DQUOTE]) /\
  (* a single quote inside the path *)
  inlineTemplate ∅ (js "templateUrl: 'it's.html'") Ok =
  Ok (js "templateUrl: 'it's.html'").
Proof.
  split.
  - apply (inlineTemplate_skips_other_quoting ∅ Ok (js "a, ") [SP] DQUOTE
             (js "a.html" ++ [DQUOTE])).
    + reflexivity.
    + reflexivity.
    + reflexivity.
    + reflexivity.
    + left. reflexivity.
  - apply (inlineTemplate_skips_other_quoting ∅ Ok [] [SP] SQUOTE
             (js "it's.html'")).
    + reflexivity.
    + reflexivity.
    + reflexivity.
    + reflexivity.
    + right. exists (js "it"), (js "s.html'"). repeat split; reflexivity.
Defined.

(** A single-quoted path that contains a double quote is matched and
    inlined. *)
Lemma inlineTemplate_matches_double_quote_in_path :
  let path := js "a" ++ [DQUOTE] ++ js "b.html" in
  let content := js "templateUrl: '" ++ path ++ js "'" in
  DQUOTE ∈ path /\
  inlineTemplate {[ path := js "X" ]} content Ok =
    Ok (js "template: " ++ [DQUOTE] ++ js "X" ++ [DQUOTE]) /\
  inlineTemplate {[ path := js "X" ]} content Ok <> Ok content.
Proof.
  vm_compute. split; [|split; [reflexivity|discriminate]].
  apply list_elem_of_In. right. left. reflexivity.
Qed.






(** Claim C10.  The white space in front of a marker is removed with
    it, so that the text before the marker and the text after it become
    adjacent; the text before is unchanged, and so is the text after
    when it holds no further marker. *)
Theorem removeModuleId_joins_neighbours (pre : str) (m : marker) (post : str) :
  occurs (js "moduleId:") pre = false ->
  ends_with_space pre = false ->
  marker_ok m = true ->
  may_follow m post = true ->
  removeModuleId (pre ++ marker_text m ++ post) = pre ++ removeModuleId post /\
  (occurs (js "moduleId:") post = false ->
   removeModuleId (pre ++ marker_text m ++ post) = pre ++ post).
Proof.
  intros Hpre Hend Hok Hpost.
  rewrite removeModuleId_at by assumption. split; [reflexivity|].
  intros Hnone. now rewrite removeModuleId_none.
Qed.

(** A marker on a line of its own, the last property of its object. *)
Lemma removeModuleId_joins_neighbours_witness :
  removeModuleId
    (js "selector: 'x'," ++ [LF] ++ js "    moduleId: module.id" ++ [LF] ++
     js "})") =
  js "selector: 'x',})".
Proof.
  exact (proj2 (removeModuleId_joins_neighbours (js "selector: 'x',")
                  {| lead := [LF] ++ js "    "; gap := js " "; trail := [LF];
                     comma := None |}
                  (js "})") eq_refl eq_refl eq_refl eq_refl) eq_refl).
Defined.

(** Claim C5.  Content in which none of the three expressions matches
    anywhere comes back from [inlineResourcesFromString] unchanged, so
    that running the function again on its output gives that output
    again. *)
Theorem inlineResourcesFromString_without_match
    (fs : gmap str str) (resolver : str -> result str) (content : str) :
  has_match re_templateUrl content = false ->
  has_match re_styleUrls content = false ->
  has_match re_moduleId content = false ->
  inlineResourcesFromString fs content resolver = Ok content /\
  (let* once := inlineResourcesFromString fs content resolver in
   inlineResourcesFromString fs once resolver) =
  inlineResourcesFromString fs content resolver.
Proof.
  intros Ht Hs Hm.
  assert (inlineResourcesFromString fs content resolver = Ok content) as H.
  { unfold inlineResourcesFromString. cbn [foldl bind].
    unfold inlineTemplate. rewrite replace_no_match by now apply has_match_false.
    cbn [bind]. unfold inlineStyle.
    rewrite replace_no_match by now apply has_match_false.
    cbn [bind]. unfold removeModuleId.
    now rewrite replace_const_no_match by now apply has_match_false. }
  split; [exact H|]. rewrite H. cbn [bind]. exact H.
Qed.

(** Content that has been inlined already. *)
Lemma inlineResourcesFromString_without_match_witness :
  inlineResourcesFromString ∅
    (js "template: " ++ [DQUOTE] ++ js "<b>Hi</b>" ++ [DQUOTE] ++
     js ", styles: []") Ok =
  Ok (js "template: " ++ [DQUOTE] ++ js "<b>Hi</b>" ++ [DQUOTE] ++
      js ", styles: []").
Proof.
  exact (proj1 (inlineResourcesFromString_without_match ∅ Ok
                  (js "template: " ++ [DQUOTE] ++ js "<b>Hi</b>" ++ [DQUOTE] ++
                   js ", styles: []")
                  eq_refl eq_refl eq_refl)).
Defined.

(** Claim C4, as amended.  For a document that extends another, every
    option that the child declares, whatever its name, overrides the
    parent's, and the parent's options are inherited for the names that
    the child does not declare (a shallow merge); then [outDir] and
    [rootDir], when they hold a non-empty string, are resolved against
    the directory of the child. *)
Theorem readTsconfig_merges_shallowly
    (__dirname cwd : str) (fuel : nat) (w : world) (p : str)
    (doc : tsconfig) (w1 : world) (e : str) (parent : tsconfig)
    (w3 : world) (cfg : tsconfig) (w' : world) :
  let key := path.resolve cwd [__dirname; p] in
  let own := default ∅ (compilerOptions doc) in
  require w key = (Ok doc, w1) ->
  extends doc = Some (VStr e) -> e <> [] ->
  readTsconfig __dirname cwd fuel (store key (with_options doc own) w1)
    (path.resolve cwd [path.dirname p; e]) = (Ok parent, w3) ->
  readTsconfig __dirname cwd (S fuel) w p = (Ok cfg, w') ->
  forall k,
    default ∅ (compilerOptions cfg) !! k =
    resolved_option cwd (path.dirname p) k
      (match own !! k with
       | Some v => Some v
       | None => default ∅ (compilerOptions parent) !! k
       end).
Proof. apply readTsconfig_extends. Qed.

(** The example of the claim: the child declares only [outDir], the base
    [rootDir] and [outDir]. *)
Lemma readTsconfig_merges_shallowly_witness :
  let r := readTsconfig (js "/tool") (js "/") 2 example_world
             (js "/proj/app/tsconfig.json") in
  resolved r (js "rootDir") = Some (VStr (js "/proj/src")) /\
  resolved r (js "outDir") = Some (VStr (js "/proj/app/dist")).
Proof.
  set (p := js "/proj/app/tsconfig.json").
  set (key := path.resolve (js "/") [js "/tool"; p]).
  set (w1 := snd (require example_world key)).
  set (w2 := store key (with_options example_child
                          (default ∅ (compilerOptions example_child))) w1).
  set (rp := readTsconfig (js "/tool") (js "/") 1 w2
               (path.resolve (js "/") [path.dirname p; js "../base.json"])).
  intros r.
  let v := eval vm_compute in rp in
  let vr := eval vm_compute in r in
  match constr:((v, vr)) with
  | ((Ok ?parent, ?w3), (Ok ?cfg, ?w')) =>
      assert (rp = (Ok parent, w3)) as Hp by (vm_compute; reflexivity);
      assert (r = (Ok cfg, w')) as Hr by (vm_compute; reflexivity);
      pose proof (readTsconfig_merges_shallowly (js "/tool") (js "/") 1
                    example_world p example_child w1 (js "../base.json")
                    parent w3 cfg w' ltac:(vm_compute; reflexivity) eq_refl
                    ltac:(discriminate) Hp Hr)
        as H
  end.
  unfold resolved. rewrite Hr. cbn [fst]. rewrite !H.
  vm_compute. split; reflexivity.
Defined.

(** A child that declares [target], which is neither [rootDir] nor
    [outDir], over a base that declares it too: the value of the child
    wins. *)
Lemma readTsconfig_child_overrides_other_option :
  is_dir_option (js "target") = false /\
  resolved (readTsconfig (js "/tool") (js "/") 2 target_world
              (js "/proj/base.json")) (js "target") =
    Some (VStr (js "es2015")) /\
  resolved (readTsconfig (js "/tool") (js "/") 2 target_world
              (js "/proj/tsconfig.json")) (js "target") =
    Some (VStr (js "es5")).
Proof. vm_compute. repeat split; reflexivity. Qed.






(** Claim C9, as amended.  Configuration resolution goes through the
    module cache of [require]: a resolution leaves the document in the
    cache, as returned, and a later resolution of the same path does not
    read again what is cached: its result is the same whatever the disk
    then holds at the cached file names. *)
Theorem readTsconfig_reads_disk_once
    (__dirname cwd : str) (fuel fuel' : nat) (w : world) (p : str)
    (cfg : tsconfig) (w1 : world) (disk' : gmap str tsconfig) :
  readTsconfig __dirname cwd fuel w p = (Ok cfg, w1) ->
  agree w1 disk' ->
  cached_module w1 (path.resolve cwd [__dirname; p]) = Some cfg /\
  fst (readTsconfig __dirname cwd fuel' (set_configs disk' w1) p) =
  fst (readTsconfig __dirname cwd fuel' w1 p).
Proof.
  intros Hr _. split.
  - now apply (readTsconfig_caches __dirname cwd fuel w).
  - apply (readTsconfig_cached_disk __dirname cwd fuel).
    now apply (readTsconfig_warms __dirname cwd fuel w p cfg).
Qed.

(** A configuration that changes on disk after it has been resolved. *)
Lemma readTsconfig_reads_disk_once_witness :
  resolved (readTsconfig (js "/tool") (js "/") 2
              (set_configs second_disk after_first_resolution)
              (js "/proj/tsconfig.json")) (js "outDir") =
  resolved (readTsconfig (js "/tool") (js "/") 2 after_first_resolution
              (js "/proj/tsconfig.json")) (js "outDir").
Proof.
  let vr := eval vm_compute in
              (readTsconfig (js "/tool") (js "/") 2 (fresh_world first_disk)
                 (js "/proj/tsconfig.json")) in
  match vr with
  | (Ok ?cfg, ?w1) =>
      destruct (readTsconfig_reads_disk_once (js "/tool") (js "/") 2 2
                  (fresh_world first_disk) (js "/proj/tsconfig.json") cfg
                  after_first_resolution second_disk
                  ltac:(vm_compute; reflexivity)) as [Hcached Hsame]
  end.
  - intros k Hk. unfold second_disk.
    destruct (decide (k = js "/proj/tsconfig.json")) as [->|Hne].
    + vm_compute in Hk. discriminate.
    + rewrite lookup_singleton_ne by congruence.
      change (configs after_first_resolution) with first_disk.
      unfold first_disk. now rewrite lookup_singleton_ne by congruence.
  - unfold resolved. now rewrite Hsame.
Defined.

(** The same configuration resolved again after the disk has changed:
    the result is still that of the first resolution, not what a
    resolution from the disk gives. *)
Lemma readTsconfig_returns_cached_config :
  resolved (readTsconfig (js "/tool") (js "/") 2
              (set_configs second_disk after_first_resolution)
              (js "/proj/tsconfig.json")) (js "outDir") =
    Some (VStr (js "/proj/dist")) /\
  resolved (readTsconfig (js "/tool") (js "/") 2 (fresh_world second_disk)
              (js "/proj/tsconfig.json")) (js "outDir") =
    Some (VStr (js "/proj/build")).
Proof. vm_compute. split; reflexivity. Qed.

(** * Further properties of the code *)

(** ** Paths in normal form *)

Section Paths.

Implicit Types (p q seg : str) (segs stack : list str) (b : bool).

Lemma split_not_nil p : path.split p <> [].
Proof.
  destruct p as [|c p]; [discriminate|]. cbn [path.split].
  destruct (N.eqb c 47); [discriminate|]. now destruct (path.split p).
Qed.

Lemma split_app p q :
  path.split (p ++ SLASH :: q) = path.split p ++ path.split q.
Proof.
  induction p as [|c p IH]; [reflexivity|].
  cbn [app path.split]. rewrite IH.
  destruct (N.eqb c 47); [reflexivity|].
  pose proof (split_not_nil p). now destruct (path.split p).
Qed.

Lemma split_no_slash seg : no_slash seg = true -> path.split seg = [seg].
Proof.
  induction seg as [|c seg IH]; intros H; [reflexivity|].
  cbn [no_slash forallb] in H. apply andb_true_iff in H as [Hc H].
  cbn [path.split]. apply negb_true_iff in Hc. rewrite Hc.
  now rewrite (IH H).
Qed.

Lemma split_segments p : forallb no_slash (path.split p) = true.
Proof.
  induction p as [|c p IH]; [reflexivity|]. cbn [path.split].
  destruct (N.eqb c 47) eqn:Hc; [exact IH|].
  pose proof (split_not_nil p). destruct (path.split p) as [|seg segs]; [easy|].
  cbn [forallb no_slash] in *. now rewrite Hc.
Qed.

Lemma split_join segs :
  forallb no_slash segs = true -> segs <> [] ->
  path.split (join [SLASH] segs) = segs.
Proof.
  induction segs as [|seg segs IH]; intros H Hne; [congruence|].
  cbn [forallb] in H. apply andb_true_iff in H as [Hs H].
  destruct segs as [|seg' segs]; [now apply split_no_slash|].
  change (join [SLASH] (seg :: seg' :: segs))
    with (seg ++ SLASH :: join [SLASH] (seg' :: segs)).
  rewrite split_app, split_no_slash by exact Hs.
  now rewrite IH.
Qed.

Lemma is_name_no_slash seg : is_name seg = true -> no_slash seg = true.
Proof.
  unfold is_name. intros H.
  now repeat (apply andb_true_iff in H as [H ?]).
Qed.

Lemma is_name_not_nil seg : is_name seg = true -> seg <> [].
Proof.
  unfold is_name. intros H. repeat (apply andb_true_iff in H as [H ?]).
  apply negb_true_iff in H. now apply str_eqb_neq in H.
Qed.

Lemma names_no_slash segs :
  forallb is_name segs = true -> forallb no_slash segs = true.
Proof.
  induction segs as [|seg segs IH]; [reflexivity|]. cbn [forallb].
  intros H. apply andb_true_iff in H as [Hs H].
  now rewrite (is_name_no_slash _ Hs), IH.
Qed.

(** [normalizeString] keeps the names and drops what it skips. *)
Lemma push_name b stack seg :
  is_name seg = true -> path.push_segment b stack seg = seg :: stack.
Proof.
  unfold is_name, path.push_segment. intros H.
  repeat (apply andb_true_iff in H as [H ?]).
  apply negb_true_iff in H.
  repeat match goal with
         | H : negb _ = true |- _ => apply negb_true_iff in H
         end.
  now repeat match goal with
             | H : path.str_eqb _ _ = false |- _ => rewrite H; clear H
             end.
Qed.

Lemma push_skipped b stack seg :
  is_skipped seg = true -> path.push_segment b stack seg = stack.
Proof. unfold is_skipped, path.push_segment. now intros ->. Qed.

Lemma is_name_not_skipped seg : is_name seg = true -> is_skipped seg = false.
Proof.
  unfold is_name, is_skipped. intros H.
  repeat (apply andb_true_iff in H as [H ?]).
  repeat match goal with
         | H : negb _ = true |- _ => apply negb_true_iff in H
         end.
  apply orb_false_iff. split; assumption.
Qed.

Lemma is_skipped_not_name seg : is_skipped seg = true -> is_name seg = false.
Proof.
  intros H. destruct (is_name seg) eqn:E; [|reflexivity].
  apply is_name_not_skipped in E. congruence.
Qed.

Lemma foldl_push b stack segs :
  forallb (fun seg => is_name seg || is_skipped seg) segs = true ->
  foldl (path.push_segment b) stack segs = rev (List.filter is_name segs) ++ stack.
Proof.
  revert stack. induction segs as [|seg segs IH]; intros stack H; [reflexivity|].
  cbn [forallb] in H. apply andb_true_iff in H as [Hs H].
  cbn [foldl List.filter]. destruct (is_name seg) eqn:En.
  - rewrite push_name, IH by assumption. cbn [rev]. now rewrite <- app_assoc.
  - cbn [orb] in Hs. now rewrite push_skipped, IH.
Qed.

Lemma normalize_segments_plain b p :
  plain p = true -> path.normalize_segments b p = names p.
Proof.
  intros H. unfold path.normalize_segments. rewrite foldl_push by exact H.
  now rewrite app_nil_r, rev_involutive.
Qed.

Lemma plain_app p q : plain (p ++ SLASH :: q) = plain p && plain q.
Proof. unfold plain. now rewrite split_app, forallb_app. Qed.

Lemma names_app p q : names (p ++ SLASH :: q) = names p ++ names q.
Proof. unfold names. now rewrite split_app, List.filter_app. Qed.

Lemma filter_names segs :
  forallb is_name segs = true -> List.filter is_name segs = segs.
Proof.
  induction segs as [|seg segs IH]; [reflexivity|]. cbn [forallb List.filter].
  intros H. apply andb_true_iff in H as [-> H]. now rewrite IH.
Qed.

Lemma plain_join segs :
  forallb is_name_or_dot segs = true ->
  plain (join [SLASH] segs) = true /\
  names (join [SLASH] segs) = List.filter is_name segs.
Proof.
  intros H. destruct segs as [|seg segs]; [easy|].
  assert (forallb no_slash (seg :: segs) = true) as Hns.
  { clear -H. induction (seg :: segs) as [|a l IH]; [reflexivity|].
    cbn [forallb] in *. apply andb_true_iff in H as [Ha H].
    rewrite (IH H), andb_true_r. unfold is_name_or_dot in Ha.
    apply orb_true_iff in Ha as [Ha|Ha]; [now apply is_name_no_slash|].
    apply str_eqb_eq in Ha as ->. reflexivity. }
  unfold plain, names. rewrite split_join by easy. split; [|reflexivity].
  clear -H. induction (seg :: segs) as [|a l IH]; [reflexivity|].
  cbn [forallb] in *. apply andb_true_iff in H as [Ha H].
  rewrite (IH H), andb_true_r. unfold is_name_or_dot in Ha. unfold is_skipped.
  apply orb_true_iff in Ha as [-> | ->]; [reflexivity|].
  now rewrite !orb_true_r.
Qed.

Lemma names_are_names_or_dots segs :
  forallb is_name segs = true -> forallb is_name_or_dot segs = true.
Proof.
  induction segs as [|seg segs IH]; [reflexivity|]. cbn [forallb].
  intros H. apply andb_true_iff in H as [Hs H]. unfold is_name_or_dot at 1.
  now rewrite Hs, IH.
Qed.

Lemma plain_absolute segs :
  forallb is_name segs = true ->
  plain (absolute segs) = true /\ names (absolute segs) = segs.
Proof.
  intros H. unfold absolute.
  change (SLASH :: join [SLASH] segs) with ([] ++ SLASH :: join [SLASH] segs).
  rewrite plain_app, names_app.
  destruct (plain_join segs (names_are_names_or_dots _ H)) as [-> ->].
  split; [reflexivity|]. now rewrite filter_names.
Qed.

Lemma absolute_is_absolute segs : path.is_absolute (absolute segs) = true.
Proof. reflexivity. Qed.

(** [path.resolve] stops at the rightmost absolute argument. *)
Lemma resolve_last_absolute cwd args segs :
  forallb is_name segs = true ->
  path.resolve cwd (args ++ [absolute segs]) = absolute segs.
Proof.
  intros H. unfold path.resolve. rewrite rev_app_distr. cbn [rev app path.pick].
  change (path.str_eqb (absolute segs) []) with false. cbn [path.is_absolute absolute].
  change (N.eqb SLASH 47) with true. cbn iota.
  destruct (plain_absolute segs H) as [Hp Hn].
  rewrite normalize_segments_plain.
  - change (SLASH :: join [SLASH] segs) with (absolute segs).
    change (absolute segs ++ [SLASH] ++ []) with (absolute segs ++ SLASH :: []).
    rewrite names_app, Hn. cbn. now rewrite app_nil_r.
  - change (SLASH :: join [SLASH] segs) with (absolute segs).
    change (absolute segs ++ [SLASH] ++ []) with (absolute segs ++ SLASH :: []).
    rewrite plain_app, Hp. reflexivity.
Qed.

Lemma join_not_nil segs :
  forallb is_name_or_dot segs = true -> segs <> [] -> join [SLASH] segs <> [].
Proof.
  intros H Hne. destruct segs as [|seg segs]; [congruence|].
  cbn [forallb] in H. apply andb_true_iff in H as [Hs _].
  assert (seg <> []) as Hseg.
  { unfold is_name_or_dot in Hs. apply orb_true_iff in Hs as [Hs|Hs].
    - now apply is_name_not_nil.
    - apply str_eqb_eq in Hs as ->. discriminate. }
  destruct seg; [congruence|]. now destruct segs.
Qed.

Lemma join_snoc segs seg :
  segs <> [] ->
  join [SLASH] (segs ++ [seg]) = join [SLASH] segs ++ SLASH :: seg.
Proof.
  induction segs as [|a segs IH]; intros Hne; [congruence|].
  destruct segs as [|a' segs]; [reflexivity|].
  change (join [SLASH] ((a :: a' :: segs) ++ [seg]))
    with (a ++ SLASH :: join [SLASH] ((a' :: segs) ++ [seg])).
  rewrite IH by discriminate.
  change (join [SLASH] (a :: a' :: segs))
    with (a ++ SLASH :: join [SLASH] (a' :: segs)).
  now rewrite <- app_assoc.
Qed.

Lemma drop_while_over (f : char -> bool) w s :
  forallb f w = true -> drop_while f (w ++ s) = drop_while f s.
Proof.
  induction w as [|x w IH]; [reflexivity|]. cbn [forallb app drop_while].
  intros H. apply andb_true_iff in H as [-> H]. now apply IH.
Qed.

(** The directory of a file that lies in the directory [segs]. *)
Lemma dirname_absolute segs name :
  forallb is_name segs = true -> is_name name = true ->
  path.dirname (absolute (segs ++ [name])) = absolute segs.
Proof.
  intros Hs Hn. pose proof (is_name_not_nil _ Hn) as Hne.
  pose proof (is_name_no_slash _ Hn) as Hsl.
  assert (forallb (fun c => negb (N.eqb c 47)) (rev name) = true) as Hrev.
  { unfold no_slash in Hsl. rewrite forallb_forall in Hsl |- *.
    intros x Hx. apply Hsl. now apply in_rev. }
  assert (forall rest,
            drop_while (fun c => negb (N.eqb c 47))
              (drop_while (fun c => N.eqb c 47) (rev name ++ rest)) =
            drop_while (fun c => negb (N.eqb c 47)) rest) as Hdrop.
  { intros rest. destruct (rev name) as [|y ys] eqn:Ey.
    - apply (f_equal (@rev _)) in Ey. rewrite rev_involutive in Ey. now subst.
    - cbn [forallb] in Hrev. apply andb_true_iff in Hrev as [Hy Hys].
      cbn [app drop_while]. rewrite (proj1 (negb_true_iff _) Hy).
      cbn [drop_while]. rewrite Hy. now apply drop_while_over. }
  unfold path.dirname, absolute. change (N.eqb SLASH 47) with true. cbn iota.
  destruct segs as [|a segs'].
  - cbn [app join]. rewrite <- (app_nil_r (rev name)), Hdrop. reflexivity.
  - rewrite join_snoc by discriminate. rewrite rev_app_distr.
    cbn [rev]. rewrite <- app_assoc. cbn [app]. rewrite Hdrop.
    cbn [drop_while]. change (negb (N.eqb SLASH 47)) with false. cbn iota.
    assert (join [SLASH] (a :: segs') <> []) as Hj
      by (apply join_not_nil; [now apply names_are_names_or_dots|discriminate]).
    destruct (rev (join [SLASH] (a :: segs'))) as [|z zs] eqn:Ez.
    + apply (f_equal (@rev _)) in Ez. rewrite rev_involutive in Ez. easy.
    + rewrite <- Ez. now rewrite rev_involutive.
Qed.

Lemma drop_common_app segs sub :
  path.drop_common segs (segs ++ sub) = ([], sub).
Proof.
  induction segs as [|a segs IH]; [now destruct sub|].
  cbn [app path.drop_common].
  assert (path.str_eqb a a = true) as -> by now apply str_eqb_eq.
  exact IH.
Qed.

(** From a directory to a directory below it. *)
Lemma relative_below cwd segs sub :
  forallb is_name segs = true -> forallb is_name sub = true ->
  path.relative cwd (absolute segs) (absolute (segs ++ sub)) = join [SLASH] sub.
Proof.
  intros H1 H2. unfold path.relative.
  assert (forallb is_name (segs ++ sub) = true) as H3
    by now rewrite forallb_app, H1, H2.
  pose proof (resolve_last_absolute cwd [] segs H1) as R1.
  pose proof (resolve_last_absolute cwd [] (segs ++ sub) H3) as R3.
  cbn [app] in R1, R3. rewrite R1, R3.
  destruct (plain_absolute segs H1) as [P1 N1].
  destruct (plain_absolute (segs ++ sub) H3) as [P3 N3].
  rewrite !normalize_segments_plain by assumption.
  rewrite N1, N3, drop_common_app. reflexivity.
Qed.

(** [path.normalize] of an absolute path made of names, empty
    components and [.], which does not end in a separator unless it has
    no name at all. *)
Lemma normalize_plain p :
  path.is_absolute p = true -> plain p = true ->
  (names p <> [] -> last p <> Some SLASH) ->
  path.normalize p = absolute (names p).
Proof.
  intros Ha Hp Hl. unfold path.normalize.
  destruct p as [|c p']; [discriminate|].
  change (path.str_eqb (c :: p') []) with false. cbn iota.
  rewrite Ha. cbn [negb]. rewrite normalize_segments_plain by exact Hp.
  destruct (names (c :: p')) as [|n ns] eqn:En.
  - reflexivity.
  - assert (join [SLASH] (n :: ns) <> []) as Hj.
    { assert (is_name n = true) as Hn.
      { assert (In n (names (c :: p'))) as Hin by (rewrite En; now left).
        unfold names in Hin. apply List.filter_In in Hin. easy. }
      apply is_name_not_nil in Hn. destruct n; [congruence|].
      now destruct ns. }
    assert (path.str_eqb (join [SLASH] (n :: ns)) [] = false) as ->
      by now apply str_eqb_neq.
    specialize (Hl ltac:(discriminate)).
    destruct (last (c :: p')) as [z|]; [|reflexivity].
    destruct (N.eqb z 47) eqn:Hz; [|reflexivity].
    apply N.eqb_eq in Hz. subst z. now contradict Hl.
Qed.

Lemma last_no_slash seg : no_slash seg = true -> last seg <> Some SLASH.
Proof.
  induction seg as [|c seg IH]; [discriminate|].
  cbn [no_slash forallb]. intros H. apply andb_true_iff in H as [Hc H].
  destruct seg as [|c' seg].
  - cbn. intros [= ->]. discriminate.
  - change (last (c :: c' :: seg)) with (last (c' :: seg)). now apply IH.
Qed.

Lemma name_or_dot_no_slash seg : is_name_or_dot seg = true -> no_slash seg = true.
Proof.
  unfold is_name_or_dot. intros H. apply orb_true_iff in H as [H|H].
  - now apply is_name_no_slash.
  - apply str_eqb_eq in H as ->. reflexivity.
Qed.

Lemma last_join segs :
  forallb is_name_or_dot segs = true -> last (join [SLASH] segs) <> Some SLASH.
Proof.
  induction segs as [|seg segs IH]; [discriminate|].
  cbn [forallb]. intros H. apply andb_true_iff in H as [Hs H].
  destruct segs as [|seg' segs].
  - now apply last_no_slash, name_or_dot_no_slash.
  - change (join [SLASH] (seg :: seg' :: segs))
      with (seg ++ SLASH :: join [SLASH] (seg' :: segs)).
    pose proof (join_not_nil (seg' :: segs) H ltac:(discriminate)) as Hne.
    rewrite last_app. rewrite last_cons.
    specialize (IH H).
    destruct (last (join [SLASH] (seg' :: segs))) as [z|] eqn:E; [exact IH|].
    apply last_None in E. congruence.
Qed.

Lemma join_paths_three A S U :
  A <> [] ->
  path.join_paths [A; S; U] =
  path.normalize (A ++ match S with [] => [] | _ => SLASH :: S end ++
                       match U with [] => [] | _ => SLASH :: U end).
Proof.
  intros HA. unfold path.join_paths. cbn [List.filter].
  assert (path.str_eqb A [] = false) as -> by now apply str_eqb_neq.
  cbn [negb].
  destruct S as [|s S], U as [|u U]; cbn [negb app join];
    repeat match goal with
           | |- context [path.str_eqb (?x :: ?l) []] =>
               change (path.str_eqb (x :: l) []) with false
           | |- context [path.str_eqb [] []] =>
               change (path.str_eqb [] []) with true
           end; cbn [negb join app]; rewrite ?app_nil_r; reflexivity.
Qed.

Lemma push_segment_names stack seg :
  forallb is_name stack = true -> no_slash seg = true ->
  forallb is_name (path.push_segment false stack seg) = true.
Proof.
  intros Hst Hseg. unfold path.push_segment.
  destruct (path.str_eqb seg []) eqn:E1; [exact Hst|].
  destruct (path.str_eqb seg (js ".")) eqn:E2; [exact Hst|]. cbn [orb].
  destruct (path.str_eqb seg (js "..")) eqn:E3.
  - destruct stack as [|top below]; [reflexivity|].
    cbn [forallb] in Hst. apply andb_true_iff in Hst as [Htop Hbelow].
    destruct (path.str_eqb top (js "..")) eqn:E4; [|exact Hbelow].
    unfold is_name in Htop. rewrite E4 in Htop.
    now rewrite andb_false_r in Htop.
  - cbn [forallb]. rewrite Hst, andb_true_r. unfold is_name.
    now rewrite E1, E2, E3, Hseg.
Qed.

(** Below the root, [normalizeString] leaves names only. *)
Lemma normalize_segments_names p :
  forallb is_name (path.normalize_segments false p) = true.
Proof.
  unfold path.normalize_segments.
  assert (forall segs stack,
            forallb no_slash segs = true -> forallb is_name stack = true ->
            forallb is_name (foldl (path.push_segment false) stack segs) = true)
    as H.
  { induction segs as [|seg segs IH]; intros stack Hs Hst; [exact Hst|].
    cbn [forallb] in Hs. apply andb_true_iff in Hs as [Hseg Hs].
    cbn [foldl]. apply IH; [exact Hs|]. now apply push_segment_names. }
  specialize (H (path.split p) [] (split_segments p) eq_refl).
  rewrite forallb_forall in H |- *. intros x Hx. apply H. now apply in_rev.
Qed.

Lemma pick_absolute cwd l acc :
  path.is_absolute cwd = true -> snd (path.pick (l ++ [cwd]) acc) = true.
Proof.
  intros Hc. revert acc. induction l as [|p l IH]; intros acc.
  - cbn [app path.pick]. rewrite Hc.
    destruct cwd; [discriminate|]. reflexivity.
  - cbn [app path.pick]. destruct (path.str_eqb p []); [apply IH|].
    destruct (path.is_absolute p); [reflexivity|apply IH].
Qed.

(** In a process whose working directory is absolute, [path.resolve]
    returns an absolute path made of names. *)
Lemma resolve_shape cwd args :
  path.is_absolute cwd = true ->
  exists segs, forallb is_name segs = true /\
               path.resolve cwd args = absolute segs.
Proof.
  intros Hc. unfold path.resolve.
  pose proof (pick_absolute cwd (rev args) [] Hc) as Hp.
  destruct (path.pick (rev args ++ [cwd]) []) as [rp ra]. cbn [snd] in Hp.
  subst ra. cbn [negb]. eexists. split; [|reflexivity].
  apply normalize_segments_names.
Qed.

(** Such a path is resolved to itself. *)
Lemma resolve_resolved cwd dir args :
  path.is_absolute cwd = true ->
  path.resolve cwd [dir; path.resolve cwd args] = path.resolve cwd args.
Proof.
  intros Hc. destruct (resolve_shape cwd args Hc) as (segs & Hs & ->).
  exact (resolve_last_absolute cwd [dir] segs Hs).
Qed.

Lemma join_relative segs :
  forallb is_name_or_dot segs = true -> segs <> [] ->
  path.is_absolute (join [SLASH] segs) = false /\
  path.str_eqb (join [SLASH] segs) [] = false.
Proof.
  intros H Hne. pose proof (join_not_nil segs H Hne) as Hj.
  split; [|now apply str_eqb_neq].
  destruct segs as [|seg segs]; [congruence|].
  cbn [forallb] in H. apply andb_true_iff in H as [Hs _].
  pose proof (name_or_dot_no_slash _ Hs) as Hns.
  assert (seg <> []) as Hseg.
  { unfold is_name_or_dot in Hs. apply orb_true_iff in Hs as [Hs|Hs].
    - now apply is_name_not_nil.
    - apply str_eqb_eq in Hs as ->. discriminate. }
  destruct seg as [|c seg]; [congruence|].
  cbn [no_slash forallb] in Hns. apply andb_true_iff in Hns as [Hc _].
  apply negb_true_iff in Hc.
  destruct segs; cbn [join app path.is_absolute]; exact Hc.
Qed.

(** A relative path is resolved against the absolute path before it. *)
Lemma resolve_below cwd segs u :
  forallb is_name segs = true ->
  forallb is_name_or_dot u = true -> u <> [] ->
  path.resolve cwd [absolute segs; join [SLASH] u] =
  absolute (segs ++ List.filter is_name u).
Proof.
  intros Hs Hu Hne. destruct (join_relative u Hu Hne) as [Ha He].
  unfold path.resolve. cbn [rev app path.pick]. rewrite He, Ha.
  change (path.str_eqb (absolute segs) []) with false.
  change (path.is_absolute (absolute segs)) with true. cbn iota. cbn [negb].
  destruct (plain_absolute segs Hs) as [Ps Ns].
  destruct (plain_join u Hu) as [Pu Nu].
  rewrite normalize_segments_plain.
  - cbn [app]. rewrite names_app.
    rewrite names_app, Ns, Nu. cbn. now rewrite app_nil_r.
  - cbn [app]. rewrite !plain_app, Ps, Pu. reflexivity.
Qed.

End Paths.

(** ** The directories of a configuration *)

Section Directories.

Variable __dirname : str.
Variable cwd : str.

Implicit Types (w : world) (doc cfg : tsconfig) (options : gmap str jsval)
  (k prop key p : str).

Lemma normal_absolute_absolute segs :
  forallb is_name segs = true -> normal_absolute (absolute segs) = true.
Proof.
  intros H. unfold normal_absolute, absolute. change (N.eqb SLASH 47) with true.
  cbn [andb]. destruct segs as [|seg segs]; [reflexivity|].
  rewrite split_join; [|now apply names_no_slash|discriminate].
  rewrite H. apply orb_true_r.
Qed.

Lemma normal_absolute_inv q :
  normal_absolute q = true ->
  exists segs, forallb is_name segs = true /\ q = absolute segs.
Proof.
  unfold normal_absolute. destruct q as [|c t]; [discriminate|].
  intros H. apply andb_true_iff in H as [Hc H]. apply N.eqb_eq in Hc. subst c.
  apply orb_true_iff in H as [H|H].
  - apply str_eqb_eq in H as ->. now exists [].
  - exists (path.split t). split; [exact H|]. unfold absolute. f_equal.
    clear H. induction t as [|c t IH]; [reflexivity|]. cbn [path.split].
    destruct (N.eqb c 47) eqn:Hc.
    + apply N.eqb_eq in Hc. subst c.
      pose proof (split_not_nil t).
      destruct (path.split t) as [|s ss] eqn:E; [congruence|].
      change (join [SLASH] ([] :: s :: ss)) with (SLASH :: join [SLASH] (s :: ss)).
      now rewrite <- IH.
    + pose proof (split_not_nil t).
      destruct (path.split t) as [|s ss] eqn:E; [congruence|].
      destruct ss as [|s' ss].
      * cbn [join] in *. now rewrite IH.
      * change (join [SLASH] ((c :: s) :: s' :: ss))
          with (c :: (s ++ SLASH :: join [SLASH] (s' :: ss))).
        change (join [SLASH] (s :: s' :: ss))
          with (s ++ SLASH :: join [SLASH] (s' :: ss)) in IH.
        now rewrite IH.
Qed.

Lemma resolve_prop_dir tsConfigDir options prop options' :
  path.is_absolute cwd = true ->
  resolve_prop cwd tsConfigDir options prop = Ok options' ->
  resolved_dir (options' !! prop) = true /\
  forall k, k <> prop -> options' !! k = options !! k.
Proof.
  intros Hc. unfold resolve_prop.
  destruct (options !! prop) as [v|] eqn:Ev.
  - destruct (truthy v) eqn:Et.
    + destruct v; try discriminate. intros [= <-]. split.
      * rewrite lookup_insert_eq. cbn [resolved_dir].
        destruct (resolve_shape cwd [tsConfigDir; s] Hc) as (segs & Hs & ->).
        rewrite normal_absolute_absolute by exact Hs. apply orb_true_r.
      * intros k Hk. now rewrite lookup_insert_ne.
    + intros [= <-]. split; [|reflexivity]. rewrite Ev.
      destruct v; cbn [resolved_dir]; try now rewrite Et.
      cbn [truthy] in Et. apply negb_false_iff in Et. now rewrite Et.
  - intros [= <-]. split; [|reflexivity]. now rewrite Ev.
Qed.

Lemma resolve_dirs_dir key tsConfigDir doc options w cfg w' :
  path.is_absolute cwd = true ->
  resolve_dirs cwd key tsConfigDir doc options w = (Ok cfg, w') ->
  exists options',
    compilerOptions cfg = Some options' /\
    forall k, is_dir_option k = true -> resolved_dir (options' !! k) = true.
Proof.
  intros Hc. unfold resolve_dirs.
  destruct (resolve_prop cwd tsConfigDir options (js "outDir")) as [o1|] eqn:E1;
    [|discriminate].
  destruct (resolve_prop cwd tsConfigDir o1 (js "rootDir")) as [o2|] eqn:E2;
    [|discriminate].
  intros [= <- _]. exists o2. split; [reflexivity|].
  apply (resolve_prop_dir _ _ _ _ Hc) in E1 as [G1 _].
  apply (resolve_prop_dir _ _ _ _ Hc) in E2 as [G2 F2].
  intros k Hk. unfold is_dir_option in Hk. apply orb_true_iff in Hk as [Hk|Hk];
    apply str_eqb_eq in Hk; subst k; [|exact G2].
  rewrite F2 by discriminate. exact G1.
Qed.

(** A call that returns has gone through the last part of the
    function. *)
Lemma readTsconfig_Ok_inv fuel w p cfg w' :
  readTsconfig __dirname cwd fuel w p = (Ok cfg, w') ->
  exists doc options w0,
    resolve_dirs cwd (path.resolve cwd [__dirname; p]) (path.dirname p)
      doc options w0 = (Ok cfg, w').
Proof.
  destruct fuel as [|fuel]; [discriminate|]. cbn [readTsconfig].
  destruct (require w _) as [[doc|e] w1]; [|discriminate].
  destruct (extends doc) as [ext|];
    [|intros H; eexists _, _, _; exact H].
  destruct (truthy ext); [|intros H; eexists _, _, _; exact H].
  destruct ext; try discriminate.
  destruct (readTsconfig __dirname cwd fuel _ _) as [[parent|e] w3];
    [|discriminate].
  intros H; eexists _, _, _; exact H.
Qed.

Lemma readTsconfig_dirs fuel w p cfg w' :
  path.is_absolute cwd = true ->
  readTsconfig __dirname cwd fuel w p = (Ok cfg, w') ->
  exists options,
    compilerOptions cfg = Some options /\
    forall k, is_dir_option k = true -> resolved_dir (options !! k) = true.
Proof.
  intros Hc H. apply readTsconfig_Ok_inv in H as (doc & options & w0 & H).
  now apply (resolve_dirs_dir _ _ _ _ _ _ _ Hc H).
Qed.

(** Resolving a resolved directory option again changes nothing. *)
Lemma resolved_option_resolved tsConfigDir k v :
  resolved_dir v = true -> resolved_option cwd tsConfigDir k v = v.
Proof.
  unfold resolved_dir, resolved_option. intros H.
  destruct v as [[| | |q| |]|]; try reflexivity.
  destruct (is_dir_option k); [|reflexivity]. cbn [andb truthy].
  destruct (path.str_eqb q []) eqn:Eq; [reflexivity|]. cbn [negb orb] in *.
  apply normal_absolute_inv in H as (segs & Hs & ->).
  pose proof (resolve_last_absolute cwd [tsConfigDir] segs Hs) as R.
  cbn [app] in R. now rewrite R.
Qed.

Lemma resolve_prop_Ok tsConfigDir options prop :
  path_or_falsy (options !! prop) = true ->
  exists options', resolve_prop cwd tsConfigDir options prop = Ok options'.
Proof.
  unfold path_or_falsy, resolve_prop.
  destruct (options !! prop) as [v|]; [|now eexists].
  destruct (truthy v) eqn:Et; [|now eexists].
  destruct v; intros H; try discriminate H. now eexists.
Qed.

Lemma resolve_prop_Throw tsConfigDir options prop :
  path_or_falsy (options !! prop) = false ->
  resolve_prop cwd tsConfigDir options prop = Throw TypeError.
Proof.
  unfold path_or_falsy, resolve_prop.
  destruct (options !! prop) as [v|]; [|discriminate].
  destruct v; try discriminate; intros H; apply negb_false_iff in H;
    now rewrite H.
Qed.

Lemma resolve_prop_keeps tsConfigDir options prop options' k :
  resolve_prop cwd tsConfigDir options prop = Ok options' ->
  k <> prop -> options' !! k = options !! k.
Proof.
  intros H Hk. rewrite (resolve_prop_lookup cwd _ _ _ _ H k).
  now rewrite (proj2 (str_eqb_neq k prop) Hk).
Qed.

Lemma readTsconfig_plain fuel w p doc :
  lookup_doc w (path.resolve cwd [__dirname; p]) = Some doc ->
  extends_nothing doc = true ->
  readTsconfig __dirname cwd (S fuel) w p =
  resolve_dirs cwd (path.resolve cwd [__dirname; p]) (path.dirname p) doc
    (default ∅ (compilerOptions doc))
    (store (path.resolve cwd [__dirname; p])
       (with_options doc (default ∅ (compilerOptions doc)))
       (snd (require w (path.resolve cwd [__dirname; p])))).
Proof.
  intros Hdoc Hext. cbn [readTsconfig].
  destruct (require_found _ _ _ Hdoc) as (w1 & -> & _). cbn [snd].
  unfold extends_nothing in Hext.
  destruct (extends doc) as [ext|]; [|reflexivity].
  apply negb_true_iff in Hext. now rewrite Hext.
Qed.

End Directories.

(** ** Chains of [extends] *)

Section Cycles.

Variable __dirname : str.
Variable cwd : str.

Implicit Types (w : world) (doc cfg : tsconfig) (p q : str) (n m d : nat).

Lemma follow_add w n m p :
  follow __dirname cwd w (n + m) p =
  follow __dirname cwd w n p ≫= follow __dirname cwd w m.
Proof.
  revert p. induction n as [|n IH]; intros p; [reflexivity|].
  cbn [Nat.add follow].
  destruct (lookup_doc w _) as [doc|]; [|reflexivity].
  destruct (extends doc) as [[| | |e| |]|]; try reflexivity.
  destruct (truthy (VStr e)); [apply IH|reflexivity].
Qed.

Lemma follow_prefix w n m p :
  is_Some (follow __dirname cwd w (n + m) p) ->
  is_Some (follow __dirname cwd w n p).
Proof.
  rewrite follow_add. destruct (follow __dirname cwd w n p); [easy|].
  cbn. now intros [x Hx].
Qed.

(** A chain that comes back to a path goes on for ever. *)
Lemma follow_cycle w n d p q :
  follow __dirname cwd w n p = Some q ->
  follow __dirname cwd w (S d) q = Some q ->
  forall k, is_Some (follow __dirname cwd w k p).
Proof.
  intros Hn Hd.
  assert (forall j, is_Some (follow __dirname cwd w j q)) as Hq.
  { induction j as [j IH] using lt_wf_ind.
    destruct (le_lt_dec j (S d)) as [Hle|Hgt].
    - apply (follow_prefix w j (S d - j)).
      replace (j + (S d - j)) with (S d) by lia. now rewrite Hd.
    - replace j with (S d + (j - S d)) by lia.
      rewrite follow_add, Hd. cbn. apply IH. lia. }
  intros k. destruct (le_lt_dec k n) as [Hle|Hgt].
  - apply (follow_prefix w k (n - k)).
    replace (k + (n - k)) with n by lia. now rewrite Hn.
  - replace k with (n + (k - n)) by lia. rewrite follow_add, Hn. apply Hq.
Qed.

Lemma readTsconfig_endless w p :
  (forall n, is_Some (follow __dirname cwd w n p)) ->
  forall fuel, fst (readTsconfig __dirname cwd fuel w p) = Throw RangeError.
Proof.
  intros H fuel. revert w p H.
  induction fuel as [|fuel IH]; intros w p H; [reflexivity|].
  pose proof (H 1) as H1. cbn [follow] in H1.
  destruct (lookup_doc w _) as [doc|] eqn:Hdoc; [|now destruct H1].
  destruct (extends doc) as [[| | |e| |]|] eqn:Hext; try now destruct H1.
  destruct (truthy (VStr e)) eqn:Ht; [|now destruct H1].
  cbn [readTsconfig].
  destruct (require_found _ _ _ Hdoc) as (w1 & Hreq & _).
  rewrite Hreq, Hext, Ht.
  set (key := path.resolve cwd [__dirname; p]) in *.
  destruct (require_then_store w key doc w1
              (with_options doc (default ∅ (compilerOptions doc))) Hreq eq_refl)
    as (Hext2 & _ & _).
  set (w2 := store key _ w1) in *.
  specialize (IH w2 (path.resolve cwd [path.dirname p; e])).
  destruct (readTsconfig __dirname cwd fuel w2 _) as [[parent|err] w3];
    cbn [fst] in *.
  - discriminate IH. intros n. rewrite (follow_ext __dirname cwd w w2) by exact Hext2.
    specialize (H (S n)). cbn [follow] in H. fold key in H.
    now rewrite Hdoc, Hext, Ht in H.
  - apply IH. intros n. rewrite (follow_ext __dirname cwd w w2) by exact Hext2.
    specialize (H (S n)). cbn [follow] in H. fold key in H.
    now rewrite Hdoc, Hext, Ht in H.
Qed.

End Cycles.

Section Chains.

Variable __dirname : str.
Variable cwd : str.

Implicit Types (w : world) (doc cfg : tsconfig) (options : gmap str jsval)
  (k prop key p : str).

Lemma well_formed_same_docs w w' n p :
  same_docs w w' ->
  well_formed __dirname cwd w' n p = well_formed __dirname cwd w n p.
Proof.
  intros H. revert p. induction n as [|n IH]; intros p; cbn [well_formed];
    specialize (H (path.resolve cwd [__dirname; p]));
    destruct (lookup_doc w _) as [d|], (lookup_doc w' _) as [d'|];
    try easy; destruct H as [He Ho]; rewrite <- Ho; f_equal.
  - unfold extends_nothing. now rewrite He.
  - rewrite <- He. destruct (extends d) as [[]|]; try reflexivity.
    now rewrite IH.
Qed.

Lemma same_docs_require w key doc w1 :
  require w key = (Ok doc, w1) ->
  lookup_doc w key = Some doc /\
  same_docs w (store key (with_options doc (default ∅ (compilerOptions doc))) w1).
Proof.
  intros H. split; [now apply require_lookup in H|].
  now apply (require_then_store w key doc w1
               (with_options doc (default ∅ (compilerOptions doc))) H eq_refl).
Qed.

Lemma resolve_prop_path_or_falsy tsConfigDir options prop options' k :
  resolve_prop cwd tsConfigDir options prop = Ok options' ->
  path_or_falsy (options' !! k) = path_or_falsy (options !! k).
Proof.
  intros H. rewrite (resolve_prop_lookup cwd _ _ _ _ H k).
  destruct (path.str_eqb k prop); [|reflexivity].
  destruct (options !! k) as [[| | |q| |]|]; try reflexivity.
  now destruct (truthy _).
Qed.

Lemma resolve_dirs_path_or_falsy key tsConfigDir doc options w cfg w' k :
  resolve_dirs cwd key tsConfigDir doc options w = (Ok cfg, w') ->
  is_dir_option k = true ->
  path_or_falsy (default ∅ (compilerOptions cfg) !! k) = true.
Proof.
  unfold resolve_dirs. intros H Hk.
  destruct (resolve_prop cwd tsConfigDir options (js "outDir")) as [o1|] eqn:E1;
    [|discriminate].
  destruct (resolve_prop cwd tsConfigDir o1 (js "rootDir")) as [o2|] eqn:E2;
    [|discriminate].
  injection H as <- _. cbn [compilerOptions with_options default].
  rewrite (resolve_prop_path_or_falsy _ _ _ _ _ E2).
  rewrite (resolve_prop_path_or_falsy _ _ _ _ _ E1).
  unfold is_dir_option in Hk. apply orb_true_iff in Hk as [Hk|Hk];
    apply str_eqb_eq in Hk; subst k.
  - destruct (options !! js "outDir") as [v|] eqn:Ev; [|reflexivity].
    unfold resolve_prop in E1. rewrite Ev in E1.
    destruct (truthy v) eqn:Et; [now destruct v|].
    destruct v; cbn [path_or_falsy]; try reflexivity; now rewrite Et.
  - rewrite <- (resolve_prop_path_or_falsy _ _ _ _ (js "rootDir") E1).
    destruct (o1 !! js "rootDir") as [v|] eqn:Ev; [|reflexivity].
    unfold resolve_prop in E2. rewrite Ev in E2.
    destruct (truthy v) eqn:Et; [now destruct v|].
    destruct v; cbn [path_or_falsy]; try reflexivity; now rewrite Et.
Qed.

Lemma resolve_dirs_Ok key tsConfigDir doc options w :
  path_or_falsy (options !! js "outDir") = true ->
  path_or_falsy (options !! js "rootDir") = true ->
  exists cfg w', resolve_dirs cwd key tsConfigDir doc options w = (Ok cfg, w').
Proof.
  intros H1 H2. unfold resolve_dirs.
  destruct (resolve_prop_Ok cwd tsConfigDir options _ H1) as (o1 & E1).
  rewrite E1. rewrite <- (resolve_prop_path_or_falsy _ _ _ _ _ E1) in H2.
  destruct (resolve_prop_Ok cwd tsConfigDir o1 _ H2) as (o2 & E2).
  rewrite E2. now eexists _, _.
Qed.

(** The resolution of a well-formed chain returns, and returns the same
    whatever the depth of the stack beyond the length of the chain. *)
Lemma readTsconfig_well_formed n w p :
  well_formed __dirname cwd w n p = true ->
  exists cfg w',
    forall fuel, n < fuel ->
    readTsconfig __dirname cwd fuel w p = (Ok cfg, w').
Proof.
  revert w p. induction n as [|n IH]; intros w p H; cbn [well_formed] in H.
  - destruct (lookup_doc w _) as [doc|] eqn:Hdoc; [|discriminate].
    apply andb_true_iff in H as [H Hext]. apply andb_true_iff in H as [Ho Hr].
    destruct (resolve_dirs_Ok (path.resolve cwd [__dirname; p]) (path.dirname p)
                doc _
                (store (path.resolve cwd [__dirname; p])
                   (with_options doc (default ∅ (compilerOptions doc)))
                   (snd (require w (path.resolve cwd [__dirname; p]))))
                Ho Hr) as (cfg & w' & Hd).
    exists cfg, w'. intros [|fuel] Hlt; [lia|].
    now rewrite (readTsconfig_plain __dirname cwd fuel w p doc Hdoc Hext).
  - destruct (lookup_doc w _) as [doc|] eqn:Hdoc; [|discriminate].
    apply andb_true_iff in H as [H Hext]. apply andb_true_iff in H as [Ho Hr].
    destruct (extends doc) as [[| | |e| |]|] eqn:Hx; try discriminate.
    apply andb_true_iff in Hext as [Ht Hwf].
    destruct (require_found _ _ _ Hdoc) as (w1 & Hreq & _).
    destruct (same_docs_require _ _ _ _ Hreq) as (_ & Hsame).
    set (key := path.resolve cwd [__dirname; p]) in *.
    set (own := default ∅ (compilerOptions doc)) in *.
    set (w2 := store key (with_options doc own) w1) in *.
    rewrite <- (well_formed_same_docs w w2) in Hwf by exact Hsame.
    destruct (IH w2 _ Hwf) as (parent & w3 & Hparent).
    set (merged := own ∪ default ∅ (compilerOptions parent)).
    assert (forall k, is_dir_option k = true ->
                      path_or_falsy (own !! k) = true ->
                      path_or_falsy (merged !! k) = true) as Hm.
    { intros k Hk Hown. unfold merged. rewrite lookup_union.
      destruct (own !! k) as [v|] eqn:Ev.
      - now destruct (default ∅ (compilerOptions parent) !! k).
      - pose proof (Hparent (S n) ltac:(lia)) as Hp.
        apply readTsconfig_Ok_inv in Hp as (d0 & o0 & w0 & Hp).
        pose proof (resolve_dirs_path_or_falsy _ _ _ _ _ _ _ k Hp Hk) as Hpk.
        now destruct (default ∅ (compilerOptions parent) !! k). }
    destruct (resolve_dirs_Ok key (path.dirname p) doc merged
                (store key (with_options doc merged) w3)
                (Hm (js "outDir") eq_refl Ho) (Hm (js "rootDir") eq_refl Hr)) as (cfg & w' & Hd).
    exists cfg, w'. intros [|fuel] Hlt; [lia|].
    cbn [readTsconfig]. fold key. rewrite Hreq, Hx, Ht. fold own w2.
    rewrite (Hparent fuel) by lia. exact Hd.
Qed.

End Chains.

(** ** The passes at their first match *)

Section Declarations.
Implicit Types (s t w name body rest pre post : str) (c : captures)
  (urls : list str) (fs : gmap str str) (resolver : str -> result str).

(** [inlineTemplate] at the first declaration of the content: the
    resolver is called, then the file is read, then the text after the
    declaration is treated. *)
Lemma inlineTemplate_eq fs resolver pre w name post :
  occurs (js "templateUrl:") pre = false ->
  forallb is_space w = true ->
  name <> [] ->
  forallb not_squote name = true ->
  inlineTemplate fs
    (pre ++ js "templateUrl:" ++ w ++ [SQUOTE] ++ name ++ js ".html" ++
     [SQUOTE] ++ post) resolver =
  let* templateFile := resolver (name ++ js ".html") in
  let* templateContent := readFileSync fs templateFile in
  let* rest := inlineTemplate fs post resolver in
  Ok (pre ++ js "template: " ++ [DQUOTE] ++ shorten templateContent ++
      [DQUOTE] ++ rest).
Proof.
  intros Hpre Hw Hne Hname. unfold inlineTemplate.
  rewrite replace_skip
    by (apply no_match_before; (reflexivity || exact Hpre)).
  rewrite (replace_hit_eq _ _ _
             (js "templateUrl:" ++ w ++ [SQUOTE] ++ name ++ js ".html" ++
              [SQUOTE]) post [(1, name ++ js ".html")]).
  - cbn [group1 capture Nat.eqb bind].
    destruct (resolver (name ++ js ".html")) as [templateFile|e]; cbn [bind];
      [|reflexivity].
    destruct (readFileSync fs templateFile) as [templateContent|e]; cbn [bind];
      [|reflexivity].
    destruct (replace _ _ post); cbn [bind]; [|reflexivity].
    now rewrite <- !app_assoc.
  - now rewrite <- !app_assoc.
  - js_eval. discriminate.
  - now apply templateUrl_hit.
Qed.

Lemma mapM_quoted fs resolver urls :
  mapM (fun styleUrl =>
          let* styleFile := resolver styleUrl in
          let* styleContent := readFileSync fs styleFile in
          Ok ([DQUOTE] ++ shorten styleContent ++ [DQUOTE])) urls =
  let* contents :=
    mapM (fun styleUrl =>
            let* styleFile := resolver styleUrl in readFileSync fs styleFile)
      urls in
  Ok (map (fun content => [DQUOTE] ++ shorten content ++ [DQUOTE]) contents).
Proof.
  induction urls as [|u urls IH]; [reflexivity|].
  cbn [mapM]. rewrite IH.
  destruct (resolver u) as [styleFile|]; cbn [bind]; [|reflexivity].
  destruct (readFileSync fs styleFile); cbn [bind]; [|reflexivity].
  destruct (mapM (fun styleUrl =>
                    let* styleFile := resolver styleUrl in
                    readFileSync fs styleFile) urls); reflexivity.
Qed.

Lemma inlineStyle_eq fs resolver pre w body post :
  occurs (js "styleUrls:") pre = false ->
  forallb is_space w = true ->
  forallb (fun x => negb (N.eqb x 93)) body = true ->
  inlineStyle fs
    (pre ++ js "styleUrls:" ++ w ++ [LBRACKET] ++ body ++ [RBRACKET] ++ post)
    resolver =
  let* urls := eval ([LBRACKET] ++ body ++ [RBRACKET]) in
  let* contents :=
    mapM (fun styleUrl =>
            let* styleFile := resolver styleUrl in readFileSync fs styleFile)
      urls in
  let* rest := inlineStyle fs post resolver in
  Ok (pre ++ js "styles: [" ++
      join (js "," ++ [LF])
        (map (fun content => [DQUOTE] ++ shorten content ++ [DQUOTE])
           contents) ++
      js "]" ++ rest).
Proof.
  intros Hpre Hw Hbody. unfold inlineStyle.
  rewrite replace_skip
    by (apply no_match_before; (reflexivity || exact Hpre)).
  rewrite (replace_hit_eq _ _ _
             (js "styleUrls:" ++ w ++ [LBRACKET] ++ body ++ [RBRACKET])
             post [(1, [LBRACKET] ++ body ++ [RBRACKET])]).
  - cbn [group1 capture Nat.eqb bind].
    destruct (eval _) as [urls|e]; cbn [bind]; [|reflexivity].
    rewrite mapM_quoted.
    destruct (mapM _ urls) as [contents|e]; cbn [bind]; [|reflexivity].
    destruct (replace _ _ post); cbn [bind]; [|reflexivity].
    now rewrite <- !app_assoc.
  - now rewrite <- !app_assoc.
  - js_eval. discriminate.
  - now apply styleUrls_hit.
Qed.

(** [Array.prototype.map] with a callback that throws stops at the
    first element on which it throws. *)
Lemma mapM_app_fail {A B} (f : A -> result B) l1 a l2 bs e :
  mapM f l1 = Ok bs -> f a = Throw e -> mapM f (l1 ++ a :: l2) = Throw e.
Proof.
  revert bs. induction l1 as [|x l1 IH]; intros bs H1 Ha.
  - cbn [app mapM]. now rewrite Ha.
  - cbn [app mapM] in *. destruct (f x); cbn [bind] in *; [|discriminate].
    destruct (mapM f l1) as [bs'|]; cbn [bind] in *; [|discriminate].
    now rewrite (IH bs' eq_refl Ha).
Qed.

(** The first match of an expression in content that has one. *)
Lemma has_match_first r s :
  has_match r s = true ->
  exists pre t rest c,
    s = pre ++ t /\ quiet r pre t = true /\ match_here r t = Some (rest, c).
Proof.
  induction s as [|x s IH]; intros H.
  - unfold has_match in H. cbn [tails existsb] in H.
    rewrite orb_false_r in H. apply bool_decide_eq_true in H as [[rest c] H].
    now exists [], [], rest, c.
  - destruct (match_here r (x :: s)) as [[rest c]|] eqn:Hm.
    + now exists [], (x :: s), rest, c.
    + rewrite has_match_cons in H by exact Hm.
      destruct (IH H) as (pre & t & rest & c & -> & Hq & Ht).
      exists (x :: pre), t, rest, c. split; [reflexivity|].
      split; [|exact Ht]. now apply quiet_cons.
Qed.

(** With a resolver that throws, [inlineTemplate] throws as soon as the
    content holds a declaration. *)
Lemma inlineTemplate_resolver_throws fs content e :
  has_match re_templateUrl content = true ->
  inlineTemplate fs content (fun _ => Throw e) = Throw e.
Proof.
  intros H. apply has_match_first in H as (pre & t & rest & c & -> & Hq & Ht).
  pose proof Ht as Hshape.
  apply templateUrl_match_shape in Hshape as (w & name & _ & _ & _ & -> & ->).
  unfold inlineTemplate. rewrite replace_skip by now apply quiet_spec.
  rewrite (replace_hit_eq _ _ _
             (js "templateUrl:" ++ w ++ [SQUOTE] ++ name ++ js ".html" ++
              [SQUOTE]) rest [(1, name ++ js ".html")]).
  - reflexivity.
  - now rewrite <- !app_assoc.
  - js_eval. discriminate.
  - exact Ht.
Qed.

End Declarations.

Section FirstMatch.
Implicit Types (s t w name body rest pre post : str) (c : captures)
  (fs : gmap str str) (resolver : str -> result str).

Lemma inlineTemplate_first fs resolver content :
  has_match re_templateUrl content = true ->
  exists pre w name post,
    content = pre ++ js "templateUrl:" ++ w ++ [SQUOTE] ++ name ++
              js ".html" ++ [SQUOTE] ++ post /\
    quiet re_templateUrl pre
      (js "templateUrl:" ++ w ++ [SQUOTE] ++ name ++ js ".html" ++
       [SQUOTE] ++ post) = true /\
    forallb is_space w = true /\ name <> [] /\
    forallb not_squote name = true /\
    inlineTemplate fs content resolver =
    let* templateFile := resolver (name ++ js ".html") in
    let* templateContent := readFileSync fs templateFile in
    let* rest := inlineTemplate fs post resolver in
    Ok (pre ++ js "template: " ++ [DQUOTE] ++ shorten templateContent ++
        [DQUOTE] ++ rest).
Proof.
  intros H. apply has_match_first in H as (pre & t & rest & c & -> & Hq & Ht).
  pose proof Ht as Hshape.
  apply templateUrl_match_shape in Hshape
    as (w & name & Hw & Hne & Hname & -> & ->).
  exists pre, w, name, rest. repeat (split; [easy|]).
  unfold inlineTemplate. rewrite replace_skip by now apply quiet_spec.
  rewrite (replace_hit_eq _ _ _
             (js "templateUrl:" ++ w ++ [SQUOTE] ++ name ++ js ".html" ++
              [SQUOTE]) rest [(1, name ++ js ".html")]).
  - cbn [group1 capture Nat.eqb bind].
    destruct (resolver (name ++ js ".html")) as [templateFile|e]; cbn [bind];
      [|reflexivity].
    destruct (readFileSync fs templateFile) as [templateContent|e]; cbn [bind];
      [|reflexivity].
    destruct (replace _ _ rest); cbn [bind]; [|reflexivity].
    now rewrite <- !app_assoc.
  - now rewrite <- !app_assoc.
  - js_eval. discriminate.
  - exact Ht.
Qed.

Lemma inlineStyle_first fs resolver content :
  has_match re_styleUrls content = true ->
  exists pre w body post,
    content = pre ++ js "styleUrls:" ++ w ++ [LBRACKET] ++ body ++
              [RBRACKET] ++ post /\
    quiet re_styleUrls pre
      (js "styleUrls:" ++ w ++ [LBRACKET] ++ body ++ [RBRACKET] ++ post) = true /\
    forallb is_space w = true /\
    forallb (fun x => negb (N.eqb x 93)) body = true /\
    inlineStyle fs content resolver =
    let* urls := eval ([LBRACKET] ++ body ++ [RBRACKET]) in
    let* contents :=
      mapM (fun styleUrl =>
              let* styleFile := resolver styleUrl in readFileSync fs styleFile)
        urls in
    let* rest := inlineStyle fs post resolver in
    Ok (pre ++ js "styles: [" ++
        join (js "," ++ [LF])
          (map (fun content => [DQUOTE] ++ shorten content ++ [DQUOTE])
             contents) ++
        js "]" ++ rest).
Proof.
  intros H. apply has_match_first in H as (pre & t & rest & c & -> & Hq & Ht).
  pose proof Ht as Hshape.
  apply styleUrls_match_shape in Hshape as (w & body & Hw & Hbody & -> & ->).
  exists pre, w, body, rest. repeat (split; [easy|]).
  unfold inlineStyle. rewrite replace_skip by now apply quiet_spec.
  rewrite (replace_hit_eq _ _ _
             (js "styleUrls:" ++ w ++ [LBRACKET] ++ body ++ [RBRACKET])
             rest [(1, [LBRACKET] ++ body ++ [RBRACKET])]).
  - cbn [group1 capture Nat.eqb bind].
    destruct (eval _) as [urls|e]; cbn [bind]; [|reflexivity].
    rewrite mapM_quoted.
    destruct (mapM _ urls) as [contents|e]; cbn [bind]; [|reflexivity].
    destruct (replace _ _ rest); cbn [bind]; [|reflexivity].
    now rewrite <- !app_assoc.
  - now rewrite <- !app_assoc.
  - js_eval. discriminate.
  - exact Ht.
Qed.

End FirstMatch.

Section FixedPoints.
Implicit Types (s t w name body rest pre post : str) (c : captures).

Lemma collapse_breaks_inert s :
  forallb (fun x => negb (is_break x)) s = true -> collapse_breaks false s = s.
Proof.
  induction s as [|x s IH]; [reflexivity|]. cbn [forallb collapse_breaks andb].
  intros H. apply andb_true_iff in H as [Hx H]. apply negb_true_iff in Hx.
  now rewrite Hx, IH.
Qed.

Lemma escape_quotes_fixed s :
  escape_quotes s = s <-> forallb (fun x => negb (N.eqb x 34)) s = true.
Proof.
  induction s as [|x s IH]; [easy|].
  cbn [escape_quotes flat_map forallb]. fold (escape_quotes s).
  destruct (N.eqb x 34) eqn:Hx; cbn [negb andb app].
  - split; [|discriminate]. intros [= E _]. apply N.eqb_eq in Hx. subst x.
    discriminate E.
  - rewrite <- IH. split; [now intros [= ->]|now intros ->].
Qed.

Lemma assemble_length segments last_ :
  length (concat (map fst segments) ++ last_) <= length (assemble segments last_) /\
  (segments <> [] ->
   length (concat (map fst segments) ++ last_) < length (assemble segments last_)).
Proof.
  induction segments as [|[pre m] segments [IH _]];
    [cbn; split; [lia|congruence]|].
  cbn [map fst concat assemble]. rewrite <- app_assoc, !length_app.
  rewrite length_app in IH.
  pose proof (marker_text_not_nil m) as Hm.
  destruct (marker_text m) as [|x mt]; [congruence|]. cbn [length].
  split; [lia|intros _; lia].
Qed.

End FixedPoints.

(** ** What a run leaves alone *)

Section Frames.

Variable cwd : str.
Variable rootDir : result str.
Variable outDir : str.

Implicit Types (w : world) (f g filePath : str) (l : list str).

Lemma file_chain_files w f w' :
  file_chain cwd rootDir outDir w f = Ok w' ->
  exists content content',
    files w !! f = Some content /\
    inlineResourcesFromString (files w) content
      (file_resolver cwd rootDir outDir f) = Ok content' /\
    (f ∉ locked w) /\
    w' = set_files (<[f := content']> (files w)) w.
Proof.
  unfold file_chain, readFile, readFileSync, writeFile.
  destruct (files w !! f) as [content|]; [|discriminate]. cbn [bind].
  destruct (inlineResourcesFromString _ _ _) as [content'|] eqn:Ei;
    [|discriminate].
  cbn [bind]. destruct (bool_decide (f ∈ locked w)) eqn:Hl; [discriminate|].
  intros [= <-]. apply bool_decide_eq_false in Hl. now exists content, content'.
Qed.

(** A unit of work writes its own file only, and only when the file
    exists. *)
Lemma unit_of_work_frame w f :
  let w' := snd (unit_of_work cwd rootDir outDir w f) in
  dom (files w') = dom (files w) /\ locked w' = locked w /\
  configs w' = configs w /\ require_cache w' = require_cache w /\
  forall g, g <> f -> files w' !! g = files w !! g.
Proof.
  unfold unit_of_work. destruct (file_chain cwd rootDir outDir w f) as [w'|e] eqn:Hc; cbn [snd].
  - apply file_chain_files in Hc as (content & content' & Hf & _ & _ & ->).
    cbn [files locked configs require_cache set_files]. repeat split.
    + rewrite dom_insert_L. apply elem_of_dom_2 in Hf.
      now apply subseteq_union_1_L, singleton_subseteq_l.
    + intros g Hg. now rewrite lookup_insert_ne.
  - cbn. easy.
Qed.

Lemma promise_all_frame w l :
  let w' := snd (promise_all (unit_of_work cwd rootDir outDir) w l) in
  dom (files w') = dom (files w) /\ locked w' = locked w /\
  configs w' = configs w /\ require_cache w' = require_cache w /\
  forall g, g ∉ l -> files w' !! g = files w !! g.
Proof.
  revert w. induction l as [|f l IH]; intros w; [easy|].
  cbn [promise_all].
  pose proof (unit_of_work_frame w f) as (D1 & L1 & C1 & R1 & F1).
  destruct (unit_of_work cwd rootDir outDir w f) as [p1 w1]. cbn [snd] in *.
  specialize (IH w1). destruct (promise_all (unit_of_work cwd rootDir outDir) w1 l) as [ps w2].
  cbn [snd] in *. destruct IH as (D2 & L2 & C2 & R2 & F2).
  repeat split; try congruence.
  intros g Hg. apply not_elem_of_cons in Hg as [Hgf Hgl].
  now rewrite F2, F1.
Qed.

(** Without a declaration neither the files nor the resolver are
    looked at. *)
Lemma inline_nothing fs content resolver :
  has_match re_templateUrl content = false ->
  has_match re_styleUrls content = false ->
  inlineResourcesFromString fs content resolver = Ok (removeModuleId content).
Proof.
  intros Ht Hs. unfold inlineResourcesFromString. cbn [foldl bind].
  unfold inlineTemplate. rewrite replace_no_match by now apply has_match_false.
  cbn [bind]. unfold inlineStyle.
  now rewrite replace_no_match by now apply has_match_false.
Qed.

Lemma set_files_same w : set_files (files w) w = w.
Proof. now destruct w. Qed.

(** A settled file is written back as it is. *)
Lemma unit_of_work_settled w f :
  settled w f = true -> unit_of_work cwd rootDir outDir w f = (Ok tt, w).
Proof.
  unfold settled. destruct (files w !! f) as [content|] eqn:Hf; [|discriminate].
  intros H. apply andb_true_iff in H as [H Hl].
  apply andb_true_iff in H as [H Hm]. apply andb_true_iff in H as [Ht Hs].
  apply negb_true_iff in Ht, Hs, Hm, Hl.
  unfold unit_of_work, file_chain, readFile, readFileSync, writeFile.
  rewrite Hf. cbn [bind]. rewrite inline_nothing by assumption. cbn [bind].
  rewrite Hl. unfold removeModuleId.
  rewrite replace_const_no_match by now apply has_match_false.
  now rewrite insert_id, set_files_same.
Qed.

Lemma promise_all_settled w l :
  forallb (settled w) l = true -> promise_all (unit_of_work cwd rootDir outDir) w l = (Ok tt, w).
Proof.
  induction l as [|f l IH]; [reflexivity|]. cbn [forallb promise_all].
  intros H. apply andb_true_iff in H as [Hf H].
  now rewrite unit_of_work_settled, IH.
Qed.

(** The unit of a file leaves the same in that file in two worlds in
    which the file and what its inlining reads are the same. *)
Lemma unit_of_work_agree w w' f :
  locked w' = locked w ->
  files w' !! f = files w !! f ->
  (forall content,
     files w !! f = Some content ->
     inlineResourcesFromString (files w') content
       (file_resolver cwd rootDir outDir f) =
     inlineResourcesFromString (files w) content
       (file_resolver cwd rootDir outDir f)) ->
  files (snd (unit_of_work cwd rootDir outDir w' f)) !! f = outcome cwd rootDir outDir w f.
Proof.
  intros Hl Hf Hin. unfold outcome, unit_of_work, file_chain, readFile,
    readFileSync, writeFile. rewrite Hf, Hl.
  destruct (files w !! f) as [content|] eqn:Ec; cbn [bind snd console_error files];
    [|now rewrite Hf, Ec].
  rewrite (Hin content eq_refl).
  destruct (inlineResourcesFromString (files w) content _) as [c'|];
    cbn [bind snd console_error files]; [|now rewrite Hf, Ec].
  destruct (bool_decide (f ∈ locked w)); cbn [snd console_error files set_files];
    [now rewrite Hf, Ec|].
  now rewrite !lookup_insert_eq.
Qed.

Lemma promise_all_independent w (L : list str) :
  (forall f content fs',
     f ∈ L -> files w !! f = Some content ->
     (forall g, g ∉ L -> fs' !! g = files w !! g) ->
     inlineResourcesFromString fs' content (file_resolver cwd rootDir outDir f) =
     inlineResourcesFromString (files w) content
       (file_resolver cwd rootDir outDir f)) ->
  forall l, NoDup l -> (forall g, g ∈ l -> g ∈ L) ->
  forall g, files (snd (promise_all (unit_of_work cwd rootDir outDir) w l)) !! g =
            if bool_decide (g ∈ l) then outcome cwd rootDir outDir w g else files w !! g.
Proof.
  intros Hind l. induction l as [|f l IH] using rev_ind; intros Hnd Hsub g.
  - cbn. now rewrite bool_decide_eq_false_2 by apply not_elem_of_nil.
  - apply NoDup_app in Hnd as (Hnd & Hf & _).
    assert (f ∉ l) as Hfl
      by (intros Hin; apply (Hf f Hin); apply list_elem_of_here).
    assert (forall g, g ∈ l -> g ∈ L) as Hsub'
      by (intros x Hx; apply Hsub, elem_of_app; now left).
    assert (f ∈ L) as HfL
      by (apply Hsub, elem_of_app; right; apply list_elem_of_here).
    specialize (IH Hnd Hsub').
    rewrite promise_all_app.
    pose proof (promise_all_frame w l) as (_ & Hl1 & _ & _ & _).
    cbn zeta in Hl1.
    destruct (promise_all (unit_of_work cwd rootDir outDir) w l) as [p0 w1].
    cbn [snd] in *. cbn [promise_all].
    pose proof (unit_of_work_frame w1 f) as (_ & _ & _ & _ & Hother).
    assert (files (snd (unit_of_work cwd rootDir outDir w1 f)) !! f = outcome cwd rootDir outDir w f)
      as Hout.
    { apply unit_of_work_agree; [exact Hl1| |].
      - rewrite IH. now rewrite bool_decide_eq_false_2.
      - intros content Hc. apply Hind; [exact HfL|exact Hc|].
        intros g' Hg'. rewrite IH. rewrite bool_decide_eq_false_2; [reflexivity|].
        intros Hin. now apply Hg', Hsub'. }
    destruct (unit_of_work cwd rootDir outDir w1 f) as [p1 w2]. cbn [snd] in *.
    destruct (decide (g = f)) as [->|Hne].
    + rewrite bool_decide_eq_true_2; [exact Hout|].
      apply elem_of_app; right; apply list_elem_of_here.
    + rewrite Hother by exact Hne. rewrite IH.
      destruct (decide (g ∈ l)) as [Hin|Hnin].
      * rewrite !bool_decide_eq_true_2; [reflexivity| |exact Hin].
        apply elem_of_app. now left.
      * rewrite !bool_decide_eq_false_2; [reflexivity| |exact Hnin].
        intros Hin. apply elem_of_app in Hin as [Hin|Hin]; [easy|].
        apply list_elem_of_singleton in Hin. easy.
Qed.

End Frames.

(** ** Promises *)

Section Promises.

Lemma on_event_settled {A} (p : promise A) (evs : list (event A)) :
  p <> Pending -> foldl on_event p evs = p.
Proof.
  intros Hp. induction evs as [|ev evs IH]; [reflexivity|].
  cbn [foldl]. destruct p; [congruence|..];
    (destruct ev as [[err|] ?|e]; exact IH).
Qed.

Lemma promiseify_first {Args A} (fn : Args -> list (event A)) args :
  promiseify fn args =
  match fn args with
  | [] => Pending
  | ev :: _ => on_event Pending ev
  end.
Proof.
  unfold promiseify. destruct (fn args) as [|ev evs]; [reflexivity|].
  cbn [foldl]. apply on_event_settled.
  now destruct ev as [[err|] ?|e].
Qed.

(** [readFile], as the units of work use it, is the promise that
    [promiseify] makes of [fs.readFile], once settled. *)
Lemma readFile_promiseified (w : world) (filePath : str) :
  promiseify (fs_readFile w) filePath = settled_as (readFile w filePath).
Proof.
  rewrite promiseify_first. unfold fs_readFile, readFile, readFileSync.
  now destruct (files w !! filePath).
Qed.

End Promises.

(** * Properties beyond the claims *)

(** X1.  The resolver that [inlineResources] builds for a compiled file
    takes a URL to the source tree: for a file in the directory [sub]
    below [outDir], a URL made of names (and of [.], which is dropped) is
    looked up in the directory [sub] below [rootDir]. *)
Theorem file_resolver_maps_to_source
    (cwd : str) (r o sub : list str) (name : str) (u : list str) :
  forallb is_name r = true -> forallb is_name o = true ->
  forallb is_name sub = true -> is_name name = true ->
  forallb is_name_or_dot u = true ->
  file_resolver cwd (Ok (absolute r)) (absolute o)
    (absolute (o ++ sub ++ [name])) (join [SLASH] u) =
  Ok (absolute (r ++ sub ++ List.filter is_name u)).
Proof.
  intros Hr Ho Hsub Hname Hu. unfold file_resolver. cbn [bind]. f_equal.
  assert (forallb is_name (o ++ sub) = true) as Hos
    by now rewrite forallb_app, Ho, Hsub.
  rewrite (app_assoc o sub), dirname_absolute, relative_below by assumption.
  rewrite join_paths_three by discriminate.
  destruct (plain_absolute r Hr) as [Pr Nr].
  destruct (plain_join sub (names_are_names_or_dots _ Hsub)) as [Ps Ns].
  rewrite filter_names in Ns by exact Hsub.
  destruct (plain_join u Hu) as [Pu Nu].
  set (S' := match join [SLASH] sub with [] => [] | _ => SLASH :: join [SLASH] sub end).
  set (U' := match join [SLASH] u with [] => [] | _ => SLASH :: join [SLASH] u end).
  assert (plain (absolute r ++ S') = true /\ names (absolute r ++ S') = r ++ sub /\
          (r ++ sub <> [] -> last (absolute r ++ S') <> Some SLASH))
    as (P1 & N1 & L1).
  { unfold S'. destruct sub as [|s0 sub'].
    - cbn [join]. rewrite !app_nil_r. split; [exact Pr|]. split; [exact Nr|].
      intros Hne. unfold absolute. destruct r as [|r0 r']; [congruence|].
      rewrite last_cons.
      pose proof (last_join (r0 :: r') (names_are_names_or_dots _ Hr)) as Hl.
      destruct (last (join [SLASH] (r0 :: r'))) as [z|] eqn:E; [exact Hl|].
      apply last_None in E.
      now apply join_not_nil in E; [|apply names_are_names_or_dots|].
    - pose proof (join_not_nil (s0 :: sub') (names_are_names_or_dots _ Hsub)
                    ltac:(discriminate)) as Hj.
      destruct (join [SLASH] (s0 :: sub')) as [|j0 j'] eqn:Ej; [congruence|].
      rewrite <- Ej in *.
      rewrite plain_app, names_app, Pr, Ps, Nr, Ns. repeat split.
      intros _. rewrite last_app, last_cons.
      pose proof (last_join (s0 :: sub') (names_are_names_or_dots _ Hsub)) as Hl.
      destruct (last (join [SLASH] (s0 :: sub'))) as [z|] eqn:E; [exact Hl|].
      apply last_None in E. congruence. }
  rewrite app_assoc.
  assert (plain ((absolute r ++ S') ++ U') = true /\
          names ((absolute r ++ S') ++ U') = (r ++ sub) ++ List.filter is_name u /\
          (names ((absolute r ++ S') ++ U') <> [] ->
           last ((absolute r ++ S') ++ U') <> Some SLASH))
    as (P2 & N2 & L2).
  { unfold U'. destruct u as [|u0 u'].
    - cbn [join List.filter]. rewrite !app_nil_r. split; [exact P1|].
      split; [exact N1|]. rewrite N1. exact L1.
    - pose proof (join_not_nil (u0 :: u') Hu ltac:(discriminate)) as Hj.
      destruct (join [SLASH] (u0 :: u')) as [|j0 j'] eqn:Ej; [congruence|].
      rewrite <- Ej in *.
      rewrite plain_app, names_app, P1, Pu, N1, Nu. repeat split.
      intros _. rewrite last_app, last_cons.
      pose proof (last_join (u0 :: u') Hu) as Hl.
      destruct (last (join [SLASH] (u0 :: u'))) as [z|] eqn:E; [exact Hl|].
      apply last_None in E. congruence. }
  rewrite normalize_plain; [|reflexivity|exact P2|exact L2].
  now rewrite N2, <- app_assoc.
Qed.

(** A component two levels below [dist] and a URL that starts with
    [./]. *)
Lemma file_resolver_maps_to_source_witness :
  file_resolver (js "/") (Ok (js "/proj/src")) (js "/proj/dist")
    (js "/proj/dist/app/hero/hero.component.js") (js "./hero.component.html") =
  Ok (js "/proj/src/app/hero/hero.component.html").
Proof.
  exact (file_resolver_maps_to_source (js "/") [js "proj"; js "src"]
           [js "proj"; js "dist"] [js "app"; js "hero"] (js "hero.component.js")
           [js "."; js "hero.component.html"]
           eq_refl eq_refl eq_refl eq_refl eq_refl).
Defined.

(** X2.  The pattern that [inlineResources] hands to [glob.sync] is
    [<outDir>/**/*.js]: with a configuration whose output directory is
    resolved to the absolute path of the names [o], the units of work of
    the run are those of the files that [glob.sync] returns for the
    path of the names [o], [**] and [*.js], whatever [glob.sync] returns
    for other patterns. *)
Theorem inlineResources_globs_below_outDir
    (__dirname cwd : str) (glob_sync : str -> gmap str str -> list str)
    (fuel : nat) (w : world) (tsconfigPath : str)
    (cfg : tsconfig) (w1 : world) (o : list str) :
  readTsconfig __dirname cwd fuel w (path.resolve cwd [__dirname; tsconfigPath]) =
    (Ok cfg, w1) ->
  default ∅ (compilerOptions cfg) !! js "outDir" = Some (VStr (absolute o)) ->
  forallb is_name o = true ->
  let rootDir := string_option (default ∅ (compilerOptions cfg)) (js "rootDir") in
  inlineResources __dirname cwd glob_sync fuel w tsconfigPath =
  (Ok (Ok tt),
   snd (promise_all (unit_of_work cwd rootDir (absolute o)) w1
          (glob_sync (absolute (o ++ [js "**"; js "*.js"])) (files w1)))).
Proof.
  intros Hr Hout Ho rootDir.
  assert (path.join_paths [absolute o; js "**"; js "*.js"] =
          absolute (o ++ [js "**"; js "*.js"])) as Hpattern.
  { assert (forallb is_name (o ++ [js "**"; js "*.js"]) = true) as Hall
      by now rewrite forallb_app, Ho.
    rewrite join_paths_three by discriminate.
    change (match js "**" with [] => [] | _ => SLASH :: js "**" end ++
            match js "*.js" with [] => [] | _ => SLASH :: js "*.js" end)
      with (SLASH :: join [SLASH] [js "**"; js "*.js"]).
    destruct (plain_absolute o Ho) as [Po No].
    destruct (plain_join [js "**"; js "*.js"] eq_refl) as [Pg Ng].
    rewrite normalize_plain.
    - now rewrite names_app, No, Ng.
    - reflexivity.
    - now rewrite plain_app, Po, Pg.
    - intros _. rewrite last_app, last_cons. vm_compute. discriminate. }
  assert (string_option (default ∅ (compilerOptions cfg)) (js "outDir") =
          Ok (absolute o)) as Hs
    by (unfold string_option; now rewrite Hout).
  unfold inlineResources. rewrite Hr, Hs, Hpattern. fold rootDir.
  pose proof (promise_all_fulfilled cwd rootDir (absolute o) w1
                (glob_sync (absolute (o ++ [js "**"; js "*.js"])) (files w1)))
    as H.
  destruct (promise_all _ w1 _) as [p w2]. cbn [fst snd] in *. now rewrite H.
Qed.

(** A [glob.sync] that knows one pattern only: the file that it lists
    for [/proj/dist/**/*.js] is inlined. *)
Lemma inlineResources_globs_below_outDir_witness :
  let glob_sync := fun (pattern : str) (_ : gmap str str) =>
    if path.str_eqb pattern (js "/proj/dist/**/*.js")
    then [js "/proj/dist/good.js"] else [] in
  let r := inlineResources (js "/tool") (js "/") glob_sync 2 two_files_world
             (js "/proj/tsconfig.json") in
  fst r = Ok (Ok tt) /\
  files (snd r) !! js "/proj/dist/good.js" =
    Some (js "template: " ++ [DQUOTE] ++ js "<b>Hi</b>" ++ [DQUOTE]).
Proof.
  intros glob_sync r.
  let vr := eval vm_compute in
              (readTsconfig (js "/tool") (js "/") 2 two_files_world
                 (path.resolve (js "/") [js "/tool"; js "/proj/tsconfig.json"])) in
  match vr with
  | (Ok ?cfg, ?w1) =>
      pose proof (inlineResources_globs_below_outDir (js "/tool") (js "/")
                    glob_sync 2 two_files_world (js "/proj/tsconfig.json") cfg w1
                    [js "proj"; js "dist"]
                    ltac:(vm_compute; reflexivity) ltac:(vm_compute; reflexivity)
                    eq_refl) as H
  end.
  unfold r. rewrite H. cbn [fst snd]. split; [reflexivity|].
  vm_compute. reflexivity.
Defined.

(** X3.  A relative configuration path is resolved against the
    directory of the script, not against the working directory: it
    means the same as the absolute path below that directory. *)
Theorem inlineResources_resolves_against_the_script_directory
    (cwd : str) (glob_sync : str -> gmap str str -> list str)
    (fuel : nat) (w : world) (d u : list str) :
  forallb is_name d = true ->
  forallb is_name_or_dot u = true -> u <> [] ->
  inlineResources (absolute d) cwd glob_sync fuel w (join [SLASH] u) =
  inlineResources (absolute d) cwd glob_sync fuel w
    (absolute (d ++ List.filter is_name u)).
Proof.
  intros Hd Hu Hne. unfold inlineResources.
  rewrite resolve_below by assumption.
  assert (forallb is_name (d ++ List.filter is_name u) = true) as Hall.
  { rewrite forallb_app, Hd. cbn [andb]. apply forallb_forall.
    intros x Hx. now apply List.filter_In in Hx. }
  pose proof (resolve_last_absolute cwd [absolute d] _ Hall) as R.
  cbn [app] in R. now rewrite R.
Qed.

(** The path [./tsconfig.json] for a script in [/tool], run from
    another directory. *)
Lemma inlineResources_resolves_against_the_script_directory_witness :
  inlineResources (js "/tool") (js "/home/me/proj")
    (fun _ _ => []) 2 example_world (js "./tsconfig.json") =
  inlineResources (js "/tool") (js "/home/me/proj")
    (fun _ _ => []) 2 example_world (js "/tool/tsconfig.json").
Proof.
  exact (inlineResources_resolves_against_the_script_directory
           (js "/home/me/proj") (fun _ _ => []) 2 example_world
           [js "tool"] [js "."; js "tsconfig.json"] eq_refl eq_refl
           ltac:(discriminate)).
Defined.

(** X4.  A document whose [extends] is absent or falsy is resolved on
    its own: when [outDir] and [rootDir] are absent, falsy or strings,
    [readTsconfig] returns the document with these two options resolved
    against its directory and every other option as declared; when one
    of the two is a truthy value that is not a string, it throws a
    [TypeError]. *)
Theorem readTsconfig_without_extends
    (__dirname cwd : str) (fuel : nat) (w : world) (p : str) (doc : tsconfig) :
  let own := default ∅ (compilerOptions doc) in
  lookup_doc w (path.resolve cwd [__dirname; p]) = Some doc ->
  extends_nothing doc = true ->
  if path_or_falsy (own !! js "outDir") && path_or_falsy (own !! js "rootDir")
  then exists cfg w',
         readTsconfig __dirname cwd (S fuel) w p = (Ok cfg, w') /\
         extends cfg = extends doc /\
         forall k, default ∅ (compilerOptions cfg) !! k =
                   resolved_option cwd (path.dirname p) k (own !! k)
  else exists w',
         readTsconfig __dirname cwd (S fuel) w p = (Throw TypeError, w').
Proof.
  intros own Hdoc Hext.
  rewrite (readTsconfig_plain __dirname cwd fuel w p doc Hdoc Hext).
  fold own.
  set (w2 := store _ _ _). unfold resolve_dirs.
  destruct (path_or_falsy (own !! js "outDir")) eqn:E1; cbn [andb].
  - destruct (resolve_prop_Ok cwd (path.dirname p) own _ E1) as (o1 & H1).
    rewrite H1.
    assert (o1 !! js "rootDir" = own !! js "rootDir") as Hroot
      by (apply (resolve_prop_keeps cwd _ _ _ _ _ H1); discriminate).
    destruct (path_or_falsy (own !! js "rootDir")) eqn:E2.
    + rewrite <- Hroot in E2.
      destruct (resolve_prop_Ok cwd (path.dirname p) o1 _ E2) as (o2 & H2).
      rewrite H2. eexists _, _. split; [reflexivity|]. split; [reflexivity|].
      assert (resolve_dirs cwd (path.resolve cwd [__dirname; p]) (path.dirname p)
                doc own w2 =
              (Ok (with_options doc o2),
               store (path.resolve cwd [__dirname; p]) (with_options doc o2)
                 (store (path.resolve cwd [__dirname; p]) (with_options doc o1) w2)))
        as Hd by (unfold resolve_dirs; now rewrite H1, H2).
      apply resolve_dirs_lookup in Hd as (o' & Ho' & _ & Hk).
      cbn [compilerOptions with_options] in Ho'. injection Ho' as <-.
      exact Hk.
    + rewrite <- Hroot in E2.
      rewrite (resolve_prop_Throw cwd (path.dirname p) o1 _ E2). now eexists.
  - rewrite (resolve_prop_Throw cwd (path.dirname p) own _ E1). now eexists.
Qed.

(** The base configuration of the example, resolved on its own. *)
Lemma readTsconfig_without_extends_witness :
  exists cfg w',
    readTsconfig (js "/tool") (js "/") 1 example_world (js "/proj/base.json") =
      (Ok cfg, w') /\
    default ∅ (compilerOptions cfg) !! js "rootDir" = Some (VStr (js "/proj/src")) /\
    default ∅ (compilerOptions cfg) !! js "outDir" = Some (VStr (js "/proj/out")).
Proof.
  pose proof (readTsconfig_without_extends (js "/tool") (js "/") 0 example_world
                (js "/proj/base.json") example_base
                ltac:(vm_compute; reflexivity) eq_refl) as H.
  cbv zeta in H.
  change (path_or_falsy (default ∅ (compilerOptions example_base) !! js "outDir") &&
          path_or_falsy (default ∅ (compilerOptions example_base) !! js "rootDir"))
    with true in H.
  destruct H as (cfg & w' & Hr & _ & Hk). exists cfg, w'.
  split; [exact Hr|]. rewrite !Hk. split; vm_compute; reflexivity.
Defined.

(** X5.  When [extends] is truthy but not a string (an array of paths,
    for one), [readTsconfig] throws a [TypeError]. *)
Theorem readTsconfig_needs_a_string_to_extend
    (__dirname cwd : str) (fuel : nat) (w : world) (p : str)
    (doc : tsconfig) (v : jsval) :
  lookup_doc w (path.resolve cwd [__dirname; p]) = Some doc ->
  extends doc = Some v ->
  truthy v = true ->
  is_string (Some v) = false ->
  fst (readTsconfig __dirname cwd (S fuel) w p) = Throw TypeError.
Proof.
  intros Hdoc Hext Ht Hs. cbn [readTsconfig].
  destruct (require_found _ _ _ Hdoc) as (w1 & -> & _).
  rewrite Hext, Ht. now destruct v.
Qed.

(** A configuration that extends two others. *)
Lemma readTsconfig_needs_a_string_to_extend_witness :
  fst (readTsconfig (js "/tool") (js "/") 5 array_extends_world
         (js "/proj/tsconfig.json")) = Throw TypeError.
Proof.
  exact (readTsconfig_needs_a_string_to_extend (js "/tool") (js "/") 4
           array_extends_world (js "/proj/tsconfig.json")
           {| extends := Some (VArr [VStr (js "./a.json"); VStr (js "./b.json")]);
              compilerOptions := None |}
           (VArr [VStr (js "./a.json"); VStr (js "./b.json")])
           ltac:(vm_compute; reflexivity) eq_refl eq_refl eq_refl).
Defined.

(** X6.  In a process whose working directory is absolute, a
    configuration that [readTsconfig] returns always has a
    [compilerOptions] object, in which [outDir] and [rootDir] are each
    absent, falsy, or an absolute path in normal form. *)
Theorem readTsconfig_resolves_directories
    (__dirname cwd : str) (fuel : nat) (w : world) (p : str)
    (cfg : tsconfig) (w' : world) :
  path.is_absolute cwd = true ->
  readTsconfig __dirname cwd fuel w p = (Ok cfg, w') ->
  exists options,
    compilerOptions cfg = Some options /\
    resolved_dir (options !! js "outDir") = true /\
    resolved_dir (options !! js "rootDir") = true.
Proof.
  intros Hc H.
  destruct (readTsconfig_dirs __dirname cwd fuel w p cfg w' Hc H)
    as (options & Ho & Hk).
  exists options. split; [exact Ho|]. split; now apply Hk.
Qed.

(** The child configuration of the example. *)
Lemma readTsconfig_resolves_directories_witness :
  exists cfg w' options,
    readTsconfig (js "/tool") (js "/") 2 example_world
      (js "/proj/app/tsconfig.json") = (Ok cfg, w') /\
    compilerOptions cfg = Some options /\
    resolved_dir (options !! js "outDir") = true /\
    resolved_dir (options !! js "rootDir") = true.
Proof.
  let vr := eval vm_compute in
              (readTsconfig (js "/tool") (js "/") 2 example_world
                 (js "/proj/app/tsconfig.json")) in
  match vr with
  | (Ok ?cfg, ?w') =>
      assert (readTsconfig (js "/tool") (js "/") 2 example_world
                (js "/proj/app/tsconfig.json") = (Ok cfg, w')) as Hr
        by (vm_compute; reflexivity);
      destruct (readTsconfig_resolves_directories (js "/tool") (js "/") 2
                  example_world (js "/proj/app/tsconfig.json") cfg w'
                  eq_refl Hr) as (options & Ho & H1 & H2);
      exists cfg, w', options
  end.
  repeat split; assumption.
Defined.

(** X7.  A directory option that the child does not declare comes out
    exactly as the parent resolved it: it still points into the
    directory of the parent, not of the child. *)
Theorem readTsconfig_inherits_directories
    (__dirname cwd : str) (fuel : nat) (w : world) (p : str)
    (doc : tsconfig) (w1 : world) (e : str) (parent : tsconfig)
    (w3 : world) (cfg : tsconfig) (w' : world) (k : str) :
  let key := path.resolve cwd [__dirname; p] in
  let own := default ∅ (compilerOptions doc) in
  path.is_absolute cwd = true ->
  require w key = (Ok doc, w1) ->
  extends doc = Some (VStr e) -> e <> [] ->
  readTsconfig __dirname cwd fuel (store key (with_options doc own) w1)
    (path.resolve cwd [path.dirname p; e]) = (Ok parent, w3) ->
  readTsconfig __dirname cwd (S fuel) w p = (Ok cfg, w') ->
  is_dir_option k = true -> own !! k = None ->
  default ∅ (compilerOptions cfg) !! k =
  default ∅ (compilerOptions parent) !! k.
Proof.
  intros key own Hc Hreq Hext He Hparent Hread Hk Hown.
  rewrite (readTsconfig_extends __dirname cwd fuel w p doc w1 e parent w3 cfg w'
             Hreq Hext He Hparent Hread k).
  fold own. rewrite Hown.
  destruct (readTsconfig_dirs __dirname cwd _ _ _ _ _ Hc Hparent)
    as (options & -> & Hdir).
  cbn [default]. apply resolved_option_resolved. now apply Hdir.
Qed.

(** The child of the example inherits [rootDir] from its base. *)
Lemma readTsconfig_inherits_directories_witness :
  let r := readTsconfig (js "/tool") (js "/") 2 example_world
             (js "/proj/app/tsconfig.json") in
  let base := readTsconfig (js "/tool") (js "/") 1 example_world
                (js "/proj/base.json") in
  resolved r (js "rootDir") = resolved base (js "rootDir").
Proof.
  set (p := js "/proj/app/tsconfig.json").
  set (key := path.resolve (js "/") [js "/tool"; p]).
  set (w1 := snd (require example_world key)).
  set (w2 := store key (with_options example_child
                          (default ∅ (compilerOptions example_child))) w1).
  set (rp := readTsconfig (js "/tool") (js "/") 1 w2
               (path.resolve (js "/") [path.dirname p; js "../base.json"])).
  intros r base.
  let v := eval vm_compute in rp in
  let vr := eval vm_compute in r in
  match constr:((v, vr)) with
  | ((Ok ?parent, ?w3), (Ok ?cfg, ?w')) =>
      assert (rp = (Ok parent, w3)) as Hp by (vm_compute; reflexivity);
      assert (r = (Ok cfg, w')) as Hr by (vm_compute; reflexivity);
      pose proof (readTsconfig_inherits_directories (js "/tool") (js "/") 1
                    example_world p example_child w1 (js "../base.json")
                    parent w3 cfg w' (js "rootDir") eq_refl
                    ltac:(vm_compute; reflexivity) eq_refl
                    ltac:(discriminate) Hp Hr eq_refl
                    ltac:(vm_compute; reflexivity))
        as H
  end.
  unfold resolved. rewrite Hr. cbn [fst]. rewrite H.
  vm_compute. reflexivity.
Defined.

(** X8.  When the chain of [extends] comes back to a path that it has
    visited, [readTsconfig] never returns a configuration: whatever the
    depth of the stack, the call ends in a [RangeError]. *)
Theorem readTsconfig_overflows_on_cycle
    (__dirname cwd : str) (w : world) (p q : str) (n d : nat) :
  follow __dirname cwd w n p = Some q ->
  follow __dirname cwd w (S d) q = Some q ->
  forall fuel, fst (readTsconfig __dirname cwd fuel w p) = Throw RangeError.
Proof.
  intros Hn Hd. apply readTsconfig_endless.
  exact (follow_cycle __dirname cwd w n d p q Hn Hd).
Qed.

(** Two configurations that extend each other, with a stack a thousand
    calls deep. *)
Lemma readTsconfig_overflows_on_cycle_witness :
  fst (readTsconfig (js "/tool") (js "/") 1000 cyclic_world (js "/proj/a.json")) =
  Throw RangeError.
Proof.
  exact (readTsconfig_overflows_on_cycle (js "/tool") (js "/") cyclic_world
           (js "/proj/a.json") (js "/proj/a.json") 0 1
           ltac:(vm_compute; reflexivity) ltac:(vm_compute; reflexivity) 1000).
Defined.

(** X9.  On a chain of [extends] of [n] links whose documents can all
    be loaded and declare their directory options as strings (or falsy,
    or not at all), [readTsconfig] returns a configuration, the same for
    every stack deeper than [n] calls. *)
Theorem readTsconfig_returns_on_well_formed_chain
    (__dirname cwd : str) (w : world) (n : nat) (p : str) :
  well_formed __dirname cwd w n p = true ->
  exists cfg w',
    forall fuel, n < fuel ->
    readTsconfig __dirname cwd fuel w p = (Ok cfg, w').
Proof. apply readTsconfig_well_formed. Qed.

(** The child of the example, with stacks of depth 2 and 50. *)
Lemma readTsconfig_returns_on_well_formed_chain_witness :
  exists cfg w',
    readTsconfig (js "/tool") (js "/") 2 example_world
      (js "/proj/app/tsconfig.json") = (Ok cfg, w') /\
    readTsconfig (js "/tool") (js "/") 50 example_world
      (js "/proj/app/tsconfig.json") = (Ok cfg, w').
Proof.
  destruct (readTsconfig_returns_on_well_formed_chain (js "/tool") (js "/")
              example_world 1 (js "/proj/app/tsconfig.json")
              ltac:(vm_compute; reflexivity)) as (cfg & w' & H).
  exists cfg, w'. split; apply H; lia.
Defined.



(** X11.  When the resolved configuration has no string for [outDir],
    [inlineResources] throws a [TypeError] before any file is read,
    written or logged. *)
Theorem inlineResources_needs_outDir
    (__dirname cwd : str) (glob_sync : str -> gmap str str -> list str)
    (fuel : nat) (w : world) (tsconfigPath : str) (cfg : tsconfig) (w1 : world) :
  readTsconfig __dirname cwd fuel w (path.resolve cwd [__dirname; tsconfigPath]) =
    (Ok cfg, w1) ->
  is_string (default ∅ (compilerOptions cfg) !! js "outDir") = false ->
  inlineResources __dirname cwd glob_sync fuel w tsconfigPath =
    (Throw TypeError, w1) /\
  files w1 = files w /\ console w1 = console w.
Proof.
  intros Hr Hout. unfold inlineResources. rewrite Hr.
  apply readTsconfig_frame in Hr as (F1 & F2 & _).
  assert (string_option (default ∅ (compilerOptions cfg)) (js "outDir") =
          Throw TypeError) as ->; [|easy].
  unfold string_option.
  now destruct (default ∅ (compilerOptions cfg) !! js "outDir") as [[]|].
Qed.

(** A configuration that declares [rootDir] only. *)
Lemma inlineResources_needs_outDir_witness :
  let r := inlineResources (js "/tool") (js "/")
             (fun _ _ => [js "/proj/dist/a.js"]) 2 no_outDir_world
             (js "/proj/tsconfig.json") in
  fst r = Throw TypeError /\ files (snd r) = files no_outDir_world /\
  console (snd r) = [].
Proof.
  intros r.
  let vr := eval vm_compute in
              (readTsconfig (js "/tool") (js "/") 2 no_outDir_world
                 (path.resolve (js "/") [js "/tool"; js "/proj/tsconfig.json"])) in
  match vr with
  | (Ok ?cfg, ?w1) =>
      destruct (inlineResources_needs_outDir (js "/tool") (js "/")
                  (fun _ _ => [js "/proj/dist/a.js"]) 2 no_outDir_world
                  (js "/proj/tsconfig.json") cfg w1
                  ltac:(vm_compute; reflexivity) ltac:(vm_compute; reflexivity))
        as (H & Hf & Hc)
  end.
  unfold r. rewrite H. cbn [fst snd]. now rewrite Hf, Hc.
Defined.

(** X12.  In a run that stays within the model ([require] is asked for
    documents in files, and [eval] is handed nothing but arrays of
    string literals and text that does not parse), [inlineResources]
    creates no file and deletes none, and leaves the write protection
    and the configuration files as they were, whether it throws, logs
    failures or succeeds. *)
Theorem inlineResources_keeps_the_file_set
    (__dirname cwd : str) (glob_sync : str -> gmap str str -> list str)
    (fuel : nat) (w : world) (tsconfigPath : str) :
  let run := inlineResources __dirname cwd glob_sync fuel w tsconfigPath in
  within_model run = true ->
  dom (files (snd run)) = dom (files w) /\ locked (snd run) = locked w /\
  configs (snd run) = configs w.
Proof.
  intros run _. unfold run. clear run. unfold inlineResources.
  destruct (readTsconfig __dirname cwd fuel w _) as [[cfg|e] w1] eqn:Hr;
    apply readTsconfig_frame in Hr as (F1 & F2 & F3 & F4); cbn [snd];
    [|now rewrite F1, F3, F4].
  destruct (string_option _ (js "outDir")) as [outDir|e]; cbn [snd];
    [|now rewrite F1, F3, F4].
  match goal with
  | |- context [promise_all ?u w1 ?l] =>
      pose proof (promise_all_frame cwd
                    (string_option (default ∅ (compilerOptions cfg)) (js "rootDir"))
                    outDir w1 l) as (D & L & C & _);
      destruct (promise_all u w1 l) as [p w2]
  end.
  cbn [snd] in *. now rewrite D, L, C, F1, F3, F4.
Qed.

(** A run over the two compiled files of the example and a path that
    does not exist. *)
Lemma inlineResources_keeps_the_file_set_witness :
  dom (files (snd (inlineResources (js "/tool") (js "/")
                     (fun _ _ => [js "/proj/dist/bad.js"; js "/proj/dist/good.js";
                                  js "/proj/dist/none.js"])
                     2 two_files_world (js "/proj/tsconfig.json")))) =
  dom (files two_files_world).
Proof.
  exact (proj1 (inlineResources_keeps_the_file_set (js "/tool") (js "/")
                  (fun _ _ => [js "/proj/dist/bad.js"; js "/proj/dist/good.js";
                               js "/proj/dist/none.js"])
                  2 two_files_world (js "/proj/tsconfig.json")
                  ltac:(vm_compute; reflexivity))).
Defined.

(** X13.  In a run that hands to [eval] nothing but arrays of string
    literals and text that does not parse, a file that [glob.sync] does
    not list for the pattern is left as it was. *)
Theorem inlineResources_writes_listed_files_only
    (__dirname cwd : str) (glob_sync : str -> gmap str str -> list str)
    (fuel : nat) (w : world) (tsconfigPath : str)
    (cfg : tsconfig) (w1 : world) (outDir g : str) :
  readTsconfig __dirname cwd fuel w (path.resolve cwd [__dirname; tsconfigPath]) =
    (Ok cfg, w1) ->
  string_option (default ∅ (compilerOptions cfg)) (js "outDir") = Ok outDir ->
  g ∉ glob_sync (path.join_paths [outDir; js "**"; js "*.js"]) (files w) ->
  within_model (inlineResources __dirname cwd glob_sync fuel w tsconfigPath) =
    true ->
  files (snd (inlineResources __dirname cwd glob_sync fuel w tsconfigPath)) !! g =
  files w !! g.
Proof.
  intros Hr Hout Hg _. unfold inlineResources. rewrite Hr, Hout.
  apply readTsconfig_frame in Hr as (F1 & _). rewrite F1.
  match goal with
  | |- context [promise_all ?u w1 ?l] =>
      pose proof (promise_all_frame cwd
                    (string_option (default ∅ (compilerOptions cfg)) (js "rootDir"))
                    outDir w1 l) as (_ & _ & _ & _ & H);
      destruct (promise_all u w1 l) as [p w2]
  end.
  cbn [snd] in *. now rewrite H, F1.
Qed.

(** The template of the example is still there after the run. *)
Lemma inlineResources_writes_listed_files_only_witness :
  files (snd (inlineResources (js "/tool") (js "/")
                (fun _ _ => [js "/proj/dist/bad.js"; js "/proj/dist/good.js"])
                2 two_files_world (js "/proj/tsconfig.json")))
    !! js "/proj/src/a.html" = Some (js "<b>Hi</b>").
Proof.
  let vr := eval vm_compute in
              (readTsconfig (js "/tool") (js "/") 2 two_files_world
                 (path.resolve (js "/") [js "/tool"; js "/proj/tsconfig.json"])) in
  match vr with
  | (Ok ?cfg, ?w1) =>
      rewrite (inlineResources_writes_listed_files_only (js "/tool") (js "/")
                 (fun _ _ => [js "/proj/dist/bad.js"; js "/proj/dist/good.js"])
                 2 two_files_world (js "/proj/tsconfig.json") cfg w1
                 (js "/proj/dist") (js "/proj/src/a.html")
                 ltac:(vm_compute; reflexivity) ltac:(vm_compute; reflexivity))
  end.
  - vm_compute. reflexivity.
  - intros H. repeat (apply elem_of_cons in H as [H|H]; [discriminate H|]).
    now apply not_elem_of_nil in H.
  - vm_compute. reflexivity.
Defined.

(** X14.  When every listed file exists, can be written and holds no
    match of the three expressions, the run logs nothing and leaves
    every file with the text that it had: what is read from a file after
    the run is what was read from it before.  (The listed files are
    written all the same, as UTF-8: the statement is about their text,
    not about their bytes.) *)
Theorem inlineResources_leaves_settled_files
    (__dirname cwd : str) (glob_sync : str -> gmap str str -> list str)
    (fuel : nat) (w : world) (tsconfigPath : str)
    (cfg : tsconfig) (w1 : world) (outDir : str) :
  readTsconfig __dirname cwd fuel w (path.resolve cwd [__dirname; tsconfigPath]) =
    (Ok cfg, w1) ->
  string_option (default ∅ (compilerOptions cfg)) (js "outDir") = Ok outDir ->
  forallb (settled w)
    (glob_sync (path.join_paths [outDir; js "**"; js "*.js"]) (files w)) = true ->
  inlineResources __dirname cwd glob_sync fuel w tsconfigPath = (Ok (Ok tt), w1) /\
  files w1 = files w /\ console w1 = console w.
Proof.
  intros Hr Hout Hall. unfold inlineResources. rewrite Hr, Hout.
  apply readTsconfig_frame in Hr as (F1 & F2 & _ & F4).
  rewrite promise_all_settled; [easy|]. rewrite F1.
  revert Hall. generalize (glob_sync (path.join_paths [outDir; js "**"; js "*.js"])
                             (files w)).
  induction l as [|f l IH]; [easy|]. cbn [forallb]. intros H.
  apply andb_true_iff in H as [Hf H]. rewrite (IH H), andb_true_r.
  unfold settled in *. now rewrite F1, F4.
Qed.

(** A tree that has been inlined already. *)
Lemma inlineResources_leaves_settled_files_witness :
  let r := inlineResources (js "/tool") (js "/")
             (fun _ _ => [js "/proj/dist/a.js"; js "/proj/dist/b.js"])
             2 settled_world (js "/proj/tsconfig.json") in
  fst r = Ok (Ok tt) /\ files (snd r) = files settled_world /\
  console (snd r) = [].
Proof.
  intros r.
  let vr := eval vm_compute in
              (readTsconfig (js "/tool") (js "/") 2 settled_world
                 (path.resolve (js "/") [js "/tool"; js "/proj/tsconfig.json"])) in
  match vr with
  | (Ok ?cfg, ?w1) =>
      destruct (inlineResources_leaves_settled_files (js "/tool") (js "/")
                  (fun _ _ => [js "/proj/dist/a.js"; js "/proj/dist/b.js"])
                  2 settled_world (js "/proj/tsconfig.json") cfg w1
                  (js "/proj/dist")
                  ltac:(vm_compute; reflexivity) ltac:(vm_compute; reflexivity)
                  ltac:(vm_compute; reflexivity))
        as (H & Hf & Hc)
  end.
  unfold r. rewrite H. cbn [fst snd]. now rewrite Hf, Hc.
Defined.

(** X15.  In a run that hands to [eval] nothing but arrays of string
    literals and text that does not parse: when the inlining of a
    listed file reads none of the listed files, each listed file ends up
    as its unit of work, run alone in the initial world, leaves it, and
    every other file is unchanged; so the files after the run do not
    depend on the order in which the units run. *)
Theorem units_do_not_interfere
    (cwd : str) (rootDir : result str) (outDir : str) (w : world)
    (l : list str) :
  NoDup l ->
  (forall f content fs',
     f ∈ l -> files w !! f = Some content ->
     (forall g, g ∉ l -> fs' !! g = files w !! g) ->
     inlineResourcesFromString fs' content (file_resolver cwd rootDir outDir f) =
     inlineResourcesFromString (files w) content
       (file_resolver cwd rootDir outDir f)) ->
  within_model (promise_all (unit_of_work cwd rootDir outDir) w l) = true ->
  (forall g,
     files (snd (promise_all (unit_of_work cwd rootDir outDir) w l)) !! g =
     if bool_decide (g ∈ l)
     then files (snd (unit_of_work cwd rootDir outDir w g)) !! g
     else files w !! g) /\
  (forall l',
     l' ≡ₚ l ->
     files (snd (promise_all (unit_of_work cwd rootDir outDir) w l')) =
     files (snd (promise_all (unit_of_work cwd rootDir outDir) w l))).
Proof.
  intros Hnd Hind _.
  pose proof (promise_all_independent cwd rootDir outDir w l Hind) as H.
  split; [now apply H|].
  intros l' Hperm. apply map_eq. intros g.
  rewrite (H l Hnd (fun g Hg => Hg) g).
  rewrite (H l'); [|now rewrite Hperm|intros x Hx; now rewrite <- Hperm].
  destruct (decide (g ∈ l)) as [Hin|Hnin].
  - rewrite !bool_decide_eq_true_2; [reflexivity|exact Hin|now rewrite Hperm].
  - rewrite !bool_decide_eq_false_2; [reflexivity|exact Hnin|now rewrite Hperm].
Qed.

(** The two compiled files of the example, in either order. *)
Lemma units_do_not_interfere_witness :
  let run := promise_all (unit_of_work (js "/") (Ok (js "/proj/src"))
                            (js "/proj/dist")) two_files_world in
  files (snd (run [js "/proj/dist/good.js"; js "/proj/dist/bad.js"])) =
  files (snd (run [js "/proj/dist/bad.js"; js "/proj/dist/good.js"])).
Proof.
  intros run.
  refine (proj2 (units_do_not_interfere (js "/") (Ok (js "/proj/src"))
                   (js "/proj/dist") two_files_world
                   [js "/proj/dist/bad.js"; js "/proj/dist/good.js"] _ _ _)
            [js "/proj/dist/good.js"; js "/proj/dist/bad.js"] _).
  - repeat constructor.
    + intros H. apply elem_of_cons in H as [H|H]; [discriminate H|].
      now apply not_elem_of_nil in H.
    + apply not_elem_of_nil.
  - intros f content fs' Hf Hc Hfs.
    assert (fs' !! js "/proj/src/a.html" = Some (js "<b>Hi</b>")) as Ha.
    { rewrite Hfs; [reflexivity|]. intros H.
      repeat (apply elem_of_cons in H as [H|H]; [discriminate H|]).
      now apply not_elem_of_nil in H. }
    assert (fs' !! js "/proj/src/gone.html" = None) as Hg.
    { rewrite Hfs; [reflexivity|]. intros H.
      repeat (apply elem_of_cons in H as [H|H]; [discriminate H|]).
      now apply not_elem_of_nil in H. }
    apply elem_of_cons in Hf as [->|Hf];
      [|apply list_elem_of_singleton in Hf as ->].
    + assert (content = js "templateUrl: 'gone.html'") as ->
        by (vm_compute in Hc; now injection Hc as <-).
      transitivity (@Throw str (ENOENT (js "/proj/src/gone.html")));
        [|vm_compute; reflexivity].
      unfold inlineResourcesFromString. cbn [foldl bind].
      change (js "templateUrl: 'gone.html'")
        with ([] ++ js "templateUrl:" ++ [SP] ++ [SQUOTE] ++ js "gone" ++
              js ".html" ++ [SQUOTE] ++ []).
      rewrite inlineTemplate_eq by (reflexivity || discriminate).
      change (file_resolver (js "/") (Ok (js "/proj/src")) (js "/proj/dist")
                (js "/proj/dist/bad.js") (js "gone" ++ js ".html"))
        with (@Ok str (js "/proj/src/gone.html")).
      cbn [bind]. unfold readFileSync. rewrite Hg. reflexivity.
    + assert (content = js "templateUrl: 'a.html'") as ->
        by (vm_compute in Hc; now injection Hc as <-).
      transitivity (@Ok str (js "template: " ++ [DQUOTE] ++ js "<b>Hi</b>" ++
                             [DQUOTE]));
        [|vm_compute; reflexivity].
      unfold inlineResourcesFromString. cbn [foldl bind].
      change (js "templateUrl: 'a.html'")
        with ([] ++ js "templateUrl:" ++ [SP] ++ [SQUOTE] ++ js "a" ++
              js ".html" ++ [SQUOTE] ++ []).
      rewrite inlineTemplate_eq by (reflexivity || discriminate).
      change (file_resolver (js "/") (Ok (js "/proj/src")) (js "/proj/dist")
                (js "/proj/dist/good.js") (js "a" ++ js ".html"))
        with (@Ok str (js "/proj/src/a.html")).
      cbn [bind]. unfold readFileSync. rewrite Ha. cbn [bind].
      unfold inlineTemplate at 1. rewrite replace_nil by reflexivity.
      cbn [bind].
      unfold inlineStyle.
      rewrite replace_no_match by (apply has_match_false; vm_compute; reflexivity).
      cbn [bind]. vm_compute. reflexivity.
  - vm_compute. reflexivity.
  - apply perm_swap.
Defined.

(** X16.  With a configuration that has no string for [rootDir], the
    resolver throws a [TypeError] when it is called: a compiled file
    with a [templateUrl] declaration is logged and left as it was, and a
    compiled file with no resource declaration still has its markers
    removed. *)
Theorem unit_of_work_without_rootDir
    (cwd outDir : str) (options : gmap str jsval) (w : world)
    (filePath content : str) :
  is_string (options !! js "rootDir") = false ->
  files w !! filePath = Some content ->
  let rootDir := string_option options (js "rootDir") in
  (has_match re_templateUrl content = true ->
   unit_of_work cwd rootDir outDir w filePath =
     (Ok tt, console_error TypeError w)) /\
  (has_match re_templateUrl content = false ->
   has_match re_styleUrls content = false ->
   filePath ∉ locked w ->
   unit_of_work cwd rootDir outDir w filePath =
     (Ok tt, set_files (<[filePath := removeModuleId content]> (files w)) w)).
Proof.
  intros Hroot Hf rootDir.
  assert (rootDir = Throw TypeError) as ->.
  { unfold rootDir, string_option.
    now destruct (options !! js "rootDir") as [[]|]. }
  unfold unit_of_work, file_chain, readFile, readFileSync. rewrite Hf.
  cbn [bind]. split.
  - intros Ht. unfold inlineResourcesFromString. cbn [foldl bind].
    unfold file_resolver. cbn [bind].
    now rewrite inlineTemplate_resolver_throws.
  - intros Ht Hs Hl. rewrite inline_nothing by assumption. cbn [bind].
    unfold writeFile. now rewrite bool_decide_eq_false_2.
Qed.

(** A file with a template declaration, and a file that holds a marker
    only. *)
Lemma unit_of_work_without_rootDir_witness :
  let rootDir := string_option ∅ (js "rootDir") in
  let w := two_files_world in
  unit_of_work (js "/") rootDir (js "/proj/dist") w (js "/proj/dist/good.js") =
    (Ok tt, console_error TypeError w) /\
  files (snd (unit_of_work (js "/") rootDir (js "/proj/dist") no_outDir_world
                (js "/proj/dist/a.js"))) !! js "/proj/dist/a.js" = Some [].
Proof.
  intros rootDir w. split.
  - refine (proj1 (unit_of_work_without_rootDir (js "/") (js "/proj/dist") ∅
                     two_files_world (js "/proj/dist/good.js")
                     (js "templateUrl: 'a.html'") _ _) _);
      vm_compute; reflexivity.
  - unfold rootDir.
    unshelve erewrite
      (proj2 (unit_of_work_without_rootDir (js "/") (js "/proj/dist") ∅
                no_outDir_world (js "/proj/dist/a.js")
                (js "moduleId: module.id") _ _) _ _ _);
      first [vm_compute; reflexivity | apply not_elem_of_empty].
Defined.

(** X17.  [inlineTemplate] on any content: without a match the content
    comes back as it is; otherwise the content is cut at its first
    match, a declaration [templateUrl: '<name>.html'], the resolver is
    called, then the file is read, then the text after the declaration
    is treated in the same way, and the first of these steps that throws
    decides the outcome. *)
Theorem inlineTemplate_step
    (fs : gmap str str) (resolver : str -> result str) (content : str) :
  if has_match re_templateUrl content
  then exists pre w name post,
         content = pre ++ js "templateUrl:" ++ w ++ [SQUOTE] ++ name ++
                   js ".html" ++ [SQUOTE] ++ post /\
         quiet re_templateUrl pre
           (js "templateUrl:" ++ w ++ [SQUOTE] ++ name ++ js ".html" ++
            [SQUOTE] ++ post) = true /\
         forallb is_space w = true /\ name <> [] /\
         forallb not_squote name = true /\
         inlineTemplate fs content resolver =
         let* templateFile := resolver (name ++ js ".html") in
         let* templateContent := readFileSync fs templateFile in
         let* rest := inlineTemplate fs post resolver in
         Ok (pre ++ js "template: " ++ [DQUOTE] ++ shorten templateContent ++
             [DQUOTE] ++ rest)
  else inlineTemplate fs content resolver = Ok content.
Proof.
  destruct (has_match re_templateUrl content) eqn:H.
  - now apply inlineTemplate_first.
  - apply replace_no_match. now apply has_match_false.
Qed.

(** Content without a match, and content with one declaration. *)
Lemma inlineTemplate_step_witness :
  inlineTemplate ∅ (js "a: 1, templateUrl: x.html") Ok =
    Ok (js "a: 1, templateUrl: x.html") /\
  exists pre w name post,
    js "a: 1, templateUrl: 'x.html', b" =
    pre ++ js "templateUrl:" ++ w ++ [SQUOTE] ++ name ++ js ".html" ++
    [SQUOTE] ++ post /\
    inlineTemplate {[ js "x.html" := js "X" ]}
      (js "a: 1, templateUrl: 'x.html', b") Ok =
    let* templateFile := Ok (name ++ js ".html") in
    let* templateContent := readFileSync {[ js "x.html" := js "X" ]} templateFile in
    let* rest := inlineTemplate {[ js "x.html" := js "X" ]} post Ok in
    Ok (pre ++ js "template: " ++ [DQUOTE] ++ shorten templateContent ++
        [DQUOTE] ++ rest).
Proof.
  split.
  - pose proof (inlineTemplate_step ∅ Ok (js "a: 1, templateUrl: x.html")) as H.
    change (has_match re_templateUrl (js "a: 1, templateUrl: x.html"))
      with false in H.
    exact H.
  - pose proof (inlineTemplate_step {[ js "x.html" := js "X" ]} Ok
                  (js "a: 1, templateUrl: 'x.html', b")) as H.
    change (has_match re_templateUrl (js "a: 1, templateUrl: 'x.html', b"))
      with true in H.
    destruct H as (pre & w & name & post & E & _ & _ & _ & _ & H).
    now exists pre, w, name, post.
Defined.

(** X18.  When the resolver throws on the URL of a declaration, or the
    file that it names does not exist, [inlineTemplate] throws that
    exception, or [ENOENT] with the path of the file: no content is
    returned, whatever follows the declaration. *)
Theorem inlineTemplate_throws_on_missing_file
    (fs : gmap str str) (resolver : str -> result str)
    (pre w name post : str) :
  occurs (js "templateUrl:") pre = false ->
  forallb is_space w = true ->
  name <> [] ->
  forallb not_squote name = true ->
  let content :=
    pre ++ js "templateUrl:" ++ w ++ [SQUOTE] ++ name ++ js ".html" ++
    [SQUOTE] ++ post in
  match resolver (name ++ js ".html") with
  | Throw e => inlineTemplate fs content resolver = Throw e
  | Ok templateFile =>
      fs !! templateFile = None ->
      inlineTemplate fs content resolver = Throw (ENOENT templateFile)
  end.
Proof.
  intros Hpre Hw Hne Hname content. unfold content.
  rewrite inlineTemplate_eq by assumption.
  destruct (resolver (name ++ js ".html")) as [templateFile|e]; [|reflexivity].
  intros Hfs. cbn [bind]. unfold readFileSync. now rewrite Hfs.
Qed.

(** Two declarations, the first with a template that does not
    exist. *)
Lemma inlineTemplate_throws_on_missing_file_witness :
  inlineTemplate {[ js "a.html" := js "<b>Hi</b>" ]}
    (js "x, templateUrl: 'gone.html', templateUrl: 'a.html'") Ok =
  Throw (ENOENT (js "gone.html")).
Proof.
  exact (inlineTemplate_throws_on_missing_file
           {[ js "a.html" := js "<b>Hi</b>" ]} Ok (js "x, ") [SP] (js "gone")
           (js ", templateUrl: 'a.html'") eq_refl eq_refl ltac:(discriminate)
           eq_refl ltac:(vm_compute; reflexivity)).
Defined.

(** X19.  [inlineStyle] on any content: without a match the content
    comes back as it is; otherwise the content is cut at its first
    match, [styleUrls:] with the text from the opening bracket to the
    first closing bracket, that text is evaluated, the files are read in
    the order of the URLs, the text after the declaration is treated in
    the same way, and the first of these steps that throws decides the
    outcome. *)
Theorem inlineStyle_step
    (fs : gmap str str) (resolver : str -> result str) (content : str) :
  if has_match re_styleUrls content
  then exists pre w body post,
         content = pre ++ js "styleUrls:" ++ w ++ [LBRACKET] ++ body ++
                   [RBRACKET] ++ post /\
         quiet re_styleUrls pre
           (js "styleUrls:" ++ w ++ [LBRACKET] ++ body ++ [RBRACKET] ++ post) =
           true /\
         forallb is_space w = true /\
         forallb (fun x => negb (N.eqb x 93)) body = true /\
         inlineStyle fs content resolver =
         let* urls := eval ([LBRACKET] ++ body ++ [RBRACKET]) in
         let* contents :=
           mapM (fun styleUrl =>
                   let* styleFile := resolver styleUrl in
                   readFileSync fs styleFile)
             urls in
         let* rest := inlineStyle fs post resolver in
         Ok (pre ++ js "styles: [" ++
             join (js "," ++ [LF])
               (map (fun content => [DQUOTE] ++ shorten content ++ [DQUOTE])
                  contents) ++
             js "]" ++ rest)
  else inlineStyle fs content resolver = Ok content.
Proof.
  destruct (has_match re_styleUrls content) eqn:H.
  - now apply inlineStyle_first.
  - apply replace_no_match. now apply has_match_false.
Qed.

(** An array that is not closed, and content with one declaration. *)
Lemma inlineStyle_step_witness :
  inlineStyle ∅ (js "styleUrls: ['a.css'") Ok = Ok (js "styleUrls: ['a.css'") /\
  exists pre w body post,
    js "a: 1, styleUrls: ['a.css'], b" =
    pre ++ js "styleUrls:" ++ w ++ [LBRACKET] ++ body ++ [RBRACKET] ++ post /\
    forallb (fun x => negb (N.eqb x 93)) body = true.
Proof.
  split.
  - pose proof (inlineStyle_step ∅ Ok (js "styleUrls: ['a.css'")) as H.
    change (has_match re_styleUrls (js "styleUrls: ['a.css'")) with false in H.
    exact H.
  - pose proof (inlineStyle_step ∅ Ok (js "a: 1, styleUrls: ['a.css'], b")) as H.
    change (has_match re_styleUrls (js "a: 1, styleUrls: ['a.css'], b"))
      with true in H.
    destruct H as (pre & w & body & post & E & _ & _ & Hb & _).
    now exists pre, w, body, post.
Defined.

(** X20.  When the files of the first URLs of the array exist and the
    file of the next URL does not, [inlineStyle] throws [ENOENT] with
    the path of that file. *)
Theorem inlineStyle_throws_on_first_missing_file
    (fs : gmap str str) (resolver : str -> result str)
    (pre w body post : str) (before : list str) (url : str)
    (after : list str) (contents : list str) (styleFile : str) :
  occurs (js "styleUrls:") pre = false ->
  forallb is_space w = true ->
  forallb (fun x => negb (N.eqb x 93)) body = true ->
  eval ([LBRACKET] ++ body ++ [RBRACKET]) = Ok (before ++ url :: after) ->
  mapM (fun styleUrl =>
          let* styleFile := resolver styleUrl in readFileSync fs styleFile)
       before = Ok contents ->
  resolver url = Ok styleFile ->
  fs !! styleFile = None ->
  inlineStyle fs
    (pre ++ js "styleUrls:" ++ w ++ [LBRACKET] ++ body ++ [RBRACKET] ++ post)
    resolver = Throw (ENOENT styleFile).
Proof.
  intros Hpre Hw Hbody Heval Hbefore Hres Hfs.
  rewrite inlineStyle_eq by assumption. rewrite Heval. cbn [bind].
  rewrite (mapM_app_fail _ before url after contents (ENOENT styleFile));
    [reflexivity|exact Hbefore|].
  rewrite Hres. cbn [bind]. unfold readFileSync. now rewrite Hfs.
Qed.

(** Three style sheets, of which the second and the third do not
    exist. *)
Lemma inlineStyle_throws_on_first_missing_file_witness :
  inlineStyle {[ js "a.css" := js "a{}" ]}
    (js "styleUrls: ['a.css', 'b.css', 'c.css']") Ok =
  Throw (ENOENT (js "b.css")).
Proof.
  exact (inlineStyle_throws_on_first_missing_file
           {[ js "a.css" := js "a{}" ]} Ok [] [SP]
           (js "'a.css', 'b.css', 'c.css'") [] [js "a.css"] (js "b.css")
           [js "c.css"] [js "a{}"] (js "b.css")
           eq_refl eq_refl eq_refl ltac:(vm_compute; reflexivity)
           ltac:(vm_compute; reflexivity) eq_refl
           ltac:(vm_compute; reflexivity)).
Defined.

(** X21.  The expression of [inlineTemplate] matches at a position
    exactly when the text there reads [templateUrl:], white space, a
    single quote, a non-empty name without single quote, [.html] and a
    single quote; the match ends there, and the first group is the name
    with [.html]. *)
Theorem templateUrl_syntax (s rest : str) (c : captures) :
  match_here re_templateUrl s = Some (rest, c) <->
  exists w name,
    forallb is_space w = true /\ name <> [] /\
    forallb not_squote name = true /\
    s = js "templateUrl:" ++ w ++ [SQUOTE] ++ name ++ js ".html" ++
        [SQUOTE] ++ rest /\
    c = [(1, name ++ js ".html")].
Proof.
  split; [apply templateUrl_match_shape|].
  intros (w & name & Hw & Hne & Hname & -> & ->). now apply templateUrl_hit.
Qed.

(** A declaration with two blanks and a path with a directory. *)
Lemma templateUrl_syntax_witness :
  match_here re_templateUrl (js "templateUrl:  'app/a.html', x") =
    Some (js ", x", [(1, js "app/a.html")]).
Proof.
  apply (proj2 (templateUrl_syntax (js "templateUrl:  'app/a.html', x")
                  (js ", x") [(1, js "app/a.html")])).
  exists (js "  "), (js "app/a"). repeat split; try reflexivity. discriminate.
Defined.

(** X22.  The expression of [inlineStyle] matches at a position
    exactly when the text there reads [styleUrls:], white space, an
    opening bracket, text without closing bracket (line breaks
    included) and a closing bracket; the match ends at this first
    closing bracket, and the first group is the text between the
    brackets, brackets included. *)
Theorem styleUrls_syntax (s rest : str) (c : captures) :
  match_here re_styleUrls s = Some (rest, c) <->
  exists w body,
    forallb is_space w = true /\
    forallb (fun x => negb (N.eqb x 93)) body = true /\
    s = js "styleUrls:" ++ w ++ [LBRACKET] ++ body ++ [RBRACKET] ++ rest /\
    c = [(1, [LBRACKET] ++ body ++ [RBRACKET])].
Proof.
  split; [apply styleUrls_match_shape|].
  intros (w & body & Hw & Hbody & -> & ->). now apply styleUrls_hit.
Qed.

(** An array on several lines: the match ends at its bracket, not at
    a later one. *)
Lemma styleUrls_syntax_witness :
  match_here re_styleUrls
    (js "styleUrls: [" ++ [LF] ++ js "  'a.css'" ++ [LF] ++ js "], x: [0]") =
    Some (js ", x: [0]",
          [(1, js "[" ++ [LF] ++ js "  'a.css'" ++ [LF] ++ js "]")]).
Proof.
  apply (proj2 (styleUrls_syntax _ (js ", x: [0]")
                  [(1, js "[" ++ [LF] ++ js "  'a.css'" ++ [LF] ++ js "]")])).
  exists (js " "), ([LF] ++ js "  'a.css'" ++ [LF]). repeat split; reflexivity.
Defined.

(** X23.  The expression of [removeModuleId] matches at a position
    exactly when the text there is a marker: white space,
    [moduleId:], white space, [module.id], white space and, optionally,
    a comma and white space, all the white space and the comma that are
    there being taken. *)
Theorem moduleId_syntax (s rest : str) (c : captures) :
  match_here re_moduleId s = Some (rest, c) <->
  exists m,
    marker_ok m = true /\ may_follow m rest = true /\
    s = marker_text m ++ rest /\ c = [].
Proof.
  split.
  - intros H. destruct (moduleId_match_shape _ _ _ H) as (m & Hok & Hf & ->).
    exists m. repeat split; try assumption.
    rewrite moduleId_hit in H by assumption. now injection H as <-.
  - intros (m & Hok & Hf & -> & ->). now apply moduleId_hit.
Qed.

(** A marker on a line of its own, with its comma. *)
Lemma moduleId_syntax_witness :
  match_here re_moduleId
    ([LF] ++ js "  moduleId: module.id," ++ [LF] ++ js "  selector") =
    Some (js "selector", []).
Proof.
  apply (proj2 (moduleId_syntax _ (js "selector") [])).
  exists {| lead := [LF] ++ js "  "; gap := js " "; trail := [];
            comma := Some ([LF] ++ js "  ") |}.
  repeat split; reflexivity.
Defined.

(** X24.  The normalization of resource content leaves content
    unchanged exactly when it holds neither a line break nor a double
    quote. *)
Theorem shorten_keeps_inert_content (content : str) :
  shorten content = content <-> forallb is_inert content = true.
Proof.
  revert content. intros s.
  rewrite shorten_spec. split.
  - intros H.
    assert (forallb (fun x => negb (is_break x)) s = true) as Hb.
    { rewrite <- H. apply escape_quotes_no_break, collapse_breaks_no_break. }
    rewrite collapse_breaks_inert in H by exact Hb.
    apply escape_quotes_fixed in H.
    clear -Hb H. induction s as [|x s IH]; [reflexivity|].
    cbn [forallb] in *. apply andb_true_iff in Hb as [Hb1 Hb].
    apply andb_true_iff in H as [H1 H]. unfold is_inert at 1.
    now rewrite Hb1, H1, IH.
  - intros H.
    assert (forallb (fun x => negb (is_break x)) s = true /\
            forallb (fun x => negb (N.eqb x 34)) s = true) as [Hb Hq].
    { clear -H. induction s as [|x s IH]; [easy|].
      cbn [forallb] in *. apply andb_true_iff in H as [Hx H].
      unfold is_inert in Hx. apply andb_true_iff in Hx as [-> ->].
      destruct (IH H) as [-> ->]. easy. }
    rewrite collapse_breaks_inert by exact Hb. now apply escape_quotes_fixed.
Qed.

(** Markup on one line with single quotes, and two lines. *)
Lemma shorten_keeps_inert_content_witness :
  shorten (js "<b class='x'>Hi</b>") = js "<b class='x'>Hi</b>" /\
  shorten (js "a" ++ [LF] ++ js "b") <> js "a" ++ [LF] ++ js "b".
Proof.
  split.
  - now apply (proj2 (shorten_keeps_inert_content (js "<b class='x'>Hi</b>"))).
  - intros H.
    apply (proj1 (shorten_keeps_inert_content (js "a" ++ [LF] ++ js "b"))) in H.
    discriminate H.
Defined.

(** X25.  [removeModuleId] makes the content strictly shorter when the
    expression matches somewhere in it, and returns it unchanged
    otherwise. *)
Theorem removeModuleId_only_removes (content : str) :
  if has_match re_moduleId content
  then length (removeModuleId content) < length content
  else removeModuleId content = content.
Proof.
  destruct (has_match re_moduleId content) eqn:Hm.
  - destruct (every_content_well_cut content) as (segments & last_ & -> & Hcut).
    rewrite removeModuleId_well_cut by exact Hcut.
    apply assemble_length. intros ->. cbn [well_cut assemble] in *.
    apply negb_true_iff in Hcut. congruence.
  - unfold removeModuleId. apply replace_const_no_match.
    now apply has_match_false.
Qed.

(** A marker between two properties, and text with a blank in front
    of the colon, which is no marker. *)
Lemma removeModuleId_only_removes_witness :
  length (removeModuleId (js "a, moduleId: module.id, b")) <
  length (js "a, moduleId: module.id, b") /\
  removeModuleId (js "moduleId : module.id") = js "moduleId : module.id".
Proof.
  split.
  - pose proof (removeModuleId_only_removes (js "a, moduleId: module.id, b")) as H.
    change (has_match re_moduleId (js "a, moduleId: module.id, b")) with true in H.
    exact H.
  - pose proof (removeModuleId_only_removes (js "moduleId : module.id")) as H.
    change (has_match re_moduleId (js "moduleId : module.id")) with false in H.
    exact H.
Defined.

(** X26.  On content without [templateUrl] and [styleUrls]
    declaration, [inlineResourcesFromString] consults neither the file
    system nor the resolver: it returns the content with its markers
    removed. *)
Theorem inlineResourcesFromString_without_declaration
    (fs : gmap str str) (resolver : str -> result str) (content : str) :
  has_match re_templateUrl content = false ->
  has_match re_styleUrls content = false ->
  inlineResourcesFromString fs content resolver = Ok (removeModuleId content).
Proof. apply inline_nothing. Qed.

(** A component with a marker, and a resolver that always throws. *)
Lemma inlineResourcesFromString_without_declaration_witness :
  inlineResourcesFromString ∅
    (js "@C({" ++ [LF] ++ js "  moduleId: module.id," ++ [LF] ++
     js "  selector: 'x'" ++ [LF] ++ js "})")
    (fun _ => Throw TypeError) =
  Ok (js "@C({selector: 'x'" ++ [LF] ++ js "})").
Proof.
  rewrite (inlineResourcesFromString_without_declaration ∅
             (fun _ => Throw TypeError)
             (js "@C({" ++ [LF] ++ js "  moduleId: module.id," ++ [LF] ++
              js "  selector: 'x'" ++ [LF] ++ js "})") eq_refl eq_refl).
  vm_compute. reflexivity.
Defined.

(** X27.  The three passes on a component with one [templateUrl] and,
    after it, one [styleUrls] declaration: the template is inlined, then
    the styles (the inlined template must not read [styleUrls:], since
    the second pass scans it), then the markers are removed from the
    whole. *)
Theorem inlineResourcesFromString_inlines_template_then_styles
    (fs : gmap str str) (resolver : str -> result str)
    (pre w1 name mid w2 body post templateFile templateContent : str)
    (urls contents : list str) :
  let template :=
    js "template: " ++ [DQUOTE] ++ shorten templateContent ++ [DQUOTE] in
  let styles :=
    js "styles: [" ++
    join (js "," ++ [LF])
      (map (fun content => [DQUOTE] ++ shorten content ++ [DQUOTE]) contents) ++
    js "]" in
  let styleUrls :=
    js "styleUrls:" ++ w2 ++ [LBRACKET] ++ body ++ [RBRACKET] in
  occurs (js "templateUrl:") pre = false ->
  forallb is_space w1 = true ->
  name <> [] ->
  forallb not_squote name = true ->
  resolver (name ++ js ".html") = Ok templateFile ->
  fs !! templateFile = Some templateContent ->
  has_match re_templateUrl (mid ++ styleUrls ++ post) = false ->
  occurs (js "styleUrls:") (pre ++ template ++ mid) = false ->
  forallb is_space w2 = true ->
  forallb (fun x => negb (N.eqb x 93)) body = true ->
  eval ([LBRACKET] ++ body ++ [RBRACKET]) = Ok urls ->
  mapM (fun styleUrl =>
          let* styleFile := resolver styleUrl in readFileSync fs styleFile)
       urls = Ok contents ->
  has_match re_styleUrls post = false ->
  inlineResourcesFromString fs
    (pre ++ js "templateUrl:" ++ w1 ++ [SQUOTE] ++ name ++ js ".html" ++
     [SQUOTE] ++ mid ++ styleUrls ++ post) resolver =
  Ok (removeModuleId (pre ++ template ++ mid ++ styles ++ post)).
Proof.
  intros template styles styleUrls Hpre Hw1 Hne Hname Hres Hfs Hrest Hmid Hw2
    Hbody Heval Hread Hpost.
  unfold inlineResourcesFromString. cbn [foldl bind].
  rewrite inlineTemplate_eq by assumption. rewrite Hres. cbn [bind].
  unfold readFileSync at 1. rewrite Hfs. cbn [bind].
  unfold inlineTemplate at 1.
  rewrite replace_no_match; [|apply has_match_false; exact Hrest].
  cbn [bind]. fold template.
  replace (pre ++ js "template: " ++ [DQUOTE] ++ shorten templateContent ++
           [DQUOTE] ++ mid ++ styleUrls ++ post)
    with ((pre ++ template ++ mid) ++ js "styleUrls:" ++ w2 ++ [LBRACKET] ++
          body ++ [RBRACKET] ++ post)
    by (unfold template, styleUrls; now rewrite <- !app_assoc).
  rewrite inlineStyle_eq by assumption. rewrite Heval. cbn [bind].
  rewrite Hread. cbn [bind].
  unfold inlineStyle at 1.
  rewrite replace_no_match by now apply has_match_false.
  cbn [bind]. do 2 f_equal. unfold styles, template.
  now rewrite <- !app_assoc.
Qed.

(** The metadata of a component with a marker, a template and one
    style sheet. *)
Lemma inlineResourcesFromString_inlines_template_then_styles_witness :
  inlineResourcesFromString
    {[ js "dir/a.html" := js "<p>" ++ [LF] ++ js "  Hi" ++ [LF] ++ js "</p>";
       js "dir/a.css" := js "p { color: red }" ]}
    (js "@C({" ++ [LF] ++ js "  moduleId: module.id," ++ [LF] ++
     js "  templateUrl: './a.html'," ++ [LF] ++
     js "  styleUrls: ['./a.css']" ++ [LF] ++ js "})")
    (fun url => Ok (path.join_paths [js "dir"; url])) =
  Ok (js "@C({template: " ++ [DQUOTE] ++ js "<p> Hi </p>" ++ [DQUOTE] ++
      js "," ++ [LF] ++ js "  styles: [" ++ [DQUOTE] ++ js "p { color: red }" ++
      [DQUOTE] ++ js "]" ++ [LF] ++ js "})").
Proof.
  set (fs := {[ js "dir/a.html" := js "<p>" ++ [LF] ++ js "  Hi" ++ [LF] ++ js "</p>";
                js "dir/a.css" := js "p { color: red }" ]} : gmap str str).
  set (resolver := fun url => Ok (path.join_paths [js "dir"; url])).
  pose proof (inlineResourcesFromString_inlines_template_then_styles fs resolver
                (js "@C({" ++ [LF] ++ js "  moduleId: module.id," ++ [LF] ++ js "  ")
                [SP] (js "./a") (js "," ++ [LF] ++ js "  ") [SP] (js "'./a.css'")
                ([LF] ++ js "})") (js "dir/a.html")
                (js "<p>" ++ [LF] ++ js "  Hi" ++ [LF] ++ js "</p>")
                [js "./a.css"] [js "p { color: red }"]) as H.
  cbv zeta in H.
  change (inlineResourcesFromString fs
            ((js "@C({" ++ [LF] ++ js "  moduleId: module.id," ++ [LF] ++ js "  ") ++
             js "templateUrl:" ++ [SP] ++ [SQUOTE] ++ js "./a" ++ js ".html" ++
             [SQUOTE] ++ (js "," ++ [LF] ++ js "  ") ++
             (js "styleUrls:" ++ [SP] ++ [LBRACKET] ++ js "'./a.css'" ++
              [RBRACKET]) ++ [LF] ++ js "})") resolver =
          Ok (js "@C({template: " ++ [DQUOTE] ++ js "<p> Hi </p>" ++ [DQUOTE] ++
              js "," ++ [LF] ++ js "  styles: [" ++ [DQUOTE] ++
              js "p { color: red }" ++ [DQUOTE] ++ js "]" ++ [LF] ++ js "})")).
  rewrite H; try (vm_compute; reflexivity).
  discriminate.
Defined.

(** X28.  The promise of [promiseify(fn)(args)] is settled by the first
    thing that [fn] does: rejected with [err] when it calls back with an
    error or throws, fulfilled with [value] when it calls back without
    error; what [fn] does afterwards changes nothing, and the promise
    stays pending when [fn] does nothing. *)
Theorem promiseify_settles_once
    (Args A : Type) (fn : Args -> list (event A)) (args : Args) :
  promiseify fn args =
  match fn args with
  | [] => Pending
  | Calls_back None value :: _ => Fulfilled value
  | Calls_back (Some err) _ :: _ => Rejected err
  | Throws e :: _ => Rejected e
  end.
Proof.
  rewrite promiseify_first.
  now destruct (fn args) as [|[[err|] ?|e] evs].
Qed.

(** A function that calls back twice and then throws, one that throws
    and then calls back, and one that does nothing. *)
Lemma promiseify_settles_once_witness :
  promiseify (fun path : str => [Calls_back None (js "data");
                                 Calls_back (Some (ENOENT path)) [];
                                 Throws TypeError]) (js "/f") =
    Fulfilled (js "data") /\
  promiseify (fun path : str => [Throws (ENOENT path);
                                 Calls_back None (js "data")]) (js "/f") =
    Rejected (ENOENT (js "/f")) /\
  promiseify (fun _ : str => @nil (event str)) (js "/f") = Pending.
Proof.
  split; [|split].
  - exact (promiseify_settles_once str str _ (js "/f")).
  - exact (promiseify_settles_once str str
             (fun path : str => [Throws (ENOENT path); Calls_back None (js "data")])
             (js "/f")).
  - exact (promiseify_settles_once str str (fun _ => []) (js "/f")).
Defined.
